(** * A model of [RawMemory<T>] and [Vector<T>] (advanced-vector/vector.h)

    The two class templates are embedded over an explicit program state:
    - a heap of raw blocks, each a list of slots that are either
      uninitialized or hold a live object of the element type;
    - a store of [Vector] objects and one of stand-alone [RawMemory] objects,
      both keyed by the address of the object, so that the comparisons
      [this != &rhs] of the source can be written down;
    - the bookkeeping needed to speak about exception safety: how many copy
      constructions remain before the element type's copy constructor
      throws, the objects whose storage was released while they were still
      alive, and the trace of element and allocator operations performed.

    [size_t] values are integers reduced modulo 2^64 where the source
    computes them; pointers are a block together with a signed offset.
    [operator new] is asked for [n * sizeof(T)] bytes, a product computed in
    [size_t], and the block it returns has room for as many elements as these
    bytes hold; it is assumed to succeed, so that [std::bad_alloc] is not
    part of the model. *)

From stdpp Require Import gmap list.

Open Scope Z_scope.

(** ** [size_t] *)

Definition SIZE_MOD : Z := 2 ^ 64.

(** Conversion of a mathematical integer to [size_t]. *)
Definition size_t (z : Z) : Z := z mod SIZE_MOD.

(** ** The element type *)

(** What the container asks of [T]: the two traits tested by
    [if constexpr], the value produced by value-initialization [T()], the
    value a move leaves behind in its source, and [sizeof(T)], a positive
    [size_t]. *)
Class Element (T : Type) := {
  is_nothrow_move_constructible : bool;
  is_copy_constructible : bool;
  value_init : T;
  moved_from : T → T;
  sizeof_T : Z;
  sizeof_T_range : 0 < sizeof_T < SIZE_MOD;
}.

(** ** Pointers *)

Definition block := positive.
Definition addr := positive.
Bind Scope positive_scope with block addr.

(** A [T*]: null, or a block and an offset counted in elements. *)
Inductive ptr := nullptr | Ptr (b : block) (off : Z).

#[global] Instance ptr_eq_dec : EqDecision ptr.
Proof. solve_decision. Defined.

Definition ptr_add (p : ptr) (n : Z) : ptr :=
  match p with
  | nullptr => nullptr
  | Ptr b o => Ptr b (o + n)
  end.

(** [p - q] for pointers into the same array ([nullptr - nullptr] is 0). *)
Definition ptr_diff (p q : ptr) : option Z :=
  match p, q with
  | nullptr, nullptr => Some 0
  | Ptr b o, Ptr b' o' => if decide (b = b') then Some (o - o') else None
  | _, _ => None
  end.

(** Arguments of [Emplace]: the constructor of [T] that [T(args...)] selects
    and the value it produces. *)
Inductive ctor_args (T : Type) :=
| CopyOf (v : T)     (* T(const T&) *)
| MoveOf (v : T)     (* T(T&&) *)
| Args (v : T).      (* any other constructor *)
Arguments CopyOf {T}. Arguments MoveOf {T}. Arguments Args {T}.

Definition args_value {T} (a : ctor_args T) : T :=
  match a with CopyOf v | MoveOf v | Args v => v end.

Inductive event :=
| EvAllocate (b : block) (n : Z)
| EvDeallocate (b : block)
| EvConstruct (p : ptr)
| EvValueConstruct (p : ptr)
| EvCopyConstruct (dst src : ptr)
| EvMoveConstruct (dst src : ptr)
| EvCopyAssign (dst src : ptr)
| EvMoveAssign (dst src : ptr)
| EvMoveAssignTmp (dst : ptr)
| EvDestroy (p : ptr).

#[global] Instance event_eq_dec : EqDecision event.
Proof. solve_decision. Defined.

(** The events of a loop that applies one operation at [n] consecutive
    slots, or from [n] consecutive slots to [n] consecutive slots. *)
Fixpoint events1 (ev : ptr → event) (n : nat) (p : ptr) : list event :=
  match n with
  | O => []
  | S n' => ev p :: events1 ev n' (ptr_add p 1)
  end.

Fixpoint events2 (ev : ptr → ptr → event) (n : nat) (dst src : ptr) : list event :=
  match n with
  | O => []
  | S n' => ev dst src :: events2 ev n' (ptr_add dst 1) (ptr_add src 1)
  end.

(** The same for a loop that walks both ranges backwards from their ends. *)
Fixpoint events2_backward (ev : ptr → ptr → event) (n : nat) (d_last last : ptr)
    : list event :=
  match n with
  | O => []
  | S n' =>
      ev (ptr_add d_last (-1)) (ptr_add last (-1))
      :: events2_backward ev n' (ptr_add d_last (-1)) (ptr_add last (-1))
  end.

Section Model.
Context {T : Type} `{!Element T}.

(** ** Program state *)

Inductive slot := Raw | Obj (v : T).

Record RawMemory := mkRawMemory { buffer_ : ptr; capacity_ : Z }.

Record Vector := mkVector { size_ : Z; data_ : RawMemory }.

Record state := mkState {
  heap : gmap block (list slot);
  vecs : gmap addr Vector;
  raws : gmap addr RawMemory;
  copies_until_throw : option nat;
  leaked : list T;
  trace : list event;
}.

Inductive outcome (A : Type) :=
| Ret (a : A) (s : state)    (* normal completion *)
| Throw (s : state)          (* an exception propagates *)
| Fault.                     (* undefined behaviour or a failed assert *)
Arguments Ret {A}. Arguments Throw {A}. Arguments Fault {A}.

Definition M (A : Type) : Type := state → outcome A.

#[global] Instance M_ret : MRet M := λ A a s, Ret a s.
#[global] Instance M_bind : MBind M := λ A B f m s,
  match m s with
  | Ret a s' => f a s'
  | Throw s' => Throw s'
  | Fault => Fault
  end.

Definition fault {A} : M A := λ _, Fault.
Definition throw {A} : M A := λ s, Throw s.

Definition assert (b : bool) : M unit := if b then mret tt else fault.

(** [try { m } catch (...) { h; throw; }] *)
Definition catch_rethrow {A} (m : M A) (h : M unit) : M A := λ s,
  match m s with
  | Throw s' =>
      match h s' with
      | Ret _ s'' => Throw s''
      | _ => Fault
      end
  | o => o
  end.

Definition set_heap (h : gmap block (list slot)) : M unit := λ s,
  Ret tt (mkState h (vecs s) (raws s) (copies_until_throw s) (leaked s) (trace s)).

Definition log (e : event) : M unit := λ s,
  Ret tt (mkState (heap s) (vecs s) (raws s) (copies_until_throw s) (leaked s)
            (trace s ++ [e])).

Definition leak (l : list T) : M unit := λ s,
  Ret tt (mkState (heap s) (vecs s) (raws s) (copies_until_throw s)
            (leaked s ++ l) (trace s)).

(** One invocation of the copy constructor of [T]. *)
Definition copy_ctor_call : M unit := λ s,
  match copies_until_throw s with
  | None => Ret tt s
  | Some (S k) =>
      Ret tt (mkState (heap s) (vecs s) (raws s) (Some k) (leaked s) (trace s))
  | Some O =>
      Throw (mkState (heap s) (vecs s) (raws s) None (leaked s) (trace s))
  end.

(** *** Slots *)

Definition slot_lookup (ls : list slot) (o : Z) : option slot :=
  if decide (0 ≤ o) then ls !! Z.to_nat o else None.

Definition get_slot (p : ptr) : M slot := λ s,
  match p with
  | nullptr => Fault
  | Ptr b o =>
      match heap s !! b with
      | Some ls =>
          match slot_lookup ls o with
          | Some x => Ret x s
          | None => Fault
          end
      | None => Fault
      end
  end.

Definition set_slot (p : ptr) (x : slot) : M unit := λ s,
  match p with
  | nullptr => Fault
  | Ptr b o =>
      match heap s !! b with
      | Some ls =>
          match slot_lookup ls o with
          | Some _ => set_heap (<[b := <[Z.to_nat o := x]> ls]> (heap s)) s
          | None => Fault
          end
      | None => Fault
      end
  end.

(** Reading [*p]: the slot must hold a live object. *)
Definition read (p : ptr) : M T :=
  x ← get_slot p;
  match x with
  | Obj v => mret v
  | Raw => fault
  end.

(** Placement new at [p]; an object already alive there is never destroyed. *)
Definition place (p : ptr) (v : T) : M unit :=
  x ← get_slot p;
  match x with
  | Obj old => leak [old]
  | Raw => mret tt
  end;;
  set_slot p (Obj v).

(** Assignment to [*p], which must be alive. *)
Definition overwrite (p : ptr) (v : T) : M unit :=
  read p;; set_slot p (Obj v).

(** *** Element operations *)

(** [T tmp(args...)] *)
Definition construct_value (a : ctor_args T) : M T :=
  match a with
  | CopyOf v => copy_ctor_call;; mret v
  | MoveOf v => mret v
  | Args v => mret v
  end.

(** [new (p) T(args...)] *)
Definition construct_at (p : ptr) (a : ctor_args T) : M unit :=
  v ← construct_value a; place p v;; log (EvConstruct p).

(** [new (p) T()] *)
Definition value_construct_at (p : ptr) : M unit :=
  place p value_init;; log (EvValueConstruct p).

(** placement copy construction of the object at [src] into [dst] *)
Definition copy_construct_at (dst src : ptr) : M unit :=
  v ← read src; copy_ctor_call;; place dst v;; log (EvCopyConstruct dst src).

(** placement move construction of the object at [src] into [dst] *)
Definition move_construct_at (dst src : ptr) : M unit :=
  v ← read src; place dst v;; set_slot src (Obj (moved_from v));;
  log (EvMoveConstruct dst src).

(** copy assignment of the object at [src] to the one at [dst] *)
Definition copy_assign (dst src : ptr) : M unit :=
  v ← read src; overwrite dst v;; log (EvCopyAssign dst src).

(** move assignment of the object at [src] to the one at [dst] *)
Definition move_assign (dst src : ptr) : M unit :=
  v ← read src; overwrite dst v;; set_slot src (Obj (moved_from v));;
  log (EvMoveAssign dst src).

(** move assignment of a local [tmp] holding [v] to the object at [dst] *)
Definition move_assign_tmp (dst : ptr) (v : T) : M unit :=
  overwrite dst v;; log (EvMoveAssignTmp dst).

(** [std::destroy_at(p)] *)
Definition destroy_at (p : ptr) : M unit :=
  read p;; set_slot p Raw;; log (EvDestroy p).

(** *** Algorithms of <memory> and <algorithm> *)

(** [std::destroy_n(first, n)] *)
Fixpoint destroy_loop (n : nat) (first : ptr) : M unit :=
  match n with
  | O => mret tt
  | S n' => destroy_at first;; destroy_loop n' (ptr_add first 1)
  end.

Definition destroy_n (first : ptr) (n : Z) : M unit :=
  destroy_loop (Z.to_nat n) first.

(** [std::destroy(first, last)] *)
Definition destroy_range (first last : ptr) : M unit :=
  match ptr_diff last first with
  | Some n => if decide (0 ≤ n) then destroy_loop (Z.to_nat n) first else fault
  | None => fault
  end.

(** The loop shared by the three [std::uninitialized_*_n]: [step cur src]
    constructs at [cur]; when it throws, the objects constructed so far in
    [[d_first, cur)] are destroyed and the exception is rethrown. *)
Fixpoint uninitialized_loop (step : ptr → ptr → M unit) (n : nat)
    (first d_first cur : ptr) : M unit :=
  match n with
  | O => mret tt
  | S n' =>
      catch_rethrow (step cur first) (destroy_range d_first cur);;
      uninitialized_loop step n' (ptr_add first 1) d_first (ptr_add cur 1)
  end.

Definition uninitialized_copy_n (first : ptr) (n : Z) (d_first : ptr) : M unit :=
  uninitialized_loop copy_construct_at (Z.to_nat n) first d_first d_first.

Definition uninitialized_move_n (first : ptr) (n : Z) (d_first : ptr) : M unit :=
  uninitialized_loop move_construct_at (Z.to_nat n) first d_first d_first.

Definition uninitialized_value_construct_n (first : ptr) (n : Z) : M unit :=
  uninitialized_loop (λ cur _, value_construct_at cur) (Z.to_nat n)
    first first first.

(** [std::move(first, last, d_first)] *)
Fixpoint move_loop (n : nat) (first d_first : ptr) : M unit :=
  match n with
  | O => mret tt
  | S n' =>
      move_assign d_first first;;
      move_loop n' (ptr_add first 1) (ptr_add d_first 1)
  end.

Definition std_move (first last d_first : ptr) : M unit :=
  match ptr_diff last first with
  | Some n => if decide (0 ≤ n) then move_loop (Z.to_nat n) first d_first else fault
  | None => fault
  end.

(** [std::move_backward(first, last, d_last)] *)
Fixpoint move_backward_loop (n : nat) (last d_last : ptr) : M unit :=
  match n with
  | O => mret tt
  | S n' =>
      move_assign (ptr_add d_last (-1)) (ptr_add last (-1));;
      move_backward_loop n' (ptr_add last (-1)) (ptr_add d_last (-1))
  end.

Definition std_move_backward (first last d_last : ptr) : M unit :=
  match ptr_diff last first with
  | Some n =>
      if decide (0 ≤ n) then move_backward_loop (Z.to_nat n) last d_last else fault
  | None => fault
  end.

(** ** [RawMemory<T>] *)

Definition live_values (ls : list slot) : list T :=
  omap (λ x, match x with Obj v => Some v | Raw => None end) ls.

(** A fresh block of [n] uninitialized slots. *)
Definition new_block (n : Z) : M block := λ s,
  let b := fresh (dom (heap s)) in
  Ret b (mkState (<[b := replicate (Z.to_nat n) Raw]> (heap s)) (vecs s) (raws s)
           (copies_until_throw s) (leaked s) (trace s)).

(** [static T* Allocate(size_t n)]: [operator new(n * sizeof(T))] when [n]
    is not 0. The product is computed in [size_t], so that it wraps around
    for [n * sizeof(T)] of 2^64 and more; the block obtained has room for
    the elements that fit the bytes requested, fewer than [n] after a
    wrap-around. [operator new] is assumed not to throw. *)
Definition Allocate (n : Z) : M ptr :=
  if decide (n ≠ 0) then
    b ← new_block (size_t (n * sizeof_T) / sizeof_T);
    log (EvAllocate b n);;
    mret (Ptr b 0)
  else mret nullptr.

(** [static void Deallocate(T* buf) noexcept]: [operator delete]. Releasing
    what is not the start of an allocated block is undefined; objects still
    alive in the block are never destroyed. *)
Definition free_block (b : block) : M (list slot) := λ s,
  match heap s !! b with
  | Some ls =>
      Ret ls (mkState (delete b (heap s)) (vecs s) (raws s)
                (copies_until_throw s) (leaked s) (trace s))
  | None => Fault
  end.

Definition Deallocate (buf : ptr) : M unit :=
  match buf with
  | nullptr => mret tt
  | Ptr b o =>
      if decide (o = 0) then
        ls ← free_block b;
        leak (live_values ls);;
        log (EvDeallocate b)
      else fault
  end.

(** [RawMemory() = default] *)
Definition RawMemory_default : RawMemory := mkRawMemory nullptr 0.

(** [explicit RawMemory(size_t capacity)] *)
Definition RawMemory_new (capacity : Z) : M RawMemory :=
  buf ← Allocate capacity;
  mret (mkRawMemory buf capacity).

(** [~RawMemory()] *)
Definition RawMemory_delete (r : RawMemory) : M unit :=
  Deallocate (buffer_ r).

(** [T* operator+(size_t offset) noexcept] *)
Definition RawMemory_plus (r : RawMemory) (offset : Z) : M ptr :=
  assert (bool_decide (offset ≤ capacity_ r));;
  mret (ptr_add (buffer_ r) offset).

(** [T& operator[](size_t index) noexcept] *)
Definition RawMemory_at (r : RawMemory) (index : Z) : M ptr :=
  assert (bool_decide (index < capacity_ r));;
  mret (ptr_add (buffer_ r) index).

(** [void Swap(RawMemory& other) noexcept]: the new values of [*this] and
    of [other]. *)
Definition RawMemory_Swap (r other : RawMemory) : RawMemory * RawMemory :=
  (mkRawMemory (buffer_ other) (capacity_ other),
   mkRawMemory (buffer_ r) (capacity_ r)).

Definition GetAddress (r : RawMemory) : ptr := buffer_ r.

Definition RawMemory_Capacity (r : RawMemory) : Z := capacity_ r.

(** *** Stand-alone [RawMemory] objects, by address *)

Definition get_raw (a : addr) : M RawMemory := λ s,
  match raws s !! a with
  | Some r => Ret r s
  | None => Fault
  end.

Definition set_raws (m : gmap addr RawMemory) : M unit := λ s,
  Ret tt (mkState (heap s) (vecs s) m (copies_until_throw s) (leaked s) (trace s)).

Definition put_raw (a : addr) (r : RawMemory) : M unit := λ s,
  set_raws (<[a := r]> (raws s)) s.

Definition del_raw (a : addr) : M unit := λ s,
  set_raws (delete a (raws s)) s.

(** [explicit RawMemory(size_t capacity)] for the object at [this] *)
Definition RawMemory_ctor (this : addr) (capacity : Z) : M unit :=
  r ← RawMemory_new capacity; put_raw this r.

(** [RawMemory(RawMemory&& other) noexcept] for the object at [this] *)
Definition RawMemory_move_ctor (this other : addr) : M unit :=
  o ← get_raw other;
  put_raw this (mkRawMemory (buffer_ o) (capacity_ o));;
  o ← get_raw other;
  put_raw other (mkRawMemory nullptr (capacity_ o)).

(** [RawMemory& operator=(RawMemory&& rhs) noexcept] *)
Definition RawMemory_move_assign (this rhs : addr) : M unit :=
  if decide (rhs ≠ this) then
    t ← get_raw this;
    Deallocate (buffer_ t);;
    r ← get_raw rhs;
    put_raw this (mkRawMemory (buffer_ r) (capacity_ r))
  else mret tt.

(** [~RawMemory()] for the object at [this] *)
Definition RawMemory_dtor (this : addr) : M unit :=
  r ← get_raw this;
  RawMemory_delete r;;
  del_raw this.

(** ** [Vector<T>] *)

Definition get_vec (a : addr) : M Vector := λ s,
  match vecs s !! a with
  | Some v => Ret v s
  | None => Fault
  end.

Definition set_vecs (m : gmap addr Vector) : M unit := λ s,
  Ret tt (mkState (heap s) m (raws s) (copies_until_throw s) (leaked s) (trace s)).

Definition put_vec (a : addr) (v : Vector) : M unit := λ s,
  set_vecs (<[a := v]> (vecs s)) s.

Definition del_vec (a : addr) : M unit := λ s,
  set_vecs (delete a (vecs s)) s.

(** The address of a new local [Vector] *)
Definition local_vec : M addr := λ s, Ret (fresh (dom (vecs s))) s.

(** Writes to the members of the object at [a] *)
Definition set_size_ (a : addr) (n : Z) : M unit :=
  v ← get_vec a; put_vec a (mkVector n (data_ v)).

Definition set_data_ (a : addr) (d : RawMemory) : M unit :=
  v ← get_vec a; put_vec a (mkVector (size_ v) d).

(** [Vector() = default] *)
Definition Vector_default_ctor (this : addr) : M unit :=
  put_vec this (mkVector 0 RawMemory_default).

(** [Vector(size_t size)]: when the body throws, the member [data_] is
    destroyed; the object comes into being when the body completes. *)
Definition Vector_size_ctor (this : addr) (size : Z) : M unit :=
  data ← RawMemory_new size;
  catch_rethrow (uninitialized_value_construct_n (GetAddress data) size)
    (RawMemory_delete data);;
  put_vec this (mkVector size data).

(** [Vector(const Vector& other)] *)
Definition Vector_copy_ctor (this other : addr) : M unit :=
  o ← get_vec other;
  data ← RawMemory_new (size_ o);
  catch_rethrow
    (uninitialized_copy_n (GetAddress (data_ o)) (size_ o) (GetAddress data))
    (RawMemory_delete data);;
  put_vec this (mkVector (size_ o) data).

(** [void Swap(Vector& other) noexcept] *)
Definition Swap (this other : addr) : M unit :=
  t ← get_vec this;
  o ← get_vec other;
  let '(d, od) := RawMemory_Swap (data_ t) (data_ o) in
  set_data_ this d;;
  set_data_ other od;;
  set_size_ this (size_ o);;
  set_size_ other (size_ t).

(** [Vector(Vector&& other) noexcept] *)
Definition Vector_move_ctor (this other : addr) : M unit :=
  Vector_default_ctor this;;
  Swap this other.

(** [~Vector()], followed by the destruction of the member [data_] *)
Definition Vector_dtor (this : addr) : M unit :=
  v ← get_vec this;
  destroy_n (GetAddress (data_ v)) (size_ v);;
  RawMemory_delete (data_ v);;
  del_vec this.

(** The loop [for (; i < size_ && i < rhs.size_; ++i) data_[i] = rhs.data_[i];]
    of the copy assignment: neither bound changes while it runs, so it makes
    [min(size_, rhs.size_)] iterations; the result is the final [i]. *)
Fixpoint assign_loop (n : nat) (data rhs_data : RawMemory) (i : Z) : M Z :=
  match n with
  | O => mret i
  | S n' =>
      d ← RawMemory_at data i;
      r ← RawMemory_at rhs_data i;
      copy_assign d r;;
      assign_loop n' data rhs_data (i + 1)
  end.

(** [Vector& operator=(const Vector& rhs)] *)
Definition operator_assign (this rhs : addr) : M unit :=
  if decide (this ≠ rhs) then
    r ← get_vec rhs;
    t ← get_vec this;
    (if decide (size_ r > RawMemory_Capacity (data_ t)) then
       copy ← local_vec;
       Vector_copy_ctor copy rhs;;
       Swap this copy;;
       Vector_dtor copy
     else
       i ← assign_loop (Z.to_nat (Z.min (size_ t) (size_ r))) (data_ t) (data_ r) 0;
       if decide (size_ r < size_ t) then
         destroy_n (ptr_add (GetAddress (data_ t)) i) (size_t (size_ t - size_ r))
       else
         uninitialized_copy_n (ptr_add (GetAddress (data_ r)) i)
           (size_t (size_ r - size_ t)) (ptr_add (GetAddress (data_ t)) i));;
    r ← get_vec rhs;
    set_size_ this (size_ r)
  else mret tt.

(** [Vector& operator=(Vector&& rhs) noexcept] *)
Definition operator_move_assign (this rhs : addr) : M unit :=
  Swap this rhs.

(** [begin()], [cbegin()] *)
Definition begin_ (this : addr) : M ptr :=
  v ← get_vec this; mret (GetAddress (data_ v)).

(** [end()], [cend()] *)
Definition end_ (this : addr) : M ptr :=
  v ← get_vec this; mret (ptr_add (GetAddress (data_ v)) (size_ v)).

(** [T& Back() noexcept] *)
Definition Back (this : addr) : M ptr :=
  v ← get_vec this; RawMemory_at (data_ v) (size_t (size_ v - 1)).

Definition Size (this : addr) : M Z :=
  v ← get_vec this; mret (size_ v).

Definition Capacity (this : addr) : M Z :=
  v ← get_vec this; mret (RawMemory_Capacity (data_ v)).

(** [T& operator[](size_t index) noexcept] *)
Definition Vector_at (this : addr) (index : Z) : M ptr :=
  v ← get_vec this;
  assert (bool_decide (index < size_ v));;
  RawMemory_at (data_ v) index.

(** [void FillTmpData(RawMemory<T>& data)] *)
Definition FillTmpData (this : addr) (data : RawMemory) : M unit :=
  v ← get_vec this;
  if is_nothrow_move_constructible || negb is_copy_constructible then
    uninitialized_move_n (GetAddress (data_ v)) (size_ v) (GetAddress data)
  else
    uninitialized_copy_n (GetAddress (data_ v)) (size_ v) (GetAddress data).

(** [void Reserve(size_t new_capacity)]: the local [new_data] is destroyed
    when the scope is left, by an exception or at its end. *)
Definition Reserve (this : addr) (new_capacity : Z) : M unit :=
  c ← Capacity this;
  if decide (c >= new_capacity) then mret tt
  else
    new_data ← RawMemory_new new_capacity;
    catch_rethrow (FillTmpData this new_data) (RawMemory_delete new_data);;
    v ← get_vec this;
    let '(d, new_data) := RawMemory_Swap (data_ v) new_data in
    set_data_ this d;;
    v ← get_vec this;
    destroy_n (GetAddress new_data) (size_ v);;
    RawMemory_delete new_data.

(** [void Resize(size_t new_size)] *)
Definition Resize (this : addr) (new_size : Z) : M unit :=
  v ← get_vec this;
  (if decide (size_ v >= new_size) then
     destroy_n (ptr_add (GetAddress (data_ v)) new_size)
       (size_t (size_ v - new_size))
   else
     Reserve this new_size;;
     v ← get_vec this;
     uninitialized_value_construct_n
       (ptr_add (GetAddress (data_ v)) (size_ v)) (size_t (new_size - size_ v)));;
  set_size_ this new_size.

(** [iterator EasyEmplace(const_iterator pos, Args&&... args)]: the local
    [tmp] is built before the sequence is touched. *)
Definition EasyEmplace (this : addr) (pos : ptr) (args : ctor_args T) : M ptr :=
  e ← end_ this;
  (if decide (pos ≠ e) then
     tmp ← construct_value args;
     e ← end_ this;
     move_construct_at e (ptr_add e (-1));;
     e ← end_ this;
     std_move_backward pos (ptr_add e (-1)) e;;
     move_assign_tmp pos tmp
   else
     e ← end_ this;
     construct_at e args);;
  v ← get_vec this;
  set_size_ this (size_t (size_ v + 1));;
  mret pos.

(** [iterator RealocationEmplace(const_iterator pos, Args&&... args)] *)
Definition RealocationEmplace (this : addr) (pos : ptr) (args : ctor_args T)
    : M ptr :=
  b ← begin_ this;
  match ptr_diff pos b with
  | None => fault
  | Some d =>
      let pos_step := size_t d in
      v ← get_vec this;
      new_data ← RawMemory_new (if decide (size_ v = 0) then 1 else size_t (size_ v * 2));
      catch_rethrow
        (p ← RawMemory_plus new_data pos_step;
         construct_at p args;;
         if is_nothrow_move_constructible || negb is_copy_constructible then
           uninitialized_move_n (GetAddress (data_ v)) pos_step
             (GetAddress new_data);;
           uninitialized_move_n (ptr_add (GetAddress (data_ v)) pos_step)
             (size_t (size_ v - pos_step))
             (ptr_add (ptr_add (GetAddress new_data) pos_step) 1)
         else
           uninitialized_copy_n (GetAddress (data_ v)) pos_step
             (GetAddress new_data);;
           uninitialized_copy_n (ptr_add (GetAddress (data_ v)) pos_step)
             (size_t (size_ v - pos_step))
             (ptr_add (ptr_add (GetAddress new_data) pos_step) 1))
        (RawMemory_delete new_data);;
      v ← get_vec this;
      let '(d, new_data) := RawMemory_Swap (data_ v) new_data in
      set_data_ this d;;
      v ← get_vec this;
      destroy_n (GetAddress new_data) (size_ v);;
      set_size_ this (size_t (size_ v + 1));;
      b ← begin_ this;
      RawMemory_delete new_data;;
      mret (ptr_add b pos_step)
  end.

(** [iterator Emplace(const_iterator pos, Args&&... args)] *)
Definition Emplace (this : addr) (pos : ptr) (args : ctor_args T) : M ptr :=
  v ← get_vec this;
  c ← Capacity this;
  if decide (size_ v < c) then EasyEmplace this pos args
  else RealocationEmplace this pos args.

(** [T& EmplaceBack(Args&&... args)] *)
Definition EmplaceBack (this : addr) (args : ctor_args T) : M ptr :=
  e ← end_ this;
  Emplace this e args;;
  Back this.

(** [void PushBack(Type&& value)] *)
Definition PushBack (this : addr) (value : ctor_args T) : M unit :=
  EmplaceBack this value;; mret tt.

(** [iterator Erase(const_iterator pos)] *)
Definition Erase (this : addr) (pos : ptr) : M ptr :=
  e ← end_ this;
  std_move (ptr_add pos 1) e pos;;
  e ← end_ this;
  destroy_at (ptr_add e (-1));;
  v ← get_vec this;
  set_size_ this (size_t (size_ v - 1));;
  mret pos.

(** [iterator Insert(const_iterator pos, const T& value)] *)
Definition Insert (this : addr) (pos : ptr) (value : T) : M ptr :=
  Emplace this pos (CopyOf value).

(** [iterator Insert(const_iterator pos, T&& value)] *)
Definition Insert_rvalue (this : addr) (pos : ptr) (value : T) : M ptr :=
  Emplace this pos (MoveOf value).

(** [void PopBack() noexcept] *)
Definition PopBack (this : addr) : M unit :=
  v ← get_vec this;
  set_size_ this (size_t (size_ v - 1));;
  v ← get_vec this;
  destroy_at (ptr_add (GetAddress (data_ v)) (size_ v)).

End Model.

Arguments Ret {T A}.
Arguments Throw {T A}.
Arguments Fault {T A}.
Arguments Raw {T}.
Arguments Obj {T}.
Arguments slot : clear implicits.
Arguments state : clear implicits.
Arguments outcome : clear implicits.
Arguments M : clear implicits.

Arguments Allocate : simpl never.
Arguments Deallocate : simpl never.
Arguments RawMemory_new : simpl never.
Arguments RawMemory_delete : simpl never.
Arguments RawMemory_at : simpl never.
Arguments RawMemory_plus : simpl never.
Arguments get_vec : simpl never.
Arguments put_vec : simpl never.
Arguments del_vec : simpl never.
Arguments set_size_ : simpl never.
Arguments set_data_ : simpl never.
Arguments begin_ : simpl never.
Arguments end_ : simpl never.
Arguments Capacity : simpl never.
Arguments destroy_at : simpl never.
Arguments destroy_n : simpl never.
Arguments destroy_range : simpl never.
Arguments uninitialized_copy_n : simpl never.
Arguments uninitialized_move_n : simpl never.
Arguments uninitialized_value_construct_n : simpl never.
Arguments std_move : simpl never.
Arguments std_move_backward : simpl never.
Arguments construct_value : simpl never.
Arguments construct_at : simpl never.
Arguments move_construct_at : simpl never.
Arguments copy_construct_at : simpl never.
Arguments value_construct_at : simpl never.
Arguments copy_assign : simpl never.
Arguments move_assign : simpl never.
Arguments move_assign_tmp : simpl never.
Arguments FillTmpData : simpl never.
Arguments Reserve : simpl never.
Arguments Vector_copy_ctor : simpl never.
Arguments Vector_dtor : simpl never.
Arguments Swap : simpl never.
Arguments EasyEmplace : simpl never.
Arguments RealocationEmplace : simpl never.
Arguments Emplace : simpl never.
Arguments Back : simpl never.

(** * Vocabulary of the specifications *)

(** The copy budget: what remains after [n] successful copy constructions,
    and whether [n] of them succeed. *)
Definition budget_after (k : option nat) (n : nat) : option nat :=
  match k with
  | None => None
  | Some m => Some (m - n)%nat
  end.

Definition budget_allows (k : option nat) (n : nat) : Prop :=
  match k with
  | None => True
  | Some m => (n ≤ m)%nat
  end.

(** The number of copy constructions that building [T(args...)] makes. *)
Definition args_copies {T} (a : ctor_args T) : nat :=
  match a with
  | CopyOf _ => 1
  | _ => 0
  end.

Section Residues.
Context {T : Type} `{!Element T}.

(** What a forward shift by move assignment leaves in the last slot of the
    range [x, vs], and what a backward shift leaves in the first slot of the
    range [vs, y]. *)
Fixpoint shift_residue (x : T) (vs : list T) : T :=
  match vs with
  | [] => x
  | v :: vs' => shift_residue (moved_from v) vs'
  end.

Definition back_residue (y : T) (vs : list T) : T :=
  match vs with
  | [] => y
  | v :: _ => moved_from v
  end.

End Residues.

Section Representation.
Context {T : Type} `{!Element T}.

(** The slots of a block of capacity [c] whose leading slots hold the
    elements [l], the others being uninitialized. *)
Definition slots_of (l : list T) (c : Z) : list (slot T) :=
  map Obj l ++ replicate (Z.to_nat c - length l) Raw.

(** The block that [p] points to has the slots [ls]; a null pointer stands
    for no block. *)
Definition block_at (s : state T) (p : ptr) (ls : list (slot T)) : Prop :=
  match p with
  | nullptr => ls = []
  | Ptr b o => o = 0 ∧ heap s !! b = Some ls
  end.

(** [holds s a p c l]: in state [s] the [Vector] at address [a] is a
    Sequence with elements [l] and capacity [c], stored from [p] on; the
    capacity is a [size_t], and so is the size in bytes of the storage. *)
Definition holds (s : state T) (a : addr) (p : ptr) (c : Z) (l : list T) : Prop :=
  vecs s !! a = Some (mkVector (Z.of_nat (length l)) (mkRawMemory p c)) ∧
  (Z.of_nat (length l) ≤ c < SIZE_MOD ∧ c * sizeof_T < SIZE_MOD) ∧
  block_at s p (slots_of l c).

(** The heap once the block at [p] is released, and the events of releasing it. *)
Definition release (p : ptr) (h : gmap block (list (slot T)))
    : gmap block (list (slot T)) :=
  match p with
  | nullptr => h
  | Ptr b _ => delete b h
  end.

(** The heap once the block at [p] has the slots [ls]. *)
Definition store (p : ptr) (ls : list (slot T)) (h : gmap block (list (slot T)))
    : gmap block (list (slot T)) :=
  match p with
  | nullptr => h
  | Ptr b _ => <[b := ls]> h
  end.

Definition release_events (p : ptr) : list event :=
  match p with
  | nullptr => []
  | Ptr b _ => [EvDeallocate b]
  end.

(** The relocation strategy selected by the condition of both
    [if constexpr]: the event of relocating one element, the number of copy
    constructions that relocating [n] elements makes, and what relocation
    leaves in the old storage. *)
Definition relocation_event : ptr → ptr → event :=
  if is_nothrow_move_constructible || negb is_copy_constructible
  then EvMoveConstruct else EvCopyConstruct.

Definition relocation_copies (n : nat) : nat :=
  if is_nothrow_move_constructible || negb is_copy_constructible then O else n.

Definition left_behind (l : list T) : list T :=
  if is_nothrow_move_constructible || negb is_copy_constructible
  then map moved_from l else l.

(** Two pointers that do not point into the same block. *)
Definition disjoint_blocks (p q : ptr) : Prop :=
  match p, q with
  | Ptr b _, Ptr b' _ => b ≠ b'
  | _, _ => True
  end.

(** Capacity after an insertion into a Sequence of [n] elements and
    capacity [c]. *)
Definition capacity_after_emplace (n c : Z) : Z :=
  if decide (n < c) then c else Z.max 1 (2 * n).

(** Repeated [PushBack], one call for each element of [xs] in order. *)
Fixpoint push_all (this : addr) (xs : list (ctor_args T)) : M T unit :=
  match xs with
  | [] => mret tt
  | x :: xs' => PushBack this x;; push_all this xs'
  end.

(** The least power of two that is at least [n] (0 for [n = 0]). *)
Definition pow2_ceil (n : Z) : Z :=
  if decide (n = 0) then 0 else 2 ^ Z.log2_up n.

End Representation.

(** * Calls on one Sequence, and their effect on a list *)

Section Operations.
Context {T : Type} `{!Element T}.

(** The block at [p] is not part of the heap [h]. *)
Definition absent (p : ptr) (h : gmap block (list (slot T))) : Prop :=
  match p with
  | nullptr => True
  | Ptr b _ => h !! b = None
  end.

(** [owns s a p c l h0]: the Sequence at [a] holds [l] with capacity [c] in
    the block at [p], and the heap consists of that block and of [h0]. *)
Definition owns (s : state T) (a : addr) (p : ptr) (c : Z) (l : list T)
    (h0 : gmap block (list (slot T))) : Prop :=
  holds s a p c l ∧ heap s = store p (slots_of l c) h0 ∧ absent p h0.

(** The calls a client makes on one [Vector], positions being given as
    indices from [begin()]. *)
Inductive operation :=
| DoPushBack (x : ctor_args T)
| DoPopBack
| DoInsert (i : nat) (x : ctor_args T)
| DoErase (i : nat)
| DoReserve (n : Z)
| DoResize (n : Z).

Definition perform (this : addr) (o : operation) : M T unit :=
  match o with
  | DoPushBack x => PushBack this x
  | DoPopBack => PopBack this
  | DoInsert i x => b ← begin_ this; Emplace this (ptr_add b (Z.of_nat i)) x;; mret tt
  | DoErase i => b ← begin_ this; Erase this (ptr_add b (Z.of_nat i));; mret tt
  | DoReserve n => Reserve this n
  | DoResize n => Resize this n
  end.

Fixpoint perform_all (this : addr) (os : list operation) : M T unit :=
  match os with
  | [] => mret tt
  | o :: os' => perform this o;; perform_all this os'
  end.

(** An insertion into [n] elements with capacity [c] either fits or doubles
    a capacity whose double has a size in bytes that is a [size_t]. *)
Definition can_grow (n c : Z) : Prop := n < c ∨ 2 * c * sizeof_T < SIZE_MOD.

(** The same calls on a list with a capacity; [None] where the call is
    outside its domain: [PopBack] on an empty Sequence, a position past the
    end, a size or capacity of which the size in bytes is not a [size_t]. *)
Definition effect (o : operation) (l : list T) (c : Z) : option (list T * Z) :=
  match o with
  | DoPushBack x =>
      if decide (can_grow (Z.of_nat (length l)) c)
      then Some (l ++ [args_value x], capacity_after_emplace (Z.of_nat (length l)) c)
      else None
  | DoPopBack =>
      if decide (0 < length l)%nat then Some (take (length l - 1) l, c) else None
  | DoInsert i x =>
      if decide ((i ≤ length l)%nat ∧ can_grow (Z.of_nat (length l)) c)
      then Some (take i l ++ args_value x :: drop i l,
                 capacity_after_emplace (Z.of_nat (length l)) c)
      else None
  | DoErase i =>
      if decide (i < length l)%nat then Some (take i l ++ drop (S i) l, c) else None
  | DoReserve n =>
      if decide (0 ≤ n ∧ n * sizeof_T < SIZE_MOD) then Some (l, Z.max c n) else None
  | DoResize n =>
      if decide (0 ≤ n ∧ n * sizeof_T < SIZE_MOD)
      then Some (take (Z.to_nat n) l ++ replicate (Z.to_nat n - length l) value_init,
                 Z.max c n)
      else None
  end.

Fixpoint effects (os : list operation) (l : list T) (c : Z) : option (list T * Z) :=
  match os with
  | [] => Some (l, c)
  | o :: os' =>
      match effect o l c with
      | Some (l', c') => effects os' l' c'
      | None => None
      end
  end.

(** What a call leaves alone: the objects released alive, the stand-alone
    [RawMemory] objects, a copy constructor that does not throw, the other
    [Vector] objects. *)
Definition untouched (s s' : state T) (a : addr) : Prop :=
  leaked s' = leaked s ∧ raws s' = raws s ∧ copies_until_throw s' = None ∧
  (∀ a', a' ≠ a → vecs s' !! a' = vecs s !! a').

End Operations.

Arguments operation : clear implicits.

(** * Concrete element types and runs *)

(** Elements with integer values, of 8 bytes: one type whose move
    constructor is [noexcept], so that relocation moves, and one whose move
    constructor may throw, so that relocation copies. *)
Definition nothrow_movable : Element Z :=
  {| is_nothrow_move_constructible := true;
     is_copy_constructible := true;
     value_init := 0;
     moved_from := λ v, v;
     sizeof_T := 8;
     sizeof_T_range := conj eq_refl eq_refl |}.

#[global] Instance copy_relocated : Element Z :=
  {| is_nothrow_move_constructible := false;
     is_copy_constructible := true;
     value_init := 0;
     moved_from := λ _, -1;
     sizeof_T := 8;
     sizeof_T_range := conj eq_refl eq_refl |}.

(** A state with one Sequence at address [a], stored in block [b]. *)
Definition sequence_state (a : addr) (b : block) (c : Z) (l : list Z)
    (k : option nat) : state Z :=
  mkState {[ b := slots_of l c ]}
    {[ a := mkVector (Z.of_nat (length l)) (mkRawMemory (Ptr b 0) c) ]}
    ∅ k [] [].

(** A state with an empty Sequence at address [a]. *)
Definition empty_sequence_state (a : addr) (k : option nat) : state Z :=
  mkState ∅ {[ a := mkVector 0 RawMemory_default ]} ∅ k [] [].

(** A state with two Sequences, at addresses 1 and 2, in blocks 1 and 2. *)
Definition two_sequences_state (c1 : Z) (l1 : list Z) (c2 : Z) (l2 : list Z)
    (k : option nat) : state Z :=
  mkState {[ 1%positive := slots_of l1 c1; 2%positive := slots_of l2 c2 ]}
    {[ 1%positive := mkVector (Z.of_nat (length l1)) (mkRawMemory (Ptr 1 0) c1);
       2%positive := mkVector (Z.of_nat (length l2)) (mkRawMemory (Ptr 2 0) c2) ]}
    ∅ k [] [].

(** A state with two [RawMemory] objects, at addresses 1 and 2, owning
    blocks of 3 and of 2 slots. *)
Definition two_owners_state : state Z :=
  mkState {[ 1%positive := replicate 3 Raw; 2%positive := replicate 2 Raw ]}
    ∅
    {[ 1%positive := mkRawMemory (Ptr 1 0) 3;
       2%positive := mkRawMemory (Ptr 2 0) 2 ]}
    None [] [].

Ltac solve_bound := unfold SIZE_MOD; simpl; lia.

Ltac solve_holds :=
  unfold holds, block_at, SIZE_MOD; repeat split;
  try reflexivity; try (simpl; lia).

(** * Reasoning about runs *)

Section Runs.
Context {T : Type} `{!Element T}.
Implicit Types (s : state T) (b : block) (p : ptr) (ls pre post : list (slot T)).

Lemma run_bind {A B} (m : M T A) (f : A → M T B) s :
  (m ≫= f) s =
  match m s with
  | Ret a s' => f a s'
  | Throw s' => Throw s'
  | Fault => Fault
  end.
Proof. reflexivity. Qed.

Lemma run_ret {A} (a : A) s : (mret a : M T A) s = Ret a s.
Proof. reflexivity. Qed.

Lemma bind_Ret {A B} (m : M T A) (f : A → M T B) s a s' :
  m s = Ret a s' → (m ≫= f) s = f a s'.
Proof. intros E. rewrite run_bind, E. reflexivity. Qed.

Lemma bind_Throw {A B} (m : M T A) (f : A → M T B) s s' :
  m s = Throw s' → (m ≫= f) s = Throw s'.
Proof. intros E. rewrite run_bind, E. reflexivity. Qed.

Lemma bind_assoc {A B C} (m : M T A) (f : A → M T B) (g : B → M T C) s :
  ((m ≫= f) ≫= g) s = (m ≫= λ x, f x ≫= g) s.
Proof. rewrite !run_bind. by destruct (m s). Qed.

Lemma catch_Ret {A} (m : M T A) h s a s' :
  m s = Ret a s' → catch_rethrow m h s = Ret a s'.
Proof. intros E. unfold catch_rethrow. rewrite E. reflexivity. Qed.

Lemma catch_Throw {A} (m : M T A) h s s' s'' :
  m s = Throw s' → h s' = Ret tt s'' → catch_rethrow m h s = Throw s''.
Proof. intros E E'. unfold catch_rethrow. rewrite E, E'. reflexivity. Qed.

Lemma state_eta s :
  mkState (heap s) (vecs s) (raws s) (copies_until_throw s) (leaked s) (trace s) = s.
Proof. destruct s; reflexivity. Qed.

(** ** Slots of a block *)

Lemma slot_lookup_middle pre (x : slot T) post o :
  o = Z.of_nat (length pre) → slot_lookup (pre ++ x :: post) o = Some x.
Proof.
  intros ->. unfold slot_lookup. rewrite decide_True by lia.
  rewrite Nat2Z.id. apply list_lookup_middle. reflexivity.
Qed.

Lemma insert_middle pre (x y : slot T) post :
  <[length pre := y]> (pre ++ x :: post) = pre ++ y :: post.
Proof.
  rewrite insert_app_r_alt by lia. rewrite Nat.sub_diag. reflexivity.
Qed.

Lemma get_slot_eq s b pre x post o :
  heap s !! b = Some (pre ++ x :: post) → o = Z.of_nat (length pre) →
  get_slot (Ptr b o) s = Ret x s.
Proof.
  intros Hb Ho. unfold get_slot. rewrite Hb.
  rewrite (slot_lookup_middle _ _ _ _ Ho). reflexivity.
Qed.

Lemma set_slot_eq s b pre x y post o :
  heap s !! b = Some (pre ++ x :: post) → o = Z.of_nat (length pre) →
  set_slot (Ptr b o) y s =
  Ret tt (mkState (<[b := pre ++ y :: post]> (heap s)) (vecs s) (raws s)
            (copies_until_throw s) (leaked s) (trace s)).
Proof.
  intros Hb Ho. unfold set_slot. rewrite Hb.
  rewrite (slot_lookup_middle _ _ _ _ Ho). subst o.
  rewrite Nat2Z.id, insert_middle. reflexivity.
Qed.

Lemma read_eq s b pre v post o :
  heap s !! b = Some (pre ++ Obj v :: post) → o = Z.of_nat (length pre) →
  read (Ptr b o) s = Ret v s.
Proof.
  intros Hb Ho. unfold read.
  rewrite (bind_Ret _ _ _ _ _ (get_slot_eq _ _ _ _ _ _ Hb Ho)). reflexivity.
Qed.

Lemma place_eq s b pre v post o :
  heap s !! b = Some (pre ++ Raw :: post) → o = Z.of_nat (length pre) →
  place (Ptr b o) v s =
  Ret tt (mkState (<[b := pre ++ Obj v :: post]> (heap s)) (vecs s) (raws s)
            (copies_until_throw s) (leaked s) (trace s)).
Proof.
  intros Hb Ho. unfold place.
  rewrite (bind_Ret _ _ _ _ _ (get_slot_eq _ _ _ _ _ _ Hb Ho)).
  rewrite run_bind, run_ret.
  apply (set_slot_eq _ _ _ _ _ _ _ Hb Ho).
Qed.

Lemma overwrite_eq s b pre v w post o :
  heap s !! b = Some (pre ++ Obj v :: post) → o = Z.of_nat (length pre) →
  overwrite (Ptr b o) w s =
  Ret tt (mkState (<[b := pre ++ Obj w :: post]> (heap s)) (vecs s) (raws s)
            (copies_until_throw s) (leaked s) (trace s)).
Proof.
  intros Hb Ho. unfold overwrite.
  rewrite (bind_Ret _ _ _ _ _ (read_eq _ _ _ _ _ _ Hb Ho)).
  apply (set_slot_eq _ _ _ _ _ _ _ Hb Ho).
Qed.

Lemma destroy_at_eq s b pre v post o :
  heap s !! b = Some (pre ++ Obj v :: post) → o = Z.of_nat (length pre) →
  destroy_at (Ptr b o) s =
  Ret tt (mkState (<[b := pre ++ Raw :: post]> (heap s)) (vecs s) (raws s)
            (copies_until_throw s) (leaked s) (trace s ++ [EvDestroy (Ptr b o)])).
Proof.
  intros Hb Ho. unfold destroy_at.
  rewrite (bind_Ret _ _ _ _ _ (read_eq _ _ _ _ _ _ Hb Ho)).
  rewrite (bind_Ret _ _ _ _ _ (set_slot_eq _ _ _ _ _ _ _ Hb Ho)).
  reflexivity.
Qed.

(** ** The loops *)

Lemma destroy_loop_eq (vs : list T) : ∀ s b pre post o,
  heap s !! b = Some (pre ++ map Obj vs ++ post) → o = Z.of_nat (length pre) →
  destroy_loop (length vs) (Ptr b o) s =
  Ret tt (mkState (<[b := pre ++ replicate (length vs) Raw ++ post]> (heap s))
            (vecs s) (raws s) (copies_until_throw s) (leaked s)
            (trace s ++ events1 EvDestroy (length vs) (Ptr b o))).
Proof.
  induction vs as [|v vs IH]; intros s b pre post o Hb Ho; simpl in *.
  - rewrite run_ret, app_nil_r, insert_id by done. by rewrite state_eta.
  - rewrite (bind_Ret _ _ _ _ _ (destroy_at_eq _ _ _ _ _ _ Hb Ho)).
    rewrite (IH _ b (pre ++ [Raw]) post); simpl.
    + by rewrite insert_insert_eq, <- !app_assoc.
    + rewrite lookup_insert_eq. by rewrite <- app_assoc.
    + rewrite length_app. simpl. lia.
Qed.

Lemma copy_ctor_call_eq s :
  budget_allows (copies_until_throw s) 1 →
  copy_ctor_call s =
  Ret tt (mkState (heap s) (vecs s) (raws s)
            (budget_after (copies_until_throw s) 1) (leaked s) (trace s)).
Proof.
  unfold copy_ctor_call, budget_allows, budget_after.
  destruct (copies_until_throw s) as [[|k]|] eqn:E; intros Hk.
  - lia.
  - by rewrite Nat.sub_1_r.
  - by rewrite <- E, state_eta.
Qed.

Lemma copy_ctor_call_throw s :
  copies_until_throw s = Some O →
  copy_ctor_call s =
  Throw (mkState (heap s) (vecs s) (raws s) None (leaked s) (trace s)).
Proof. intros E. unfold copy_ctor_call. by rewrite E. Qed.

Lemma budget_allows_S k n :
  budget_allows k (S n) → budget_allows k 1 ∧ budget_allows (budget_after k 1) n.
Proof. destruct k; simpl; lia. Qed.

Lemma budget_after_S k n :
  budget_after (budget_after k 1) n = budget_after k (S n).
Proof. destruct k; simpl; [f_equal; lia | done]. Qed.

Lemma budget_after_0 k : budget_after k 0 = k.
Proof. destruct k; simpl; [f_equal; lia | done]. Qed.

Lemma copy_construct_at_eq s bs bd pre_s v post_s pre_d post_d os od :
  bs ≠ bd →
  heap s !! bs = Some (pre_s ++ Obj v :: post_s) →
  heap s !! bd = Some (pre_d ++ Raw :: post_d) →
  os = Z.of_nat (length pre_s) → od = Z.of_nat (length pre_d) →
  budget_allows (copies_until_throw s) 1 →
  copy_construct_at (Ptr bd od) (Ptr bs os) s =
  Ret tt (mkState (<[bd := pre_d ++ Obj v :: post_d]> (heap s)) (vecs s) (raws s)
            (budget_after (copies_until_throw s) 1) (leaked s)
            (trace s ++ [EvCopyConstruct (Ptr bd od) (Ptr bs os)])).
Proof.
  intros Hne Hs Hd Hos Hod Hk. unfold copy_construct_at.
  rewrite (bind_Ret _ _ _ _ _ (read_eq _ _ _ _ _ _ Hs Hos)).
  rewrite (bind_Ret _ _ _ _ _ (copy_ctor_call_eq _ Hk)).
  erewrite bind_Ret; [| by apply place_eq with (pre := pre_d) (post := post_d)].
  reflexivity.
Qed.

Lemma copy_construct_at_throw s bs pre_s v post_s os dst :
  heap s !! bs = Some (pre_s ++ Obj v :: post_s) →
  os = Z.of_nat (length pre_s) →
  copies_until_throw s = Some O →
  copy_construct_at dst (Ptr bs os) s =
  Throw (mkState (heap s) (vecs s) (raws s) None (leaked s) (trace s)).
Proof.
  intros Hs Hos Hk. unfold copy_construct_at.
  rewrite (bind_Ret _ _ _ _ _ (read_eq _ _ _ _ _ _ Hs Hos)).
  by rewrite (bind_Throw _ _ _ _ (copy_ctor_call_throw _ Hk)).
Qed.

Lemma uninitialized_copy_loop_eq (vs : list T) :
  ∀ s bs bd pre_s post_s pre_d post_d os od d_first,
  bs ≠ bd →
  heap s !! bs = Some (pre_s ++ map Obj vs ++ post_s) →
  heap s !! bd = Some (pre_d ++ replicate (length vs) Raw ++ post_d) →
  os = Z.of_nat (length pre_s) → od = Z.of_nat (length pre_d) →
  budget_allows (copies_until_throw s) (length vs) →
  uninitialized_loop copy_construct_at (length vs) (Ptr bs os) d_first (Ptr bd od) s =
  Ret tt (mkState (<[bd := pre_d ++ map Obj vs ++ post_d]> (heap s)) (vecs s) (raws s)
            (budget_after (copies_until_throw s) (length vs)) (leaked s)
            (trace s ++ events2 EvCopyConstruct (length vs) (Ptr bd od) (Ptr bs os))).
Proof.
  induction vs as [|v vs IH];
    intros s bs bd pre_s post_s pre_d post_d os od d_first Hne Hs Hd Hos Hod Hk;
    simpl in *.
  - rewrite run_ret, app_nil_r, insert_id, budget_after_0 by done.
    by rewrite state_eta.
  - apply budget_allows_S in Hk as [Hk1 Hk].
    erewrite bind_Ret;
      [| apply catch_Ret; by eapply copy_construct_at_eq].
    rewrite (IH _ bs bd (pre_s ++ [Obj v]) post_s (pre_d ++ [Obj v]) post_d);
      simpl; try done.
    + by rewrite insert_insert_eq, budget_after_S, <- !app_assoc.
    + rewrite lookup_insert_ne by done. by rewrite <- app_assoc.
    + rewrite lookup_insert_eq. by rewrite <- app_assoc.
    + rewrite length_app. simpl. lia.
    + rewrite length_app. simpl. lia.
Qed.

Lemma destroy_range_eq (vs : list T) s b pre post o o' :
  heap s !! b = Some (pre ++ map Obj vs ++ post) →
  o = Z.of_nat (length pre) → o' = Z.of_nat (length pre + length vs) →
  destroy_range (Ptr b o) (Ptr b o') s =
  Ret tt (mkState (<[b := pre ++ replicate (length vs) Raw ++ post]> (heap s))
            (vecs s) (raws s) (copies_until_throw s) (leaked s)
            (trace s ++ events1 EvDestroy (length vs) (Ptr b o))).
Proof.
  intros Hb Ho Ho'. unfold destroy_range, ptr_diff.
  rewrite decide_True by done. rewrite decide_True by lia.
  replace (Z.to_nat (o' - o)) with (length vs) by lia.
  by apply destroy_loop_eq.
Qed.

Lemma uninitialized_copy_loop_throw (vs : list T) :
  ∀ s bs bd pre_s post_s pre_d done post_d os m,
  bs ≠ bd →
  heap s !! bs = Some (pre_s ++ map Obj vs ++ post_s) →
  heap s !! bd =
    Some (pre_d ++ map Obj done ++ replicate (length vs) Raw ++ post_d) →
  os = Z.of_nat (length pre_s) →
  copies_until_throw s = Some m → (m < length vs)%nat →
  ∃ evs,
    uninitialized_loop copy_construct_at (length vs) (Ptr bs os)
      (Ptr bd (Z.of_nat (length pre_d)))
      (Ptr bd (Z.of_nat (length pre_d + length done))) s =
    Throw (mkState
             (<[bd := pre_d ++ replicate (length done + length vs) Raw ++ post_d]>
                (heap s))
             (vecs s) (raws s) None (leaked s) (trace s ++ evs)).
Proof.
  induction vs as [|v vs IH];
    intros s bs bd pre_s post_s pre_d done post_d os m Hne Hs Hd Hos Hm Hlt;
    simpl in *; [lia|].
  destruct m as [|m].
  - eexists. erewrite bind_Throw; [reflexivity|].
    eapply catch_Throw.
    + by eapply copy_construct_at_throw.
    + erewrite destroy_range_eq with (vs := done); simpl; [| done | done | lia].
      rewrite replicate_add, <- app_assoc. reflexivity.
  - rewrite app_assoc in Hd.
    destruct (IH (mkState
        (<[bd := (pre_d ++ map Obj done) ++ Obj v :: replicate (length vs) Raw ++ post_d]>
           (heap s))
        (vecs s) (raws s) (Some m) (leaked s)
        (trace s ++ [EvCopyConstruct (Ptr bd (Z.of_nat (length pre_d + length done)))
                       (Ptr bs os)]))
      bs bd (pre_s ++ [Obj v]) post_s pre_d (done ++ [v]) post_d (os + 1) m)
      as [evs Hevs]; simpl; try done.
    + rewrite lookup_insert_ne by done. by rewrite <- app_assoc.
    + rewrite lookup_insert_eq, map_app, <- !app_assoc. reflexivity.
    + rewrite length_app. simpl. lia.
    + lia.
    + eexists. erewrite bind_Ret.
      2:{ apply catch_Ret. eapply copy_construct_at_eq; try done.
          - rewrite length_app, length_map. lia.
          - rewrite Hm. simpl. lia. }
      rewrite Hm. simpl. rewrite Nat.sub_0_r.
      replace (Z.of_nat (length pre_d + length done) + 1)
        with (Z.of_nat (length pre_d + length (done ++ [v])))
        by (rewrite length_app; simpl; lia).
      simpl in Hevs. rewrite Hevs. rewrite insert_insert_eq, <- app_assoc.
      rewrite length_app. simpl.
      replace (length done + 1 + length vs)%nat with (length done + S (length vs))%nat by lia.
      reflexivity.
Qed.

Lemma cons_snoc {A} (pre : list A) a rest : pre ++ a :: rest = (pre ++ [a]) ++ rest.
Proof. by rewrite <- app_assoc. Qed.

Lemma insert2_collapse {V} (h : gmap block V) bs bd x x' y y' :
  bs ≠ bd →
  <[bd := x']> (<[bs := y']> (<[bd := x]> (<[bs := y]> h))) =
  <[bd := x']> (<[bs := y']> h).
Proof.
  intros Hne. apply map_eq; intros i.
  destruct (decide (i = bd)), (decide (i = bs)); by simplify_map_eq.
Qed.

Lemma move_construct_at_eq s bs bd pre_s v post_s pre_d post_d os od :
  bs ≠ bd →
  heap s !! bs = Some (pre_s ++ Obj v :: post_s) →
  heap s !! bd = Some (pre_d ++ Raw :: post_d) →
  os = Z.of_nat (length pre_s) → od = Z.of_nat (length pre_d) →
  move_construct_at (Ptr bd od) (Ptr bs os) s =
  Ret tt (mkState
            (<[bd := pre_d ++ Obj v :: post_d]>
               (<[bs := pre_s ++ Obj (moved_from v) :: post_s]> (heap s)))
            (vecs s) (raws s) (copies_until_throw s) (leaked s)
            (trace s ++ [EvMoveConstruct (Ptr bd od) (Ptr bs os)])).
Proof.
  intros Hne Hs Hd Hos Hod. unfold move_construct_at.
  rewrite (bind_Ret _ _ _ _ _ (read_eq _ _ _ _ _ _ Hs Hos)).
  erewrite bind_Ret; [| by apply place_eq with (pre := pre_d) (post := post_d)].
  erewrite bind_Ret.
  2:{ apply set_slot_eq with (pre := pre_s) (x := Obj v) (post := post_s); [|done].
      simpl. by rewrite lookup_insert_ne. }
  simpl. by rewrite (insert_insert_ne _ bs bd).
Qed.

Lemma uninitialized_move_loop_eq (vs : list T) :
  ∀ s bs bd pre_s post_s pre_d post_d os od d_first,
  bs ≠ bd →
  heap s !! bs = Some (pre_s ++ map Obj vs ++ post_s) →
  heap s !! bd = Some (pre_d ++ replicate (length vs) Raw ++ post_d) →
  os = Z.of_nat (length pre_s) → od = Z.of_nat (length pre_d) →
  uninitialized_loop move_construct_at (length vs) (Ptr bs os) d_first (Ptr bd od) s =
  Ret tt (mkState
            (<[bd := pre_d ++ map Obj vs ++ post_d]>
               (<[bs := pre_s ++ map Obj (map moved_from vs) ++ post_s]> (heap s)))
            (vecs s) (raws s) (copies_until_throw s) (leaked s)
            (trace s ++ events2 EvMoveConstruct (length vs) (Ptr bd od) (Ptr bs os))).
Proof.
  induction vs as [|v vs IH];
    intros s bs bd pre_s post_s pre_d post_d os od d_first Hne Hs Hd Hos Hod;
    simpl in *.
  - rewrite run_ret, app_nil_r, !insert_id; try done.
    + by rewrite state_eta.
    + by rewrite insert_id.
  - erewrite bind_Ret;
      [| apply catch_Ret; by eapply move_construct_at_eq].
    rewrite (IH _ bs bd (pre_s ++ [Obj (moved_from v)]) post_s (pre_d ++ [Obj v]) post_d);
      simpl; try done.
    + by rewrite insert2_collapse, <- !app_assoc.
    + rewrite lookup_insert_ne, lookup_insert_eq by done. by rewrite <- app_assoc.
    + rewrite lookup_insert_eq. by rewrite <- app_assoc.
    + rewrite length_app. simpl. lia.
    + rewrite length_app. simpl. lia.
Qed.

Lemma value_construct_at_eq s b pre post o :
  heap s !! b = Some (pre ++ Raw :: post) → o = Z.of_nat (length pre) →
  value_construct_at (Ptr b o) s =
  Ret tt (mkState (<[b := pre ++ Obj value_init :: post]> (heap s)) (vecs s) (raws s)
            (copies_until_throw s) (leaked s)
            (trace s ++ [EvValueConstruct (Ptr b o)])).
Proof.
  intros Hb Ho. unfold value_construct_at.
  by rewrite (bind_Ret _ _ _ _ _ (place_eq _ _ _ _ _ _ Hb Ho)).
Qed.

Lemma uninitialized_value_loop_eq (n : nat) :
  ∀ s b pre post o first d_first,
  heap s !! b = Some (pre ++ replicate n Raw ++ post) → o = Z.of_nat (length pre) →
  uninitialized_loop (λ cur _, value_construct_at cur) n first d_first (Ptr b o) s =
  Ret tt (mkState (<[b := pre ++ replicate n (Obj value_init) ++ post]> (heap s))
            (vecs s) (raws s) (copies_until_throw s) (leaked s)
            (trace s ++ events1 EvValueConstruct n (Ptr b o))).
Proof.
  induction n as [|n IH]; intros s b pre post o first d_first Hb Ho; simpl in *.
  - rewrite run_ret, app_nil_r, insert_id by done. by rewrite state_eta.
  - erewrite bind_Ret; [| apply catch_Ret; by eapply value_construct_at_eq].
    rewrite (IH _ b (pre ++ [Obj value_init]) post); simpl.
    + by rewrite insert_insert_eq, <- !app_assoc.
    + rewrite lookup_insert_eq. by rewrite <- app_assoc.
    + rewrite length_app. simpl. lia.
Qed.

Lemma move_construct_within_eq s b pre v post os od :
  heap s !! b = Some (pre ++ Obj v :: Raw :: post) →
  os = Z.of_nat (length pre) → od = os + 1 →
  move_construct_at (Ptr b od) (Ptr b os) s =
  Ret tt (mkState (<[b := pre ++ Obj (moved_from v) :: Obj v :: post]> (heap s))
            (vecs s) (raws s) (copies_until_throw s) (leaked s)
            (trace s ++ [EvMoveConstruct (Ptr b od) (Ptr b os)])).
Proof.
  intros Hb Hos Hod. unfold move_construct_at.
  rewrite (bind_Ret _ _ _ _ _ (read_eq _ _ _ _ _ _ Hb Hos)).
  erewrite bind_Ret.
  2:{ apply place_eq with (pre := pre ++ [Obj v]) (post := post).
      - by rewrite <- app_assoc.
      - rewrite length_app. simpl. lia. }
  erewrite bind_Ret.
  2:{ apply set_slot_eq with (pre := pre) (x := Obj v) (post := Obj v :: post); [|done].
      simpl. by rewrite lookup_insert_eq, <- app_assoc. }
  simpl. by rewrite insert_insert_eq.
Qed.

(** Move assignment to the slot just before the source. *)
Lemma move_assign_left_eq s b pre x v post os od :
  heap s !! b = Some (pre ++ Obj x :: Obj v :: post) →
  od = Z.of_nat (length pre) → os = od + 1 →
  move_assign (Ptr b od) (Ptr b os) s =
  Ret tt (mkState (<[b := pre ++ Obj v :: Obj (moved_from v) :: post]> (heap s))
            (vecs s) (raws s) (copies_until_throw s) (leaked s)
            (trace s ++ [EvMoveAssign (Ptr b od) (Ptr b os)])).
Proof.
  intros Hb Hod Hos. unfold move_assign.
  erewrite bind_Ret.
  2:{ apply read_eq with (pre := pre ++ [Obj x]) (v := v) (post := post).
      - by rewrite <- app_assoc.
      - rewrite length_app. simpl. lia. }
  erewrite bind_Ret; [| by eapply overwrite_eq].
  erewrite bind_Ret.
  2:{ apply set_slot_eq with (pre := pre ++ [Obj v]) (x := Obj v) (post := post).
      - simpl. by rewrite lookup_insert_eq, <- app_assoc.
      - rewrite length_app. simpl. lia. }
  simpl. by rewrite insert_insert_eq, <- app_assoc.
Qed.

(** Move assignment to the slot just after the source. *)
Lemma move_assign_right_eq s b pre v y post os od :
  heap s !! b = Some (pre ++ Obj v :: Obj y :: post) →
  os = Z.of_nat (length pre) → od = os + 1 →
  move_assign (Ptr b od) (Ptr b os) s =
  Ret tt (mkState (<[b := pre ++ Obj (moved_from v) :: Obj v :: post]> (heap s))
            (vecs s) (raws s) (copies_until_throw s) (leaked s)
            (trace s ++ [EvMoveAssign (Ptr b od) (Ptr b os)])).
Proof.
  intros Hb Hos Hod. unfold move_assign.
  rewrite (bind_Ret _ _ _ _ _ (read_eq _ _ _ _ _ _ Hb Hos)).
  erewrite bind_Ret.
  2:{ apply overwrite_eq with (pre := pre ++ [Obj v]) (v := y) (post := post).
      - by rewrite <- app_assoc.
      - rewrite length_app. simpl. lia. }
  erewrite bind_Ret.
  2:{ apply set_slot_eq with (pre := pre) (x := Obj v) (post := Obj v :: post); [|done].
      simpl. by rewrite lookup_insert_eq, <- app_assoc. }
  simpl. by rewrite insert_insert_eq.
Qed.

Lemma move_loop_eq (vs : list T) : ∀ s b pre x post od os,
  heap s !! b = Some (pre ++ Obj x :: map Obj vs ++ post) →
  od = Z.of_nat (length pre) → os = od + 1 →
  move_loop (length vs) (Ptr b os) (Ptr b od) s =
  Ret tt (mkState
            (<[b := pre ++ map Obj vs ++ Obj (shift_residue x vs) :: post]> (heap s))
            (vecs s) (raws s) (copies_until_throw s) (leaked s)
            (trace s ++ events2 EvMoveAssign (length vs) (Ptr b od) (Ptr b os))).
Proof.
  induction vs as [|v vs IH]; intros s b pre x post od os Hb Hod Hos; simpl in *.
  - rewrite run_ret, app_nil_r, insert_id by done. by rewrite state_eta.
  - erewrite bind_Ret; [| by eapply move_assign_left_eq].
    rewrite (IH _ b (pre ++ [Obj v]) (moved_from v) post (od + 1) (os + 1)); simpl.
    + by rewrite insert_insert_eq, <- !app_assoc.
    + rewrite lookup_insert_eq. by rewrite <- app_assoc.
    + rewrite length_app. simpl. lia.
    + lia.
Qed.

Lemma back_residue_snoc (y v : T) vs :
  back_residue y (vs ++ [v]) = back_residue (moved_from v) vs.
Proof. by destruct vs. Qed.

Lemma move_backward_loop_eq (vs : list T) : ∀ s b pre y post ol odl,
  heap s !! b = Some (pre ++ map Obj vs ++ Obj y :: post) →
  ol = Z.of_nat (length pre + length vs) → odl = ol + 1 →
  move_backward_loop (length vs) (Ptr b ol) (Ptr b odl) s =
  Ret tt (mkState
            (<[b := pre ++ Obj (back_residue y vs) :: map Obj vs ++ post]> (heap s))
            (vecs s) (raws s) (copies_until_throw s) (leaked s)
            (trace s ++ events2_backward EvMoveAssign (length vs) (Ptr b odl) (Ptr b ol))).
Proof.
  induction vs as [|v vs IH] using rev_ind; intros s b pre y post ol odl Hb Hol Hodl.
  - simpl in *. rewrite run_ret, app_nil_r, insert_id by done. by rewrite state_eta.
  - rewrite length_app, Nat.add_1_r in *. simpl.
    rewrite map_app in Hb. simpl in Hb. rewrite <- app_assoc in Hb. simpl in Hb.
    rewrite app_assoc in Hb.
    erewrite bind_Ret.
    2:{ eapply move_assign_right_eq; [exact Hb | |].
        - rewrite length_app, length_map. lia.
        - lia. }
    rewrite (IH _ b pre (moved_from v) (Obj v :: post) (ol + -1) (odl + -1)); simpl.
    + rewrite insert_insert_eq, back_residue_snoc, map_app, <- !app_assoc.
      reflexivity.
    + rewrite lookup_insert_eq. by rewrite <- app_assoc.
    + lia.
    + lia.
Qed.

Lemma copy_assign_eq s bs bd pre_s v post_s pre_d w post_d os od :
  bs ≠ bd →
  heap s !! bs = Some (pre_s ++ Obj v :: post_s) →
  heap s !! bd = Some (pre_d ++ Obj w :: post_d) →
  os = Z.of_nat (length pre_s) → od = Z.of_nat (length pre_d) →
  copy_assign (Ptr bd od) (Ptr bs os) s =
  Ret tt (mkState (<[bd := pre_d ++ Obj v :: post_d]> (heap s)) (vecs s) (raws s)
            (copies_until_throw s) (leaked s)
            (trace s ++ [EvCopyAssign (Ptr bd od) (Ptr bs os)])).
Proof.
  intros Hne Hs Hd Hos Hod. unfold copy_assign.
  rewrite (bind_Ret _ _ _ _ _ (read_eq _ _ _ _ _ _ Hs Hos)).
  erewrite bind_Ret; [| by eapply overwrite_eq].
  reflexivity.
Qed.

Lemma RawMemory_at_eq (r : RawMemory) i s :
  i < capacity_ r → RawMemory_at r i s = Ret (ptr_add (buffer_ r) i) s.
Proof.
  intros Hi. unfold RawMemory_at, assert. by rewrite bool_decide_eq_true_2.
Qed.

Lemma RawMemory_plus_eq (r : RawMemory) i s :
  i ≤ capacity_ r → RawMemory_plus r i s = Ret (ptr_add (buffer_ r) i) s.
Proof.
  intros Hi. unfold RawMemory_plus, assert. by rewrite bool_decide_eq_true_2.
Qed.

Lemma assign_loop_eq (vs : list T) : ∀ (ws : list T) s bs bd cs cd pre_s post_s pre_d post_d i,
  length ws = length vs →
  bs ≠ bd →
  heap s !! bs = Some (pre_s ++ map Obj vs ++ post_s) →
  heap s !! bd = Some (pre_d ++ map Obj ws ++ post_d) →
  i = Z.of_nat (length pre_s) → i = Z.of_nat (length pre_d) →
  i + Z.of_nat (length vs) ≤ cs → i + Z.of_nat (length vs) ≤ cd →
  assign_loop (length vs) (mkRawMemory (Ptr bd 0) cd) (mkRawMemory (Ptr bs 0) cs) i s =
  Ret (i + Z.of_nat (length vs))
    (mkState (<[bd := pre_d ++ map Obj vs ++ post_d]> (heap s)) (vecs s) (raws s)
       (copies_until_throw s) (leaked s)
       (trace s ++ events2 EvCopyAssign (length vs) (Ptr bd (0 + i)) (Ptr bs (0 + i)))).
Proof.
  induction vs as [|v vs IH];
    intros [|w ws] s bs bd cs cd pre_s post_s pre_d post_d i Hlen Hne Hs Hd His Hid Hcs Hcd;
    simpl in *; try done.
  - rewrite run_ret, app_nil_r, insert_id, Z.add_0_r by done. by rewrite state_eta.
  - erewrite bind_Ret; [| apply RawMemory_at_eq; simpl; lia].
    erewrite bind_Ret; [| apply RawMemory_at_eq; simpl; lia].
    simpl.
    erewrite bind_Ret; [| eapply copy_assign_eq; [done | exact Hs | exact Hd | lia | lia]].
    rewrite (IH ws _ bs bd cs cd (pre_s ++ [Obj v]) post_s (pre_d ++ [Obj v]) post_d);
      simpl; try done; try lia.
    + rewrite insert_insert_eq, <- !app_assoc. simpl.
      replace (i + 1 + Z.of_nat (length vs)) with (i + Z.of_nat (S (length vs))) by lia.
      replace (0 + i + 1) with (0 + (i + 1)) by lia.
      reflexivity.
    + rewrite lookup_insert_ne by done. by rewrite <- app_assoc.
    + rewrite lookup_insert_eq. by rewrite <- app_assoc.
    + rewrite length_app. simpl. lia.
    + rewrite length_app. simpl. lia.
Qed.

Lemma construct_value_eq (a : ctor_args T) s :
  budget_allows (copies_until_throw s) (args_copies a) →
  construct_value a s =
  Ret (args_value a)
    (mkState (heap s) (vecs s) (raws s)
       (budget_after (copies_until_throw s) (args_copies a)) (leaked s) (trace s)).
Proof.
  intros Hk. destruct a; unfold construct_value; simpl in *.
  - by rewrite (bind_Ret _ _ _ _ _ (copy_ctor_call_eq _ Hk)).
  - by rewrite run_ret, budget_after_0, state_eta.
  - by rewrite run_ret, budget_after_0, state_eta.
Qed.

Lemma construct_at_eq (a : ctor_args T) s b pre post o :
  heap s !! b = Some (pre ++ Raw :: post) → o = Z.of_nat (length pre) →
  budget_allows (copies_until_throw s) (args_copies a) →
  construct_at (Ptr b o) a s =
  Ret tt (mkState (<[b := pre ++ Obj (args_value a) :: post]> (heap s)) (vecs s) (raws s)
            (budget_after (copies_until_throw s) (args_copies a)) (leaked s)
            (trace s ++ [EvConstruct (Ptr b o)])).
Proof.
  intros Hb Ho Hk. unfold construct_at.
  rewrite (bind_Ret _ _ _ _ _ (construct_value_eq _ _ Hk)).
  erewrite bind_Ret; [| by eapply place_eq].
  reflexivity.
Qed.

Lemma move_assign_tmp_eq s b pre w v post o :
  heap s !! b = Some (pre ++ Obj w :: post) → o = Z.of_nat (length pre) →
  move_assign_tmp (Ptr b o) v s =
  Ret tt (mkState (<[b := pre ++ Obj v :: post]> (heap s)) (vecs s) (raws s)
            (copies_until_throw s) (leaked s)
            (trace s ++ [EvMoveAssignTmp (Ptr b o)])).
Proof.
  intros Hb Ho. unfold move_assign_tmp.
  by rewrite (bind_Ret _ _ _ _ _ (overwrite_eq _ _ _ _ _ _ _ Hb Ho)).
Qed.

(** ** The allocator *)

Lemma fresh_block_None (h : gmap block (list (slot T))) : h !! fresh (dom h) = None.
Proof. apply not_elem_of_dom, is_fresh. Qed.

Lemma sizeof_T_pos : 0 < sizeof_T.
Proof. apply sizeof_T_range. Qed.

(** Without a wrap-around the bytes requested hold exactly [n] elements. *)
Lemma allocated_slots n :
  0 ≤ n → n * sizeof_T < SIZE_MOD → size_t (n * sizeof_T) / sizeof_T = n.
Proof.
  intros Hn Hfit. pose proof sizeof_T_pos as Hs. unfold size_t.
  rewrite Z.mod_small by nia. apply Z.div_mul. lia.
Qed.

Lemma fits_lt n : 0 ≤ n → n * sizeof_T < SIZE_MOD → n < SIZE_MOD.
Proof. intros Hn Hfit. pose proof sizeof_T_pos as Hs. nia. Qed.

Lemma fits_le n m : 0 ≤ n ≤ m → m * sizeof_T < SIZE_MOD → n * sizeof_T < SIZE_MOD.
Proof. intros Hn Hfit. pose proof sizeof_T_pos as Hs. nia. Qed.

Lemma fits_1 : 1 * sizeof_T < SIZE_MOD.
Proof. pose proof sizeof_T_range. lia. Qed.

Lemma fits_growth c :
  0 ≤ c → 2 * c * sizeof_T < SIZE_MOD → Z.max 1 (2 * c) * sizeof_T < SIZE_MOD.
Proof.
  intros Hc Hfit. pose proof fits_1.
  destruct (Z.max_spec 1 (2 * c)) as [[_ ->]|[_ ->]]; done.
Qed.

Lemma Allocate_eq n s :
  0 < n → n * sizeof_T < SIZE_MOD →
  Allocate n s =
  Ret (Ptr (fresh (dom (heap s))) 0)
    (mkState (<[fresh (dom (heap s)) := replicate (Z.to_nat n) Raw]> (heap s))
       (vecs s) (raws s) (copies_until_throw s) (leaked s)
       (trace s ++ [EvAllocate (fresh (dom (heap s))) n])).
Proof.
  intros Hn Hfit. unfold Allocate. rewrite decide_True by lia.
  by rewrite allocated_slots by lia.
Qed.

Lemma live_values_replicate n : live_values (replicate n (Raw (T:=T))) = [].
Proof. induction n; by simpl. Qed.

Lemma live_values_slots (l : list T) n :
  live_values (map Obj l ++ replicate n Raw) = l.
Proof.
  induction l as [|v l IH]; simpl.
  - apply live_values_replicate.
  - unfold live_values in *. simpl. by rewrite IH.
Qed.

Lemma Deallocate_eq s b ls :
  heap s !! b = Some ls →
  Deallocate (Ptr b 0) s =
  Ret tt (mkState (delete b (heap s)) (vecs s) (raws s) (copies_until_throw s)
            (leaked s ++ live_values ls) (trace s ++ [EvDeallocate b])).
Proof.
  intros Hb. unfold Deallocate. rewrite decide_True by done.
  unfold free_block. rewrite run_bind, Hb. reflexivity.
Qed.

(** ** Members of a [Vector] *)

Lemma get_vec_eq s a v : vecs s !! a = Some v → get_vec a s = Ret v s.
Proof. intros E. unfold get_vec. by rewrite E. Qed.

Lemma set_size__eq s a v n :
  vecs s !! a = Some v →
  set_size_ a n s =
  Ret tt (mkState (heap s) (<[a := mkVector n (data_ v)]> (vecs s)) (raws s)
            (copies_until_throw s) (leaked s) (trace s)).
Proof. intros E. unfold set_size_. by rewrite (bind_Ret _ _ _ _ _ (get_vec_eq _ _ _ E)). Qed.

Lemma set_data__eq s a v d :
  vecs s !! a = Some v →
  set_data_ a d s =
  Ret tt (mkState (heap s) (<[a := mkVector (size_ v) d]> (vecs s)) (raws s)
            (copies_until_throw s) (leaked s) (trace s)).
Proof. intros E. unfold set_data_. by rewrite (bind_Ret _ _ _ _ _ (get_vec_eq _ _ _ E)). Qed.

Lemma Capacity_eq s a v : vecs s !! a = Some v → Capacity a s = Ret (capacity_ (data_ v)) s.
Proof. intros E. unfold Capacity. by rewrite (bind_Ret _ _ _ _ _ (get_vec_eq _ _ _ E)). Qed.

Lemma begin__eq s a v : vecs s !! a = Some v → begin_ a s = Ret (buffer_ (data_ v)) s.
Proof. intros E. unfold begin_. by rewrite (bind_Ret _ _ _ _ _ (get_vec_eq _ _ _ E)). Qed.

Lemma end__eq s a v :
  vecs s !! a = Some v → end_ a s = Ret (ptr_add (buffer_ (data_ v)) (size_ v)) s.
Proof. intros E. unfold end_. by rewrite (bind_Ret _ _ _ _ _ (get_vec_eq _ _ _ E)). Qed.

Lemma RawMemory_new_eq n s :
  0 < n → n * sizeof_T < SIZE_MOD →
  RawMemory_new n s =
  Ret (mkRawMemory (Ptr (fresh (dom (heap s))) 0) n)
    (mkState (<[fresh (dom (heap s)) := replicate (Z.to_nat n) Raw]> (heap s))
       (vecs s) (raws s) (copies_until_throw s) (leaked s)
       (trace s ++ [EvAllocate (fresh (dom (heap s))) n])).
Proof.
  intros Hn Hfit. unfold RawMemory_new.
  by rewrite (bind_Ret _ _ _ _ _ (Allocate_eq _ _ Hn Hfit)).
Qed.

(** Whatever the number of bytes that the product comes to. *)
Lemma RawMemory_new_any n s :
  n ≠ 0 →
  RawMemory_new n s =
  Ret (mkRawMemory (Ptr (fresh (dom (heap s))) 0) n)
    (mkState
       (<[fresh (dom (heap s)) :=
            replicate (Z.to_nat (size_t (n * sizeof_T) / sizeof_T)) Raw]> (heap s))
       (vecs s) (raws s) (copies_until_throw s) (leaked s)
       (trace s ++ [EvAllocate (fresh (dom (heap s))) n])).
Proof.
  intros Hn. unfold RawMemory_new, Allocate. by rewrite decide_True.
Qed.

Lemma RawMemory_new_0 s : RawMemory_new 0 s = Ret (mkRawMemory nullptr 0) s.
Proof. reflexivity. Qed.

(** ** Relocation *)

Lemma relocate_eq (vs : list T) s bs bd pre_s post_s pre_d post_d os od n :
  bs ≠ bd →
  heap s !! bs = Some (pre_s ++ map Obj vs ++ post_s) →
  heap s !! bd = Some (pre_d ++ replicate (length vs) Raw ++ post_d) →
  os = Z.of_nat (length pre_s) → od = Z.of_nat (length pre_d) →
  n = Z.of_nat (length vs) →
  budget_allows (copies_until_throw s) (relocation_copies (length vs)) →
  (if is_nothrow_move_constructible || negb is_copy_constructible
   then uninitialized_move_n (Ptr bs os) n (Ptr bd od)
   else uninitialized_copy_n (Ptr bs os) n (Ptr bd od)) s =
  Ret tt (mkState
            (<[bd := pre_d ++ map Obj vs ++ post_d]>
               (<[bs := pre_s ++ map Obj (left_behind vs) ++ post_s]> (heap s)))
            (vecs s) (raws s)
            (budget_after (copies_until_throw s) (relocation_copies (length vs)))
            (leaked s)
            (trace s ++ events2 relocation_event (length vs) (Ptr bd od) (Ptr bs os))).
Proof.
  intros Hne Hs Hd Hos Hod -> Hk.
  unfold relocation_copies, left_behind, relocation_event in *.
  destruct (is_nothrow_move_constructible || negb is_copy_constructible).
  - unfold uninitialized_move_n. rewrite Nat2Z.id, budget_after_0.
    by apply uninitialized_move_loop_eq.
  - unfold uninitialized_copy_n. rewrite Nat2Z.id.
    rewrite (insert_id _ bs) by done.
    by eapply uninitialized_copy_loop_eq.
Qed.

Lemma relocate_nothing p q s :
  (if is_nothrow_move_constructible || negb is_copy_constructible
   then uninitialized_move_n p 0 q
   else uninitialized_copy_n p 0 q) s = Ret tt s.
Proof. by destruct (is_nothrow_move_constructible || negb is_copy_constructible). Qed.

Lemma relocation_copies_0 : relocation_copies 0 = O.
Proof. unfold relocation_copies. by destruct (_ || _). Qed.

Lemma slots_of_nil_inv (l : list T) c : 0 ≤ c → slots_of l c = [] → l = [] ∧ c = 0.
Proof.
  unfold slots_of. intros Hc Hl. apply app_eq_nil in Hl as [Hl Hr].
  destruct l; [|done]. split; [done|].
  simpl in Hr. destruct (Z.to_nat c - 0)%nat eqn:E; [lia | done].
Qed.

Lemma live_values_raws n m :
  live_values (replicate n (Raw (T:=T)) ++ replicate m Raw) = [].
Proof. rewrite <- replicate_add. apply live_values_replicate. Qed.

Lemma replicate_split {A} (x : A) (n m : nat) :
  (m ≤ n)%nat → replicate n x = replicate m x ++ replicate (n - m) x.
Proof. intros H. rewrite <- replicate_add. f_equal. lia. Qed.

(** ** [Reserve] *)

Lemma Reserve_grow_eq s a p c l n :
  holds s a p c l → c < n ∧ n * sizeof_T < SIZE_MOD →
  budget_allows (copies_until_throw s) (relocation_copies (length l)) →
  Reserve a n s =
  Ret tt (mkState
            (<[fresh (dom (heap s)) := slots_of l n]> (release p (heap s)))
            (<[a := mkVector (Z.of_nat (length l))
                      (mkRawMemory (Ptr (fresh (dom (heap s))) 0) n)]> (vecs s))
            (raws s)
            (budget_after (copies_until_throw s) (relocation_copies (length l)))
            (leaked s)
            (trace s ++
             EvAllocate (fresh (dom (heap s))) n
             :: events2 relocation_event (length l) (Ptr (fresh (dom (heap s))) 0) p
             ++ events1 EvDestroy (length l) p ++ release_events p)).
Proof.
  intros (Hv & Hc & Hb) Hn Hk. unfold Reserve.
  rewrite (bind_Ret _ _ _ _ _ (Capacity_eq _ _ _ Hv)). simpl.
  rewrite decide_False by lia.
  assert (0 < n) as Hn0 by lia.
  rewrite (bind_Ret _ _ _ _ _ (RawMemory_new_eq _ _ Hn0 (proj2 Hn))).
  pose proof (fresh_block_None (heap s)) as Hfresh.
  set (b' := fresh (dom (heap s))) in *.
  unfold FillTmpData.
  destruct p as [|b o]; simpl in Hb.
  - apply slots_of_nil_inv in Hb as [-> ->]; [|lia]. simpl in *.
    erewrite bind_Ret.
    2:{ apply catch_Ret. erewrite bind_Ret; [| by apply get_vec_eq].
        simpl. apply relocate_nothing. }
    erewrite bind_Ret; [| by apply get_vec_eq]. simpl.
    erewrite bind_Ret; [| by apply set_data__eq]. simpl.
    erewrite bind_Ret; [| apply get_vec_eq; simpl; by rewrite lookup_insert_eq]. simpl.
    unfold destroy_n. simpl. rewrite run_bind, run_ret.
    unfold RawMemory_delete, Deallocate. simpl.
    rewrite relocation_copies_0, budget_after_0.
    unfold slots_of. simpl. by rewrite Nat.sub_0_r.
  - destruct Hb as [-> Hb].
    assert (b ≠ b') as Hne by (intros ->; congruence).
    erewrite bind_Ret.
    2:{ apply catch_Ret. erewrite bind_Ret; [| by apply get_vec_eq].
        simpl.
        apply relocate_eq with (vs := l) (pre_s := []) (pre_d := [])
          (post_s := replicate (Z.to_nat c - length l) Raw)
          (post_d := replicate (Z.to_nat n - length l) Raw); simpl; try done.
        - by rewrite lookup_insert_ne.
        - rewrite lookup_insert_eq. f_equal. apply replicate_split. lia. }
    simpl.
    erewrite bind_Ret; [| by apply get_vec_eq]. simpl.
    erewrite bind_Ret; [| by apply set_data__eq]. simpl.
    erewrite bind_Ret; [| apply get_vec_eq; simpl; by rewrite lookup_insert_eq]. simpl.
    unfold destroy_n. rewrite Nat2Z.id.
    assert (length (left_behind l) = length l) as Hlb.
    { unfold left_behind. destruct (_ || _); [apply length_map | done]. }
    pose proof (destroy_loop_eq (left_behind l)) as HD. rewrite Hlb in HD.
    erewrite bind_Ret.
    2:{ apply HD with (pre := []) (post := replicate (Z.to_nat c - length l) Raw); [|done].
        simpl. rewrite lookup_insert_ne by done. by rewrite lookup_insert_eq. }
    simpl. unfold RawMemory_delete. simpl.
    erewrite Deallocate_eq; [| simpl; by rewrite lookup_insert_eq].
    simpl. rewrite live_values_raws, app_nil_r.
    f_equal. f_equal.
    + apply map_eq; intros i.
      destruct (decide (i = b)), (decide (i = b')); by simplify_map_eq.
    + rewrite <- !app_assoc. reflexivity.
Qed.

Lemma SIZE_MOD_gt_1 : 1 < SIZE_MOD.
Proof. done. Qed.

Lemma size_t_small z : 0 ≤ z < SIZE_MOD → size_t z = z.
Proof. intros Hz. unfold size_t. by apply Z.mod_small. Qed.

Lemma slots_of_app (l1 l2 : list T) c :
  slots_of (l1 ++ l2) c =
  map Obj l1 ++ map Obj l2 ++ replicate (Z.to_nat c - length (l1 ++ l2)) Raw.
Proof. unfold slots_of. by rewrite map_app, <- app_assoc. Qed.

(** ** [Erase] *)

Lemma Erase_eq s a b c (l1 l2 : list T) x o :
  holds s a (Ptr b 0) c (l1 ++ x :: l2) → o = Z.of_nat (length l1) →
  Erase a (Ptr b o) s =
  Ret (Ptr b o)
    (mkState (<[b := slots_of (l1 ++ l2) c]> (heap s))
       (<[a := mkVector (Z.of_nat (length (l1 ++ l2))) (mkRawMemory (Ptr b 0) c)]> (vecs s))
       (raws s) (copies_until_throw s) (leaked s)
       (trace s ++
        events2 EvMoveAssign (length l2) (Ptr b o) (Ptr b (o + 1)) ++
        [EvDestroy (Ptr b (0 + Z.of_nat (length (l1 ++ x :: l2)) + -1))])).
Proof.
  intros (Hv & Hc & _ & Hb) Ho. unfold Erase.
  rewrite slots_of_app in Hb. simpl in Hb.
  rewrite length_app in Hc. simpl in Hc.
  erewrite bind_Ret; [| by apply end__eq]. simpl.
  unfold std_move. simpl. rewrite decide_True by done.
  rewrite decide_True by (rewrite length_app; simpl; lia).
  replace (Z.to_nat (0 + Z.of_nat (length (l1 ++ x :: l2)) - (o + 1)))
    with (length l2) by (rewrite length_app; simpl; lia).
  erewrite bind_Ret.
  2:{ eapply move_loop_eq with (pre := map Obj l1); [exact Hb | |].
      - rewrite length_map. lia.
      - lia. }
  simpl.
  erewrite bind_Ret; [| by apply end__eq]. simpl.
  erewrite bind_Ret.
  2:{ eapply destroy_at_eq with (pre := map Obj l1 ++ map Obj l2).
      - simpl. rewrite lookup_insert_eq. by rewrite <- app_assoc.
      - rewrite !length_app, !length_map. simpl. lia. }
  simpl.
  erewrite bind_Ret; [| by apply get_vec_eq]. simpl.
  erewrite bind_Ret; [| by apply set_size__eq]. simpl.
  rewrite run_ret. f_equal. f_equal.
  - rewrite insert_insert_eq. f_equal.
    rewrite slots_of_app, <- app_assoc. do 2 f_equal.
    rewrite !length_app. simpl.
    replace (Z.to_nat c - (length l1 + length l2))%nat
      with (S (Z.to_nat c - (length l1 + S (length l2))))%nat by lia.
    reflexivity.
  - f_equal. f_equal. rewrite size_t_small; rewrite !length_app; simpl; lia.
  - by rewrite <- app_assoc.
Qed.

(** ** [Resize] *)

Lemma destroy_n_0 p s : destroy_n p 0 s = Ret tt s.
Proof. reflexivity. Qed.

Lemma app_nil_inv {A} (l1 l2 : list A) : l1 ++ l2 = [] → l1 = [] ∧ l2 = [].
Proof. by destruct l1, l2. Qed.

Lemma Resize_shrink_eq s a p c (l1 l2 : list T) n :
  holds s a p c (l1 ++ l2) → n = Z.of_nat (length l1) →
  Resize a n s =
  Ret tt (mkState (store p (slots_of l1 c) (heap s))
            (<[a := mkVector n (mkRawMemory p c)]> (vecs s))
            (raws s) (copies_until_throw s) (leaked s)
            (trace s ++ events1 EvDestroy (length l2) (ptr_add p n))).
Proof.
  intros (Hv & Hc & Hb) Hn. unfold Resize.
  rewrite length_app in Hc.
  erewrite bind_Ret; [| by apply get_vec_eq]. simpl.
  rewrite decide_True by (rewrite length_app; lia).
  rewrite size_t_small by (rewrite length_app; lia).
  replace (Z.of_nat (length (l1 ++ l2)) - n) with (Z.of_nat (length l2))
    by (rewrite length_app; lia).
  destruct p as [|b o]; simpl in Hb.
  - apply slots_of_nil_inv in Hb as [[-> ->]%app_nil_inv ->]; [|lia].
    simpl. rewrite (bind_Ret _ _ _ _ _ (destroy_n_0 _ _)).
    rewrite (set_size__eq _ _ _ _ Hv). simpl. by rewrite app_nil_r.
  - destruct Hb as [-> Hb]. rewrite slots_of_app in Hb.
    unfold destroy_n. rewrite Nat2Z.id.
    erewrite bind_Ret.
    2:{ eapply destroy_loop_eq with (pre := map Obj l1); [exact Hb|].
        simpl. rewrite length_map. lia. }
    erewrite set_size__eq; [| done]. simpl. do 3 f_equal.
    unfold slots_of. f_equal. rewrite <- replicate_add. f_equal.
    rewrite length_app. lia.
Qed.

Lemma Reserve_no_op_eq s a v n :
  vecs s !! a = Some v → n ≤ capacity_ (data_ v) → Reserve a n s = Ret tt s.
Proof.
  intros Hv Hn. unfold Reserve.
  rewrite (bind_Ret _ _ _ _ _ (Capacity_eq _ _ _ Hv)).
  by rewrite decide_True by lia.
Qed.

Lemma uninitialized_value_construct_n_eq s b pre post o n k :
  heap s !! b = Some (pre ++ replicate k Raw ++ post) → o = Z.of_nat (length pre) →
  n = Z.of_nat k →
  uninitialized_value_construct_n (Ptr b o) n s =
  Ret tt (mkState (<[b := pre ++ replicate k (Obj value_init) ++ post]> (heap s))
            (vecs s) (raws s) (copies_until_throw s) (leaked s)
            (trace s ++ events1 EvValueConstruct k (Ptr b o))).
Proof.
  intros Hb Ho ->. unfold uninitialized_value_construct_n. rewrite Nat2Z.id.
  by apply uninitialized_value_loop_eq.
Qed.

Lemma map_Obj_replicate n (v : T) : map Obj (replicate n v) = replicate n (Obj v).
Proof. induction n; simpl; [done | by f_equal]. Qed.

(** Value construction of [k] new trailing elements of a Sequence whose
    capacity suffices, followed by the update of [size_]. *)
Lemma value_construct_tail_eq s a b c (l : list T) n k :
  holds s a (Ptr b 0) c l → n = Z.of_nat (length l + k) → n ≤ c →
  (v ← get_vec a;
   uninitialized_value_construct_n (ptr_add (GetAddress (data_ v)) (size_ v))
     (size_t (n - size_ v));;
   set_size_ a n) s =
  Ret tt (mkState (<[b := slots_of (l ++ replicate k value_init) c]> (heap s))
            (<[a := mkVector n (mkRawMemory (Ptr b 0) c)]> (vecs s))
            (raws s) (copies_until_throw s) (leaked s)
            (trace s ++ events1 EvValueConstruct k (Ptr b (0 + Z.of_nat (length l))))).
Proof.
  intros (Hv & Hc & _ & Hb) Hn Hnc.
  erewrite bind_Ret; [| by apply get_vec_eq]. simpl.
  rewrite size_t_small by lia.
  erewrite bind_Ret.
  2:{ eapply uninitialized_value_construct_n_eq with (pre := map Obj l) (k := k)
        (post := replicate (Z.to_nat c - length l - k) Raw).
      - rewrite Hb. unfold slots_of. do 2 f_equal.
        rewrite <- replicate_add. f_equal. lia.
      - rewrite length_map. lia.
      - lia. }
  erewrite set_size__eq; [| done]. simpl. do 3 f_equal.
  rewrite slots_of_app, map_Obj_replicate, length_app, length_replicate.
  do 3 f_equal. lia.
Qed.

Lemma Resize_grow_within_eq s a b c (l : list T) n k :
  holds s a (Ptr b 0) c l → n = Z.of_nat (length l + k) → (0 < k)%nat → n ≤ c →
  Resize a n s =
  Ret tt (mkState (<[b := slots_of (l ++ replicate k value_init) c]> (heap s))
            (<[a := mkVector n (mkRawMemory (Ptr b 0) c)]> (vecs s))
            (raws s) (copies_until_throw s) (leaked s)
            (trace s ++ events1 EvValueConstruct k (Ptr b (0 + Z.of_nat (length l))))).
Proof.
  intros Hh Hn Hk Hnc. pose proof Hh as (Hv & Hc & _ & Hb). unfold Resize.
  erewrite bind_Ret; [| by apply get_vec_eq]. simpl.
  rewrite decide_False by lia.
  rewrite bind_assoc.
  erewrite bind_Ret; [| apply (Reserve_no_op_eq _ _ _ _ Hv); simpl; lia].
  rewrite bind_assoc.
  by apply value_construct_tail_eq.
Qed.

Lemma holds_store h vs r k lk t a b c (l : list T) :
  Z.of_nat (length l) ≤ c ∧ c * sizeof_T < SIZE_MOD →
  holds (mkState (<[b := slots_of l c]> h)
           (<[a := mkVector (Z.of_nat (length l)) (mkRawMemory (Ptr b 0) c)]> vs)
           r k lk t) a (Ptr b 0) c l.
Proof.
  intros [Hl Hc]. pose proof (fits_lt c).
  repeat split; simpl; try lia; by rewrite lookup_insert_eq.
Qed.

Lemma Resize_grow_realloc_eq s a p c (l : list T) n k :
  holds s a p c l → n = Z.of_nat (length l + k) → c < n ∧ n * sizeof_T < SIZE_MOD →
  budget_allows (copies_until_throw s) (relocation_copies (length l)) →
  Resize a n s =
  Ret tt (mkState
            (<[fresh (dom (heap s)) := slots_of (l ++ replicate k value_init) n]>
               (release p (heap s)))
            (<[a := mkVector n (mkRawMemory (Ptr (fresh (dom (heap s))) 0) n)]> (vecs s))
            (raws s)
            (budget_after (copies_until_throw s) (relocation_copies (length l)))
            (leaked s)
            (trace s ++
             (EvAllocate (fresh (dom (heap s))) n
              :: events2 relocation_event (length l) (Ptr (fresh (dom (heap s))) 0) p
              ++ events1 EvDestroy (length l) p ++ release_events p) ++
             events1 EvValueConstruct k
               (Ptr (fresh (dom (heap s))) (0 + Z.of_nat (length l))))).
Proof.
  intros Hh Hn Hcn Hk. pose proof Hh as (Hv & Hc & _). unfold Resize.
  erewrite bind_Ret; [| by apply get_vec_eq]. simpl.
  rewrite decide_False by lia.
  rewrite bind_assoc.
  erewrite bind_Ret; [| by eapply Reserve_grow_eq].
  rewrite bind_assoc.
  erewrite value_construct_tail_eq; [| apply holds_store; lia | done | lia].
  simpl. by rewrite !insert_insert_eq, <- app_assoc.
Qed.

Lemma Reserve_throw_eq s a p c (l : list T) n m :
  holds s a p c l → c < n ∧ n * sizeof_T < SIZE_MOD →
  is_nothrow_move_constructible || negb is_copy_constructible = false →
  copies_until_throw s = Some m → (m < length l)%nat →
  ∃ evs,
    Reserve a n s =
    Throw (mkState (heap s) (vecs s) (raws s) None (leaked s) (trace s ++ evs)).
Proof.
  intros (Hv & Hc & Hb) Hn Hstr Hm Hlt. unfold Reserve.
  rewrite (bind_Ret _ _ _ _ _ (Capacity_eq _ _ _ Hv)). simpl.
  rewrite decide_False by lia.
  assert (0 < n) as Hn0 by lia.
  rewrite (bind_Ret _ _ _ _ _ (RawMemory_new_eq _ _ Hn0 (proj2 Hn))).
  pose proof (fresh_block_None (heap s)) as Hfresh.
  set (b' := fresh (dom (heap s))) in *.
  destruct p as [|b o]; simpl in Hb.
  { apply slots_of_nil_inv in Hb as [-> ->]; [|lia]. simpl in Hlt. lia. }
  destruct Hb as [-> Hb].
  assert (b ≠ b') as Hne by (intros ->; congruence).
  destruct (uninitialized_copy_loop_throw l
    (mkState (<[b' := replicate (Z.to_nat n) Raw]> (heap s)) (vecs s) (raws s)
       (copies_until_throw s) (leaked s) (trace s ++ [EvAllocate b' n]))
    b b' [] (replicate (Z.to_nat c - length l) Raw) [] []
    (replicate (Z.to_nat n - length l) Raw) 0 m) as [evs Hevs]; simpl; try done.
  - by rewrite lookup_insert_ne.
  - rewrite lookup_insert_eq. f_equal. apply replicate_split. lia.
  - simpl in Hevs. eexists.
    erewrite bind_Throw; [reflexivity|].
    eapply catch_Throw.
    + unfold FillTmpData. erewrite bind_Ret; [| by apply get_vec_eq]. simpl.
      rewrite Hstr. unfold uninitialized_copy_n. rewrite Nat2Z.id. exact Hevs.
    + unfold RawMemory_delete. simpl.
      erewrite Deallocate_eq; [| simpl; by rewrite lookup_insert_eq].
      simpl. rewrite live_values_raws, app_nil_r, <- !app_assoc.
      do 2 f_equal. apply map_eq; intros i.
      destruct (decide (i = b')); by simplify_map_eq.
Qed.

(** ** [Emplace] *)

Lemma slots_of_cons_raw (l : list T) c :
  Z.of_nat (length l) < c →
  slots_of l c = map Obj l ++ Raw :: replicate (Z.to_nat c - length l - 1) Raw.
Proof.
  intros Hc. unfold slots_of. f_equal.
  destruct (Z.to_nat c - length l)%nat eqn:E; [lia|].
  simpl. by rewrite Nat.sub_0_r.
Qed.

Lemma EasyEmplace_eq s a b c (l1 l2 : list T) args o :
  holds s a (Ptr b 0) c (l1 ++ l2) → Z.of_nat (length (l1 ++ l2)) < c →
  o = Z.of_nat (length l1) →
  budget_allows (copies_until_throw s) (args_copies args) →
  ∃ evs,
    EasyEmplace a (Ptr b o) args s =
    Ret (Ptr b o)
      (mkState (<[b := slots_of (l1 ++ args_value args :: l2) c]> (heap s))
         (<[a := mkVector (Z.of_nat (length (l1 ++ args_value args :: l2)))
                   (mkRawMemory (Ptr b 0) c)]> (vecs s))
         (raws s)
         (budget_after (copies_until_throw s) (args_copies args))
         (leaked s) (trace s ++ evs)).
Proof.
  intros (Hv & Hc & _ & Hb) Hlt Ho Hk. unfold EasyEmplace.
  erewrite bind_Ret; [| by apply end__eq]. simpl.
  destruct l2 as [|z l2 _] using rev_ind.
  - rewrite app_nil_r in *.
    rewrite decide_False by (intros H; apply H; f_equal; lia).
    rewrite slots_of_cons_raw in Hb by done.
    eexists.
    rewrite bind_assoc. erewrite bind_Ret; [| by apply end__eq]. simpl.
    erewrite bind_Ret; [| eapply construct_at_eq; [exact Hb | | done]].
    2:{ rewrite length_map. lia. }
    erewrite bind_Ret; [| by apply get_vec_eq]. simpl.
    erewrite bind_Ret; [| by apply set_size__eq]. simpl.
    rewrite run_ret. subst o. f_equal. f_equal.
    + f_equal. rewrite slots_of_app. simpl. do 3 f_equal.
      rewrite length_app. simpl. lia.
    + do 2 f_equal. rewrite size_t_small; rewrite ?length_app; simpl; lia.
  - rewrite decide_True by (intros [=]; rewrite !length_app in *; simpl in *; lia).
    rewrite app_assoc in Hb, Hlt, Hv, Hc.
    rewrite slots_of_cons_raw in Hb by done.
    rewrite map_app in Hb. simpl in Hb. rewrite <- app_assoc in Hb. simpl in Hb.
    rewrite !length_app in Hlt, Hc. simpl in Hlt, Hc.
    set (e := 0 + Z.of_nat (length ((l1 ++ l2) ++ [z]))) in *.
    assert (e = Z.of_nat (length l1 + length l2 + 1)) as He
      by (unfold e; rewrite !length_app; simpl; lia).
    eexists.
    rewrite ?bind_assoc.
    erewrite bind_Ret; [| by apply construct_value_eq]. simpl.
    rewrite ?bind_assoc.
    erewrite bind_Ret; [| by apply end__eq]. simpl. fold e.
    rewrite ?bind_assoc.
    erewrite bind_Ret.
    2:{ eapply move_construct_within_eq with (pre := map Obj (l1 ++ l2)); simpl.
        - exact Hb.
        - rewrite length_map, length_app. lia.
        - lia. }
    simpl. rewrite ?bind_assoc.
    erewrite bind_Ret; [| by apply end__eq]. simpl. fold e.
    unfold std_move_backward. simpl. rewrite decide_True by done.
    rewrite decide_True by lia.
    replace (Z.to_nat (e + -1 - o)) with (length l2) by lia.
    rewrite ?bind_assoc.
    erewrite bind_Ret.
    2:{ eapply move_backward_loop_eq with (pre := map Obj l1) (post := Obj z :: _); simpl.
        - rewrite lookup_insert_eq, map_app, <- app_assoc. reflexivity.
        - rewrite length_map. lia.
        - lia. }
    simpl. rewrite ?bind_assoc.
    erewrite bind_Ret.
    2:{ eapply move_assign_tmp_eq with (pre := map Obj l1); simpl.
        - rewrite lookup_insert_eq. reflexivity.
        - rewrite length_map. lia. }
    simpl.
    erewrite bind_Ret; [| by apply get_vec_eq]. simpl.
    erewrite bind_Ret; [| by apply set_size__eq]. simpl.
    rewrite run_ret. f_equal. f_equal.
    + rewrite !insert_insert_eq. f_equal.
      unfold slots_of. rewrite map_app. simpl. rewrite map_app. simpl.
      repeat (rewrite <- app_assoc; simpl). do 5 f_equal.
      rewrite !length_app. simpl. rewrite !length_app. simpl. lia.
    + do 2 f_equal. rewrite size_t_small; rewrite !length_app; simpl;
        rewrite ?length_app; simpl; lia.
    + rewrite <- !app_assoc. reflexivity.
Qed.

Lemma ptr_diff_same b o o' : ptr_diff (Ptr b o) (Ptr b o') = Some (o - o').
Proof. unfold ptr_diff. by rewrite decide_True. Qed.

Lemma if_seq (c : bool) (m1 m2 c1 c2 : M T unit) s :
  (if c then m1;; m2 else c1;; c2) s =
  ((if c then m1 else c1);; (if c then m2 else c2)) s.
Proof. by destruct c. Qed.

Lemma budget_allows_add k n m :
  budget_allows k (n + m) → budget_allows k n ∧ budget_allows (budget_after k n) m.
Proof. destruct k; simpl; lia. Qed.

Lemma budget_after_add k n m :
  budget_after (budget_after k n) m = budget_after k (n + m).
Proof. destruct k; simpl; [f_equal; lia | done]. Qed.

Lemma relocation_copies_add n m :
  relocation_copies (n + m) = (relocation_copies n + relocation_copies m)%nat.
Proof. unfold relocation_copies. by destruct (_ || _). Qed.

Lemma left_behind_app (l1 l2 : list T) :
  left_behind (l1 ++ l2) = left_behind l1 ++ left_behind l2.
Proof. unfold left_behind. destruct (_ || _); [apply map_app | done]. Qed.

Lemma length_left_behind (l : list T) : length (left_behind l) = length l.
Proof. unfold left_behind. destruct (_ || _); [apply length_map | done]. Qed.

Lemma growth_capacity (n : Z) :
  0 ≤ n → 2 * n < SIZE_MOD →
  (if decide (n = 0) then 1 else size_t (n * 2)) = Z.max 1 (2 * n).
Proof.
  intros H0 H1. destruct (decide (n = 0)) as [->|Hn]; [done|].
  rewrite size_t_small by lia. lia.
Qed.

Lemma RealocationEmplace_eq s a p c (l1 l2 : list T) args :
  holds s a p c (l1 ++ l2) → c = Z.of_nat (length (l1 ++ l2)) → 2 * c * sizeof_T < SIZE_MOD →
  budget_allows (copies_until_throw s)
    (args_copies args + relocation_copies (length (l1 ++ l2))) →
  RealocationEmplace a (ptr_add p (Z.of_nat (length l1))) args s =
  Ret (ptr_add (Ptr (fresh (dom (heap s))) 0) (Z.of_nat (length l1)))
    (mkState
       (<[fresh (dom (heap s)) :=
            slots_of (l1 ++ args_value args :: l2) (Z.max 1 (2 * c))]>
          (release p (heap s)))
       (<[a := mkVector (Z.of_nat (length (l1 ++ args_value args :: l2)))
                 (mkRawMemory (Ptr (fresh (dom (heap s))) 0) (Z.max 1 (2 * c)))]>
          (vecs s))
       (raws s)
       (budget_after (copies_until_throw s)
          (args_copies args + relocation_copies (length (l1 ++ l2))))
       (leaked s)
       (trace s ++
        EvAllocate (fresh (dom (heap s))) (Z.max 1 (2 * c))
        :: EvConstruct (ptr_add (Ptr (fresh (dom (heap s))) 0) (Z.of_nat (length l1)))
        :: events2 relocation_event (length l1) (Ptr (fresh (dom (heap s))) 0) p
        ++ events2 relocation_event (length l2)
             (ptr_add (ptr_add (Ptr (fresh (dom (heap s))) 0) (Z.of_nat (length l1))) 1)
             (ptr_add p (Z.of_nat (length l1)))
        ++ events1 EvDestroy (length (l1 ++ l2)) p ++ release_events p)).
Proof.
  intros (Hv & Hc & Hb) Hfull Hfit Hk. unfold RealocationEmplace.
  assert (2 * c < SIZE_MOD) as Hno by (apply fits_lt; [lia | done]).
  apply fits_growth in Hfit; [|lia].
  erewrite bind_Ret; [| by apply begin__eq]. simpl.
  pose proof (fresh_block_None (heap s)) as Hfresh.
  set (b' := fresh (dom (heap s))) in *.
  set (c' := Z.max 1 (2 * c)) in *.
  assert (Z.of_nat (length l1) + Z.of_nat (length l2) = c) as Hlen
    by (rewrite Hfull, length_app; lia).
  apply budget_allows_add in Hk as [Hk1 Hk2].
  rewrite length_app, relocation_copies_add in Hk2.
  apply budget_allows_add in Hk2 as [Hk2 Hk3].
  remember (Z.to_nat c' - length (l1 ++ l2) - 1)%nat as r eqn:Hr.
  assert (Z.to_nat c' = (length l1 + S (length l2 + r))%nat)
    as Hc' by (rewrite Hr, length_app; lia).
  destruct p as [|b o]; simpl in Hb.
  - apply slots_of_nil_inv in Hb as [[-> ->]%app_nil_inv Hc0]; [|lia].
    simpl in *. change (size_t 0) with 0.
    subst c. change c' with 1.
    erewrite bind_Ret; [| by apply get_vec_eq]. simpl.
    assert (0 < 1) as H10 by done.
    rewrite (bind_Ret _ _ _ _ _ (RawMemory_new_eq _ _ H10 fits_1)). fold b'.
    erewrite bind_Ret.
    2:{ apply catch_Ret.
        erewrite bind_Ret; [| by apply RawMemory_plus_eq]. simpl.
        erewrite bind_Ret.
        2:{ eapply construct_at_eq with (pre := []) (post := []); simpl; try done.
            by rewrite lookup_insert_eq. }
        simpl. rewrite if_seq.
        rewrite (bind_Ret _ _ _ _ _ (relocate_nothing _ _ _)).
        apply relocate_nothing. }
    simpl.
    erewrite bind_Ret; [| by apply get_vec_eq]. simpl.
    erewrite bind_Ret; [| by apply set_data__eq]. simpl.
    erewrite bind_Ret; [| apply get_vec_eq; simpl; by rewrite lookup_insert_eq]. simpl.
    rewrite (bind_Ret _ _ _ _ _ (destroy_n_0 _ _)).
    erewrite bind_Ret; [| apply set_size__eq; simpl; by rewrite lookup_insert_eq]. simpl.
    erewrite bind_Ret; [| apply begin__eq; simpl; by rewrite lookup_insert_eq]. simpl.
    unfold RawMemory_delete, Deallocate. simpl. rewrite run_bind, !run_ret.
    rewrite !insert_insert_eq, relocation_copies_0, Nat.add_0_r, <- app_assoc.
    reflexivity.
  - destruct Hb as [-> Hb]. rewrite slots_of_app in Hb.
    replace (Z.to_nat c - length (l1 ++ l2))%nat with O in Hb by lia.
    simpl in Hb. rewrite app_nil_r in Hb.
    assert (b ≠ b') as Hne by (intros ->; congruence).
    cbn [ptr_add]. rewrite ptr_diff_same.
    replace (size_t (0 + Z.of_nat (length l1) - 0)) with (Z.of_nat (length l1))
      by (rewrite size_t_small; lia).
    erewrite bind_Ret; [| by apply get_vec_eq]. simpl.
    rewrite growth_capacity by lia. rewrite <- Hfull. fold c'.
    assert (0 < c') as Hc0 by lia.
    rewrite (bind_Ret _ _ _ _ _ (RawMemory_new_eq _ _ Hc0 Hfit)). fold b'.
    rewrite size_t_small by lia.
    replace (c - Z.of_nat (length l1)) with (Z.of_nat (length l2)) by lia.
    erewrite bind_Ret.
    2:{ apply catch_Ret.
        erewrite bind_Ret; [| apply RawMemory_plus_eq; simpl; lia]. simpl.
        erewrite bind_Ret.
        2:{ eapply construct_at_eq with (pre := replicate (length l1) Raw)
              (post := replicate (length l2 + r) Raw);
              simpl; try done.
            - rewrite lookup_insert_eq, Hc', replicate_add. reflexivity.
            - rewrite length_replicate. lia. }
        simpl. rewrite if_seq.
        erewrite bind_Ret.
        2:{ eapply relocate_eq with (vs := l1) (pre_s := []) (pre_d := [])
              (post_s := map Obj l2); simpl; try done.
            - rewrite !lookup_insert_ne by done. exact Hb.
            - by rewrite lookup_insert_eq. }
        simpl.
        eapply relocate_eq with (vs := l2) (pre_s := map Obj (left_behind l1))
          (post_s := []) (pre_d := map Obj l1 ++ [Obj (args_value args)])
          (post_d := replicate r Raw);
          simpl; try done;
          try (rewrite ?length_app, ?length_map, ?length_left_behind; simpl; lia).
        - rewrite lookup_insert_ne, lookup_insert_eq by done.
          by rewrite app_nil_r.
        - rewrite lookup_insert_eq, <- app_assoc, replicate_add. reflexivity. }
    simpl.
    erewrite bind_Ret; [| by apply get_vec_eq]. simpl.
    erewrite bind_Ret; [| by apply set_data__eq]. simpl.
    erewrite bind_Ret; [| apply get_vec_eq; simpl; by rewrite lookup_insert_eq]. simpl.
    pose proof (destroy_loop_eq (left_behind (l1 ++ l2))) as HD.
    rewrite length_left_behind in HD.
    unfold destroy_n. rewrite Nat2Z.id.
    erewrite bind_Ret.
    2:{ apply HD with (pre := []) (post := []); [|done].
        simpl. rewrite lookup_insert_ne, lookup_insert_eq by done.
        by rewrite left_behind_app, map_app, !app_nil_r. }
    simpl.
    erewrite bind_Ret; [| apply set_size__eq; simpl; by rewrite lookup_insert_eq]. simpl.
    erewrite bind_Ret; [| apply begin__eq; simpl; by rewrite lookup_insert_eq]. simpl.
    unfold RawMemory_delete. simpl.
    erewrite bind_Ret; [| apply Deallocate_eq; simpl; by rewrite lookup_insert_eq].
    simpl. rewrite run_ret. rewrite app_nil_r, live_values_replicate, !app_nil_r.
    f_equal. f_equal.
    + apply map_eq; intros i.
      destruct (decide (i = b)), (decide (i = b')); simplify_map_eq; try done.
      f_equal. unfold slots_of. rewrite map_app. simpl.
      repeat (rewrite <- app_assoc; simpl). do 4 f_equal.
      rewrite !length_app. simpl. lia.
    + rewrite !insert_insert_eq. do 2 f_equal.
      pose proof SIZE_MOD_gt_1.
      rewrite size_t_small; rewrite !length_app in *; simpl; lia.
    + by rewrite !budget_after_add, length_app, relocation_copies_add.
    + repeat (rewrite <- app_assoc; simpl). reflexivity.
Qed.

Lemma holds_ptr s a p c (l : list T) :
  holds s a p c l → 0 < c → ∃ b, p = Ptr b 0.
Proof.
  intros (_ & Hc & Hb) H0. destruct p as [|b o]; simpl in Hb.
  - apply slots_of_nil_inv in Hb as [_ ->]; lia.
  - destruct Hb as [-> _]. by eexists.
Qed.

Lemma Emplace_holds s a p c (l1 l2 : list T) args :
  holds s a p c (l1 ++ l2) →
  (c = Z.of_nat (length (l1 ++ l2)) → 2 * c * sizeof_T < SIZE_MOD) →
  budget_allows (copies_until_throw s)
    (args_copies args +
     (if decide (Z.of_nat (length (l1 ++ l2)) < c) then 0
      else relocation_copies (length (l1 ++ l2)))) →
  ∃ s' p',
    Emplace a (ptr_add p (Z.of_nat (length l1))) args s =
      Ret (ptr_add p' (Z.of_nat (length l1))) s' ∧
    holds s' a p' (capacity_after_emplace (Z.of_nat (length (l1 ++ l2))) c)
      (l1 ++ args_value args :: l2) ∧
    (Z.of_nat (length (l1 ++ l2)) < c → p' = p) ∧
    copies_until_throw s' =
      budget_after (copies_until_throw s)
        (args_copies args +
         (if decide (Z.of_nat (length (l1 ++ l2)) < c) then 0
          else relocation_copies (length (l1 ++ l2)))) ∧
    leaked s' = leaked s ∧ raws s' = raws s ∧
    (∀ a', a' ≠ a → vecs s' !! a' = vecs s !! a').
Proof.
  intros Hh Hno Hk. pose proof Hh as (Hv & Hc & Hb).
  pose proof SIZE_MOD_gt_1 as HM.
  unfold Emplace, capacity_after_emplace.
  erewrite bind_Ret; [| by apply get_vec_eq].
  erewrite bind_Ret; [| by apply Capacity_eq]. simpl.
  destruct (decide (Z.of_nat (length (l1 ++ l2)) < c)) as [Hlt|Hge].
  - destruct (holds_ptr _ _ _ _ _ Hh) as [b ->]; [lia|].
    rewrite Nat.add_0_r in *.
    destruct (EasyEmplace_eq s a b c l1 l2 args (0 + Z.of_nat (length l1)))
      as [evs Hevs]; try done; try lia.
    eexists _, (Ptr b 0). split; [exact Hevs|].
    split; [| by repeat split; simpl; try done; intros; rewrite lookup_insert_ne].
    apply holds_store. rewrite !length_app in *. simpl. lia.
  - assert (c = Z.of_nat (length (l1 ++ l2))) as Hfull by lia.
    specialize (Hno Hfull).
    eexists _, (Ptr (fresh (dom (heap s))) 0).
    split; [by apply RealocationEmplace_eq|].
    split; [| by repeat split; simpl; try done; try lia;
                 intros; rewrite lookup_insert_ne].
    assert (Z.max 1 (2 * c) * sizeof_T < SIZE_MOD) as Hfit
      by (apply fits_growth; [lia | done]).
    rewrite <- Hfull.
    apply holds_store. rewrite !length_app in *. simpl. lia.
Qed.

(** ** [PushBack] and the growth of the capacity *)

Lemma Back_eq s a p c (l : list T) :
  holds s a p c l → l ≠ [] →
  Back a s = Ret (ptr_add p (size_t (Z.of_nat (length l) - 1))) s.
Proof.
  intros (Hv & Hc & _) Hl. unfold Back.
  erewrite bind_Ret; [| by apply get_vec_eq]. simpl.
  apply RawMemory_at_eq. simpl.
  assert (0 < length l)%nat by (destruct l; [done | simpl; lia]).
  rewrite size_t_small; lia.
Qed.

Lemma PushBack_holds s a p c (l : list T) args :
  holds s a p c l →
  (c = Z.of_nat (length l) → 2 * c * sizeof_T < SIZE_MOD) →
  budget_allows (copies_until_throw s)
    (args_copies args +
     (if decide (Z.of_nat (length l) < c) then 0 else relocation_copies (length l))) →
  ∃ s' p',
    PushBack a args s = Ret tt s' ∧
    holds s' a p' (capacity_after_emplace (Z.of_nat (length l)) c)
      (l ++ [args_value args]) ∧
    copies_until_throw s' =
      budget_after (copies_until_throw s)
        (args_copies args +
         (if decide (Z.of_nat (length l) < c) then 0 else relocation_copies (length l))) ∧
    (Z.of_nat (length l) < c → p' = p).
Proof.
  intros Hh Hno Hk. pose proof Hh as (Hv & _).
  rewrite <- (app_nil_r l) in Hh, Hno, Hk.
  destruct (Emplace_holds s a p c l [] args Hh Hno Hk)
    as (s' & p' & HE & Hh' & Hp' & Hk' & _).
  rewrite app_nil_r in *.
  exists s', p'. split; [| split; [done | split; [done|]]].
  2:{ intros Hlt. by apply Hp'. }
  unfold PushBack, EmplaceBack.
  rewrite bind_assoc.
  erewrite bind_Ret; [| by apply end__eq]. simpl.
  rewrite bind_assoc, (bind_Ret _ _ _ _ _ HE).
  erewrite bind_Ret; [| eapply Back_eq; [exact Hh' | by destruct l]].
  reflexivity.
Qed.

Lemma pow2_ceil_step n c :
  0 ≤ n → c = pow2_ceil n → capacity_after_emplace n c = pow2_ceil (n + 1).
Proof.
  intros Hn ->. unfold capacity_after_emplace, pow2_ceil.
  rewrite (decide_False (P := n + 1 = 0)) by lia.
  destruct (decide (n = 0)) as [->|Hn0]; [done|].
  pose proof (Z.log2_up_nonneg n) as Hk.
  assert (n ≤ 2 ^ Z.log2_up n) as Hle.
  { destruct (decide (n = 1)) as [->|]; [done|]. apply Z.log2_up_spec. lia. }
  destruct (decide (n < 2 ^ Z.log2_up n)) as [Hlt|Hge].
  - f_equal. symmetry. apply Z.log2_up_unique.
    + destruct (decide (Z.log2_up n = 0)) as [E|]; [|lia].
      rewrite E in Hlt. simpl in Hlt. lia.
    + split; [|lia].
      destruct (decide (n = 1)) as [->|];
        [change (2 ^ Z.log2_up 1) with 1 in Hlt; lia|].
      assert (1 < n) as H1 by lia.
      pose proof (Z.log2_up_spec n H1). lia.
  - assert (n = 2 ^ Z.log2_up n) as E by lia.
    rewrite Z.max_r by lia.
    replace (Z.log2_up (n + 1)) with (Z.log2_up n + 1).
    + rewrite Z.pow_add_r by lia. lia.
    + symmetry. apply Z.log2_up_unique; [lia|].
      replace (Z.pred (Z.log2_up n + 1)) with (Z.log2_up n) by lia.
      rewrite Z.pow_add_r by lia. lia.
Qed.

Lemma pow2_ceil_bound n : 0 ≤ n → n ≤ pow2_ceil n ∧ pow2_ceil n ≤ 2 * n.
Proof.
  intros Hn. unfold pow2_ceil.
  destruct (decide (n = 0)) as [->|Hn0]; [lia|].
  destruct (decide (n = 1)) as [->|Hn1];
    [change (2 ^ Z.log2_up 1) with 1; lia|].
  assert (1 < n) as Hgt by lia.
  pose proof (Z.log2_up_spec n Hgt) as [H1 H2].
  split; [done|].
  replace (Z.log2_up n) with (Z.pred (Z.log2_up n) + 1) at 1 by lia.
  rewrite Z.pow_add_r; [lia | | lia].
  pose proof (Z.log2_up_pos n). lia.
Qed.

Lemma push_all_holds (xs : list (ctor_args T)) : ∀ s a p (l : list T),
  holds s a p (pow2_ceil (Z.of_nat (length l))) l →
  copies_until_throw s = None →
  2 * Z.of_nat (length l + length xs) * sizeof_T < SIZE_MOD →
  ∃ s' p',
    push_all a xs s = Ret tt s' ∧
    holds s' a p' (pow2_ceil (Z.of_nat (length l + length xs)))
      (l ++ map args_value xs) ∧
    copies_until_throw s' = None.
Proof.
  induction xs as [|x xs IH]; intros s a p l Hh Hk Hno; simpl.
  - exists s, p. rewrite Nat.add_0_r, app_nil_r. by rewrite run_ret.
  - destruct (PushBack_holds s a p _ l x Hh) as (s1 & p1 & HP & Hh1 & Hk1 & _).
    + intros E. rewrite E. pose proof sizeof_T_pos. simpl in Hno. nia.
    + by rewrite Hk.
    + rewrite Hk in Hk1. simpl in Hk1.
      rewrite (pow2_ceil_step _ _ (Nat2Z.is_nonneg _) eq_refl) in Hh1.
      replace (Z.of_nat (length l) + 1) with (Z.of_nat (length (l ++ [args_value x])))
        in Hh1 by (rewrite length_app; simpl; lia).
      destruct (IH s1 a p1 _ Hh1 Hk1) as (s' & p' & HA & Hh' & Hk').
      * rewrite length_app. simpl length in *.
        by replace (length l + 1 + length xs)%nat
          with (length l + S (length xs))%nat by lia.
      * exists s', p'. rewrite (bind_Ret _ _ _ _ _ HP). split; [done|].
        rewrite length_app, <- app_assoc in Hh'. simpl in Hh'.
        replace (length l + S (length xs))%nat with (length l + 1 + length xs)%nat by lia.
        by split.
Qed.

(** ** Copy construction, [Swap] and destruction *)

Lemma holds_frame s s' a a' p c (l : list T) :
  holds s a p c l →
  vecs s' !! a' = vecs s !! a →
  (∀ b o, p = Ptr b o → heap s' !! b = heap s !! b) →
  holds s' a' p c l.
Proof.
  intros (Hv & Hc & Hb) Hv' Hh. repeat split; try lia.
  - by rewrite Hv'.
  - destruct p as [|b o]; simpl in *; [done|].
    destruct Hb as [-> Hb]. split; [done|]. by rewrite (Hh b 0).
Qed.

Lemma holds_nonempty_ptr s a p c (l : list T) :
  holds s a p c l → l ≠ [] → ∃ b, p = Ptr b 0.
Proof.
  intros Hh Hl. apply (holds_ptr _ _ _ _ _ Hh).
  destruct Hh as (_ & Hc & _). destruct l; [done|]. simpl in Hc. lia.
Qed.

Lemma Vector_copy_ctor_eq s cp r br cr (lr : list T) :
  holds s r (Ptr br 0) cr lr → lr ≠ [] →
  budget_allows (copies_until_throw s) (length lr) →
  Vector_copy_ctor cp r s =
  Ret tt (mkState
            (<[fresh (dom (heap s)) := slots_of lr (Z.of_nat (length lr))]> (heap s))
            (<[cp := mkVector (Z.of_nat (length lr))
                       (mkRawMemory (Ptr (fresh (dom (heap s))) 0)
                          (Z.of_nat (length lr)))]> (vecs s))
            (raws s)
            (budget_after (copies_until_throw s) (length lr))
            (leaked s)
            (trace s ++
             EvAllocate (fresh (dom (heap s))) (Z.of_nat (length lr))
             :: events2 EvCopyConstruct (length lr)
                  (Ptr (fresh (dom (heap s))) 0) (Ptr br 0))).
Proof.
  intros (Hv & Hc & _ & Hb) Hl Hk. unfold Vector_copy_ctor.
  erewrite bind_Ret; [| by apply get_vec_eq]. simpl.
  assert (0 < Z.of_nat (length lr)) as Hn0 by (destruct lr; [done | simpl; lia]).
  assert (Z.of_nat (length lr) * sizeof_T < SIZE_MOD) as Hfit
    by (eapply fits_le; [| apply Hc]; lia).
  rewrite (bind_Ret _ _ _ _ _ (RawMemory_new_eq _ _ Hn0 Hfit)).
  pose proof (fresh_block_None (heap s)) as Hfresh.
  set (b' := fresh (dom (heap s))) in *.
  assert (br ≠ b') as Hne by (intros ->; congruence).
  erewrite bind_Ret.
  2:{ apply catch_Ret. unfold uninitialized_copy_n. simpl. rewrite Nat2Z.id.
      eapply uninitialized_copy_loop_eq with (pre_s := []) (pre_d := []) (post_d := []);
        simpl; try done.
      - rewrite lookup_insert_ne by done. exact Hb.
      - by rewrite lookup_insert_eq, ?Nat2Z.id, app_nil_r. }
  simpl. unfold put_vec, set_vecs. simpl.
  rewrite insert_insert_eq, <- app_assoc. do 3 f_equal.
  unfold slots_of. rewrite Nat2Z.id, Nat.sub_diag. reflexivity.
Qed.

Lemma Vector_copy_ctor_throw s cp r br cr (lr : list T) m :
  holds s r (Ptr br 0) cr lr →
  copies_until_throw s = Some m → (m < length lr)%nat →
  ∃ evs,
    Vector_copy_ctor cp r s =
    Throw (mkState (heap s) (vecs s) (raws s) None (leaked s) (trace s ++ evs)).
Proof.
  intros (Hv & Hc & _ & Hb) Hm Hlt. unfold Vector_copy_ctor.
  erewrite bind_Ret; [| by apply get_vec_eq]. simpl.
  assert (0 < Z.of_nat (length lr)) as Hn0 by lia.
  assert (Z.of_nat (length lr) * sizeof_T < SIZE_MOD) as Hfit
    by (eapply fits_le; [| apply Hc]; lia).
  rewrite (bind_Ret _ _ _ _ _ (RawMemory_new_eq _ _ Hn0 Hfit)).
  pose proof (fresh_block_None (heap s)) as Hfresh.
  set (b' := fresh (dom (heap s))) in *.
  assert (br ≠ b') as Hne by (intros ->; congruence).
  destruct (uninitialized_copy_loop_throw lr
    (mkState (<[b' := replicate (length lr) Raw]> (heap s))
       (vecs s) (raws s) (copies_until_throw s) (leaked s)
       (trace s ++ [EvAllocate b' (Z.of_nat (length lr))]))
    br b' [] (replicate (Z.to_nat cr - length lr) Raw) [] [] [] 0 m)
    as [evs Hevs]; simpl; try done.
  - by rewrite lookup_insert_ne.
  - by rewrite lookup_insert_eq, app_nil_r.
  - simpl in Hevs. eexists.
    erewrite bind_Throw; [reflexivity|].
    eapply catch_Throw.
    + unfold uninitialized_copy_n. simpl. rewrite !Nat2Z.id. exact Hevs.
    + unfold RawMemory_delete. simpl.
      erewrite Deallocate_eq; [| simpl; by rewrite lookup_insert_eq].
      simpl. rewrite app_nil_r, live_values_replicate, app_nil_r, <- !app_assoc.
      do 2 f_equal. apply map_eq; intros i.
      destruct (decide (i = b')); by simplify_map_eq.
Qed.

Lemma Swap_eq s a b va vb :
  a ≠ b → vecs s !! a = Some va → vecs s !! b = Some vb →
  Swap a b s =
  Ret tt (mkState (heap s) (<[b := va]> (<[a := vb]> (vecs s))) (raws s)
            (copies_until_throw s) (leaked s) (trace s)).
Proof.
  intros Hne Ha Hb. unfold Swap.
  erewrite bind_Ret; [| by apply get_vec_eq].
  erewrite bind_Ret; [| by apply get_vec_eq]. simpl.
  erewrite bind_Ret; [| by apply set_data__eq]. simpl.
  erewrite bind_Ret; [| apply set_data__eq; simpl; by rewrite lookup_insert_ne]. simpl.
  erewrite bind_Ret;
    [| apply set_size__eq; simpl; by rewrite lookup_insert_ne, lookup_insert_eq]. simpl.
  erewrite set_size__eq; [| simpl; by rewrite lookup_insert_ne, lookup_insert_eq].
  simpl. do 2 f_equal. destruct va as [? [? ?]], vb as [? [? ?]]. simpl.
  apply map_eq; intros i.
  destruct (decide (i = a)), (decide (i = b)); by simplify_map_eq.
Qed.

Lemma Vector_dtor_eq s a p c (l : list T) :
  holds s a p c l →
  Vector_dtor a s =
  Ret tt (mkState (release p (heap s)) (delete a (vecs s)) (raws s)
            (copies_until_throw s) (leaked s)
            (trace s ++ events1 EvDestroy (length l) p ++ release_events p)).
Proof.
  intros (Hv & Hc & Hb). unfold Vector_dtor.
  erewrite bind_Ret; [| by apply get_vec_eq]. simpl.
  destruct p as [|b o]; simpl in Hb.
  - apply slots_of_nil_inv in Hb as [-> ->]; [|lia]. simpl.
    rewrite (bind_Ret _ _ _ _ _ (destroy_n_0 _ _)).
    unfold RawMemory_delete, Deallocate. simpl. rewrite run_bind, run_ret.
    unfold del_vec, set_vecs. by rewrite app_nil_r.
  - destruct Hb as [-> Hb]. unfold destroy_n. rewrite Nat2Z.id.
    erewrite bind_Ret; [| by eapply destroy_loop_eq with (pre := [])].
    simpl. unfold RawMemory_delete. simpl.
    erewrite bind_Ret; [| apply Deallocate_eq; simpl; by rewrite lookup_insert_eq].
    simpl. unfold del_vec, set_vecs. simpl.
    rewrite live_values_raws, app_nil_r, <- app_assoc. do 2 f_equal.
    apply map_eq; intros i. destruct (decide (i = b)); by simplify_map_eq.
Qed.

(** ** Copy assignment *)

Lemma fresh_addr_None (m : gmap addr Vector) : m !! fresh (dom m) = None.
Proof. apply not_elem_of_dom, is_fresh. Qed.

Lemma local_vec_eq s : local_vec s = Ret (fresh (dom (vecs s))) s.
Proof. reflexivity. Qed.

Lemma release_store_fresh p b' (x : list (slot T)) (h : gmap block (list (slot T))) :
  disjoint_blocks p (Ptr b' 0) →
  release p (<[b' := x]> h) = <[b' := x]> (release p h).
Proof.
  intros Hf. destruct p as [|b o]; simpl in *; [done|].
  apply map_eq; intros i.
  destruct (decide (i = b)), (decide (i = b')); by simplify_map_eq.
Qed.

Lemma holds_disjoint_fresh s a p c (l : list T) :
  holds s a p c l → disjoint_blocks p (Ptr (fresh (dom (heap s))) 0).
Proof.
  intros (_ & _ & Hb). destruct p as [|b o]; simpl in *; [done|].
  destruct Hb as [_ Hb]. intros ->. by rewrite fresh_block_None in Hb.
Qed.

Lemma operator_assign_realloc_eq s a r pa ca pr cr (la lr : list T) :
  a ≠ r → holds s a pa ca la → holds s r pr cr lr →
  ca < Z.of_nat (length lr) →
  budget_allows (copies_until_throw s) (length lr) →
  operator_assign a r s =
  Ret tt (mkState
            (<[fresh (dom (heap s)) := slots_of lr (Z.of_nat (length lr))]>
               (release pa (heap s)))
            (<[a := mkVector (Z.of_nat (length lr))
                      (mkRawMemory (Ptr (fresh (dom (heap s))) 0)
                         (Z.of_nat (length lr)))]> (vecs s))
            (raws s)
            (budget_after (copies_until_throw s) (length lr))
            (leaked s)
            (trace s ++
             EvAllocate (fresh (dom (heap s))) (Z.of_nat (length lr))
             :: events2 EvCopyConstruct (length lr) (Ptr (fresh (dom (heap s))) 0) pr
             ++ events1 EvDestroy (length la) pa ++ release_events pa)).
Proof.
  intros Hne Ha Hr Hlt Hk.
  pose proof Ha as (Hva & Hca & Hba). pose proof Hr as (Hvr & Hcr & Hbr).
  unfold operator_assign. rewrite decide_True by done.
  erewrite bind_Ret; [| by apply get_vec_eq].
  erewrite bind_Ret; [| by apply get_vec_eq]. simpl.
  rewrite decide_True by lia.
  assert (lr ≠ []) as Hlr by (intros ->; simpl in *; lia).
  destruct (holds_nonempty_ptr _ _ _ _ _ Hr Hlr) as [br ->].
  rewrite !bind_assoc. rewrite (bind_Ret _ _ _ _ _ (local_vec_eq _)).
  pose proof (fresh_addr_None (vecs s)) as Hcp.
  set (cp := fresh (dom (vecs s))) in *.
  assert (cp ≠ a) as Hcpa by (intros ->; congruence).
  assert (cp ≠ r) as Hcpr by (intros ->; congruence).
  pose proof (fresh_block_None (heap s)) as Hfresh.
  rewrite !bind_assoc.
  erewrite bind_Ret; [| by eapply Vector_copy_ctor_eq].
  set (b' := fresh (dom (heap s))) in *.
  rewrite !bind_assoc.
  erewrite bind_Ret.
  2:{ apply Swap_eq; simpl; [done | | by rewrite lookup_insert_eq].
      rewrite lookup_insert_ne by done. exact Hva. }
  simpl.
  erewrite bind_Ret.
  2:{ apply Vector_dtor_eq with (p := pa) (c := ca) (l := la).
      eapply holds_frame; [exact Ha | |]; simpl.
      - by rewrite lookup_insert_eq.
      - intros b o ->. destruct Hba as [_ Hba].
        rewrite lookup_insert_ne; [done | intros ->; congruence]. }
  simpl.
  erewrite bind_Ret; [| apply get_vec_eq; simpl; by simplify_map_eq].
  simpl.
  erewrite set_size__eq; [| simpl; by simplify_map_eq].
  simpl. rewrite release_store_fresh by (by eapply holds_disjoint_fresh).
  f_equal. f_equal.
  - apply map_eq; intros i.
    destruct (decide (i = a)), (decide (i = cp)); by simplify_map_eq.
  - by rewrite <- !app_assoc.
Qed.

Lemma operator_assign_realloc_throw s a r pa ca pr cr (la lr : list T) m :
  a ≠ r → holds s a pa ca la → holds s r pr cr lr →
  ca < Z.of_nat (length lr) →
  copies_until_throw s = Some m → (m < length lr)%nat →
  ∃ evs,
    operator_assign a r s =
    Throw (mkState (heap s) (vecs s) (raws s) None (leaked s) (trace s ++ evs)).
Proof.
  intros Hne Ha Hr Hlt Hm Hml.
  pose proof Ha as (Hva & Hca & Hba). pose proof Hr as (Hvr & Hcr & Hbr).
  assert (lr ≠ []) as Hlr by (intros ->; simpl in *; lia).
  destruct (holds_nonempty_ptr _ _ _ _ _ Hr Hlr) as [br ->].
  destruct (Vector_copy_ctor_throw s (fresh (dom (vecs s))) r br cr lr m Hr Hm Hml)
    as [evs Hevs].
  exists evs.
  unfold operator_assign. rewrite decide_True by done.
  erewrite bind_Ret; [| by apply get_vec_eq].
  erewrite bind_Ret; [| by apply get_vec_eq]. simpl.
  rewrite decide_True by lia.
  rewrite !bind_assoc. rewrite (bind_Ret _ _ _ _ _ (local_vec_eq _)).
  rewrite !bind_assoc.
  by rewrite (bind_Throw _ _ _ _ Hevs).
Qed.

Lemma assign_loop_0 d r i s : assign_loop 0 d r i s = Ret i s.
Proof. reflexivity. Qed.

(** The element-wise assignment over the common prefix, when it is not empty. *)
Lemma assign_prefix_eq s ba br ca cr (ws vs : list T) post_d post_s :
  ba ≠ br → length ws = length vs →
  heap s !! ba = Some (map Obj ws ++ post_d) →
  heap s !! br = Some (map Obj vs ++ post_s) →
  Z.of_nat (length vs) ≤ ca → Z.of_nat (length vs) ≤ cr →
  assign_loop (length vs) (mkRawMemory (Ptr ba 0) ca) (mkRawMemory (Ptr br 0) cr) 0 s =
  Ret (Z.of_nat (length vs))
    (mkState (<[ba := map Obj vs ++ post_d]> (heap s)) (vecs s) (raws s)
       (copies_until_throw s) (leaked s)
       (trace s ++ events2 EvCopyAssign (length vs) (Ptr ba 0) (Ptr br 0))).
Proof.
  intros Hne Hlen Hd Hs Hca Hcr.
  by rewrite (assign_loop_eq vs ws s br ba cr ca [] post_s [] post_d 0).
Qed.

Lemma operator_assign_shrink_eq s a r ba ca pr cr (la1 la2 lr : list T) :
  a ≠ r → holds s a (Ptr ba 0) ca (la1 ++ la2) → holds s r pr cr lr →
  disjoint_blocks (Ptr ba 0) pr → length la1 = length lr → la2 ≠ [] →
  operator_assign a r s =
  Ret tt (mkState (<[ba := slots_of lr ca]> (heap s))
            (<[a := mkVector (Z.of_nat (length lr)) (mkRawMemory (Ptr ba 0) ca)]> (vecs s))
            (raws s) (copies_until_throw s) (leaked s)
            (trace s ++
             events2 EvCopyAssign (length lr) (Ptr ba 0) pr ++
             events1 EvDestroy (length la2) (Ptr ba (0 + Z.of_nat (length lr))))).
Proof.
  intros Hne Ha Hr Hdis Hlen Hla2.
  pose proof Ha as (Hva & Hca & _ & Hba). pose proof Hr as (Hvr & Hcr & Hbr).
  rewrite length_app in Hca.
  assert (0 < length la2)%nat as Hpos by (destruct la2; [done | simpl; lia]).
  unfold operator_assign. rewrite decide_True by done.
  erewrite bind_Ret; [| by apply get_vec_eq].
  erewrite bind_Ret; [| by apply get_vec_eq]. simpl.
  rewrite decide_False by lia.
  rewrite length_app.
  replace (Z.to_nat (Z.of_nat (length la1 + length la2) `min` Z.of_nat (length lr)))
    with (length lr) by lia.
  rewrite slots_of_app in Hba.
  assert (∃ s1,
    assign_loop (length lr) (mkRawMemory (Ptr ba 0) ca) (mkRawMemory pr cr) 0 s =
      Ret (Z.of_nat (length lr)) s1 ∧
    s1 = mkState
           (<[ba := map Obj lr ++ map Obj la2 ++
                    replicate (Z.to_nat ca - length (la1 ++ la2)) Raw]> (heap s))
           (vecs s) (raws s) (copies_until_throw s) (leaked s)
           (trace s ++ events2 EvCopyAssign (length lr) (Ptr ba 0) pr))
    as (s1 & Hloop & Hs1).
  { destruct (decide (lr = [])) as [->|Hlr].
    - destruct la1; [|done]. eexists. split; [reflexivity|].
      simpl in *. by rewrite app_nil_r, insert_id, state_eta.
    - destruct (holds_nonempty_ptr _ _ _ _ _ Hr Hlr) as [br ->].
      destruct Hbr as [_ Hbr]. simpl in Hdis.
      eexists. split; [|reflexivity].
      eapply assign_prefix_eq; try done; lia. }
  rewrite !bind_assoc, (bind_Ret _ _ _ _ _ Hloop). subst s1.
  rewrite decide_True by lia.
  rewrite size_t_small by lia.
  replace (Z.of_nat (length la1 + length la2) - Z.of_nat (length lr))
    with (Z.of_nat (length la2)) by lia.
  unfold destroy_n. rewrite Nat2Z.id.
  erewrite bind_Ret.
  2:{ eapply destroy_loop_eq with (pre := map Obj lr); simpl.
      - by rewrite lookup_insert_eq.
      - rewrite length_map. lia. }
  simpl.
  erewrite bind_Ret; [| by apply get_vec_eq]. simpl.
  erewrite set_size__eq; [| done]. simpl.
  rewrite insert_insert_eq, <- app_assoc. do 3 f_equal.
  unfold slots_of. f_equal. rewrite <- replicate_add. f_equal.
  rewrite length_app. lia.
Qed.

Lemma store_same s p (ls : list (slot T)) :
  block_at s p ls → store p ls (heap s) = heap s.
Proof.
  destruct p as [|b o]; simpl; [done|]. intros [_ Hb]. by apply insert_id.
Qed.

Lemma operator_assign_grow_eq s a r pa ca pr cr (la lr1 lr2 : list T) :
  a ≠ r → holds s a pa ca la → holds s r pr cr (lr1 ++ lr2) →
  disjoint_blocks pa pr → length lr1 = length la →
  Z.of_nat (length (lr1 ++ lr2)) ≤ ca →
  budget_allows (copies_until_throw s) (length lr2) →
  operator_assign a r s =
  Ret tt (mkState (store pa (slots_of (lr1 ++ lr2) ca) (heap s))
            (<[a := mkVector (Z.of_nat (length (lr1 ++ lr2))) (mkRawMemory pa ca)]>
               (vecs s))
            (raws s)
            (budget_after (copies_until_throw s) (length lr2))
            (leaked s)
            (trace s ++
             events2 EvCopyAssign (length la) pa pr ++
             events2 EvCopyConstruct (length lr2)
               (ptr_add pa (Z.of_nat (length la))) (ptr_add pr (Z.of_nat (length la))))).
Proof.
  intros Hne Ha Hr Hdis Hlen Hfit Hk.
  pose proof Ha as (Hva & Hca & Hba). pose proof Hr as (Hvr & Hcr & Hbr).
  rewrite length_app in Hfit, Hcr.
  unfold operator_assign. rewrite decide_True by done.
  erewrite bind_Ret; [| by apply get_vec_eq].
  erewrite bind_Ret; [| by apply get_vec_eq]. simpl.
  rewrite decide_False by (rewrite length_app; lia).
  rewrite length_app.
  replace (Z.to_nat (Z.of_nat (length la) `min` Z.of_nat (length lr1 + length lr2)))
    with (length la) by lia.
  destruct (decide (lr1 ++ lr2 = [])) as [Hnil|Hlr].
  - apply app_nil_inv in Hnil as [-> ->]. destruct la; [|done]. simpl in *.
    rewrite !bind_assoc, (bind_Ret _ _ _ _ _ (run_ret _ _)).
    erewrite bind_Ret; [| reflexivity].
    erewrite bind_Ret; [| by apply get_vec_eq]. simpl.
    erewrite set_size__eq; [| done]. simpl.
    by rewrite store_same, budget_after_0, app_nil_r.
  - destruct (holds_nonempty_ptr _ _ _ _ _ Hr Hlr) as [br ->].
    assert (0 < ca) as Hpos.
    { destruct lr1, lr2; simpl in *; try done; lia. }
    destruct (holds_ptr _ _ _ _ _ Ha Hpos) as [ba ->].
    destruct Hba as [_ Hba]. destruct Hbr as [_ Hbr]. simpl in Hdis.
    rewrite slots_of_app in Hbr.
    rewrite !bind_assoc.
    rewrite <- Hlen.
    erewrite bind_Ret.
    2:{ eapply assign_prefix_eq with (ws := la); try done; lia. }
    rewrite decide_False by lia.
    rewrite size_t_small by lia.
    replace (Z.of_nat (length lr1 + length lr2) - Z.of_nat (length lr1))
      with (Z.of_nat (length lr2)) by lia.
    unfold uninitialized_copy_n. rewrite Nat2Z.id. simpl.
    erewrite bind_Ret.
    2:{ eapply uninitialized_copy_loop_eq with (pre_s := map Obj lr1)
          (pre_d := map Obj lr1)
          (post_d := replicate (Z.to_nat ca - length (lr1 ++ lr2)) Raw);
          simpl; try done; try (rewrite length_map; lia).
        - rewrite lookup_insert_ne by done. exact Hbr.
        - rewrite lookup_insert_eq. do 2 f_equal.
          rewrite <- replicate_add. f_equal. rewrite length_app. lia. }
    simpl.
    erewrite bind_Ret; [| by apply get_vec_eq]. simpl.
    erewrite set_size__eq; [| done]. simpl.
    rewrite insert_insert_eq, <- app_assoc, length_app, Hlen. do 3 f_equal.
    by rewrite slots_of_app, length_app, Hlen.
Qed.

Lemma operator_assign_grow_throw s a r pa ca pr cr (la lr1 lr2 : list T) m :
  a ≠ r → holds s a pa ca la → holds s r pr cr (lr1 ++ lr2) →
  disjoint_blocks pa pr → length lr1 = length la →
  Z.of_nat (length (lr1 ++ lr2)) ≤ ca →
  copies_until_throw s = Some m → (m < length lr2)%nat →
  ∃ evs,
    operator_assign a r s =
    Throw (mkState (store pa (slots_of lr1 ca) (heap s)) (vecs s) (raws s) None
             (leaked s) (trace s ++ evs)).
Proof.
  intros Hne Ha Hr Hdis Hlen Hfit Hm Hml.
  pose proof Ha as (Hva & Hca & Hba). pose proof Hr as (Hvr & Hcr & Hbr).
  rewrite length_app in Hfit, Hcr.
  assert (lr1 ++ lr2 ≠ []) as Hlr by (destruct lr1, lr2; simpl in *; try done; lia).
  destruct (holds_nonempty_ptr _ _ _ _ _ Hr Hlr) as [br ->].
  assert (0 < ca) as Hpos by lia.
  destruct (holds_ptr _ _ _ _ _ Ha Hpos) as [ba ->].
  destruct Hba as [_ Hba]. destruct Hbr as [_ Hbr]. simpl in Hdis.
  rewrite slots_of_app in Hbr.
  destruct (uninitialized_copy_loop_throw lr2
    (mkState (<[ba := map Obj lr1 ++ replicate (Z.to_nat ca - length la) Raw]> (heap s))
       (vecs s) (raws s) (copies_until_throw s) (leaked s)
       (trace s ++ events2 EvCopyAssign (length lr1) (Ptr ba 0) (Ptr br 0)))
    br ba (map Obj lr1) (replicate (Z.to_nat cr - length (lr1 ++ lr2)) Raw)
    (map Obj lr1) [] (replicate (Z.to_nat ca - length (lr1 ++ lr2)) Raw)
    (Z.of_nat (length lr1)) m) as [evs Hevs]; simpl; try done.
  { rewrite lookup_insert_ne by done. exact Hbr. }
  { rewrite lookup_insert_eq. do 2 f_equal.
    rewrite <- replicate_add. f_equal. rewrite length_app. lia. }
  { by rewrite length_map. }
  simpl in Hevs. rewrite length_map, Nat.add_0_r in Hevs.
  eexists.
  unfold operator_assign. rewrite decide_True by done.
  erewrite bind_Ret; [| by apply get_vec_eq].
  erewrite bind_Ret; [| by apply get_vec_eq]. simpl.
  rewrite decide_False by (rewrite length_app; lia).
  rewrite length_app.
  replace (Z.to_nat (Z.of_nat (length la) `min` Z.of_nat (length lr1 + length lr2)))
    with (length la) by lia.
  rewrite !bind_assoc.
  rewrite <- Hlen.
  erewrite bind_Ret.
  2:{ eapply assign_prefix_eq with (ws := la); try done; lia. }
  rewrite decide_False by lia.
  rewrite size_t_small by lia.
  replace (Z.of_nat (length lr1 + length lr2) - Z.of_nat (length lr1))
    with (Z.of_nat (length lr2)) by lia.
  unfold uninitialized_copy_n. rewrite Nat2Z.id. simpl.
  rewrite !Z.add_0_l.
  erewrite bind_Throw; [| exact Hevs].
  rewrite insert_insert_eq, <- app_assoc. do 3 f_equal.
  unfold slots_of. f_equal. rewrite <- replicate_add. f_equal.
  rewrite length_app. lia.
Qed.

End Runs.

(** * The properties of the specification *)

Section Properties.
Context {T : Type} `{!Element T}.
Implicit Types (s : state T) (l : list T).

Lemma holds_store_any s vs r k lk t a p c l0 l :
  block_at s p (slots_of l0 c) → 0 ≤ c →
  Z.of_nat (length l) ≤ c ∧ c * sizeof_T < SIZE_MOD →
  holds (mkState (store p (slots_of l c) (heap s))
           (<[a := mkVector (Z.of_nat (length l)) (mkRawMemory p c)]> vs)
           r k lk t) a p c l.
Proof.
  intros Hb H0 Hc. destruct p as [|b o]; simpl in Hb.
  - apply slots_of_nil_inv in Hb as [_ ->]; [|done].
    destruct l; [|simpl in Hc; lia].
    pose proof SIZE_MOD_gt_1.
    repeat split; simpl; try lia. by rewrite lookup_insert_eq.
  - destruct Hb as [-> _]. by apply holds_store.
Qed.

(** C9: [Reserve(new_capacity)] with [new_capacity] at most the current
    capacity is a no-op: the run returns in the state it started from, so
    capacity, size, every element value and the block holding the slots are
    unchanged. *)
Theorem Reserve_within_capacity_is_no_op s a p c l new_capacity :
  holds s a p c l → new_capacity ≤ c →
  Reserve a new_capacity s = Ret tt s ∧ holds s a p c l.
Proof.
  intros Hh Hn. split; [|done]. destruct Hh as (Hv & _).
  by apply (Reserve_no_op_eq _ _ _ _ Hv).
Qed.

(** C10: copy self-assignment [v = v] is a no-op, for the guard
    [this != &rhs] skips the whole body: the run returns in the state it
    started from. *)
Theorem self_assignment_is_no_op s a : operator_assign a a s = Ret tt s.
Proof.
  unfold operator_assign. rewrite decide_False; [done|]. intros H. by apply H.
Qed.

(** C7: [Erase] at the position of [x] in [l1 ++ x :: l2] move-assigns each
    element of [l2] one slot to the left, destroys the last slot, and leaves
    the Sequence [l1 ++ l2] in the same block with the same capacity; the
    iterator returned is the position erased, which now refers to the first
    element of [l2] when there is one. *)
Theorem Erase_shifts_left s a p c l1 l2 (x : T) :
  holds s a p c (l1 ++ x :: l2) →
  ∃ s',
    Erase a (ptr_add p (Z.of_nat (length l1))) s =
      Ret (ptr_add p (Z.of_nat (length l1))) s' ∧
    holds s' a p c (l1 ++ l2) ∧
    trace s' =
      trace s ++
      events2 EvMoveAssign (length l2) (ptr_add p (Z.of_nat (length l1)))
        (ptr_add (ptr_add p (Z.of_nat (length l1))) 1) ++
      [EvDestroy (ptr_add p (Z.of_nat (length (l1 ++ l2))))] ∧
    (∀ y l2', l2 = y :: l2' →
       read (ptr_add p (Z.of_nat (length l1))) s' = Ret y s') ∧
    leaked s' = leaked s ∧
    copies_until_throw s' = copies_until_throw s.
Proof.
  intros Hh. pose proof Hh as (Hv & Hc & Hb).
  destruct (holds_nonempty_ptr _ _ _ _ _ Hh) as [b ->]; [by destruct l1|].
  rewrite length_app in Hc. simpl in Hc.
  eexists. split; [by eapply Erase_eq|]. simpl.
  split; [apply holds_store; rewrite length_app; lia|].
  split.
  { do 5 f_equal. rewrite !length_app. simpl. lia. }
  split; [|done].
  intros y l2' ->.
  eapply read_eq with (pre := map Obj l1); simpl.
  - rewrite lookup_insert_eq, slots_of_app. reflexivity.
  - rewrite length_map. lia.
Qed.

Lemma relocation_copies_pos n m :
  (m < relocation_copies n)%nat →
  is_nothrow_move_constructible || negb is_copy_constructible = false ∧ (m < n)%nat.
Proof. unfold relocation_copies. destruct (_ || _); [lia | done]. Qed.

Lemma holds_same_state s a p c l k t :
  holds s a p c l →
  holds (mkState (heap s) (vecs s) (raws s) k (leaked s) t) a p c l.
Proof. intros Hh. by eapply holds_frame. Qed.

(** C8: [Resize(new_size)], for a [new_size] whose [new_size * sizeof(T)]
    bytes are a [size_t], below the size destroys exactly the elements at
    the indices from [new_size] on and keeps the others in place; above the
    size it first reserves and then value-constructs the new trailing
    elements; in both directions the Sequence afterwards has [new_size]
    elements, and when the reservation throws the size is still the old
    one. *)
Theorem Resize_spec s a p c l new_size :
  holds s a p c l → 0 ≤ new_size ∧ new_size * sizeof_T < SIZE_MOD →
  (new_size ≤ Z.of_nat (length l) →
   ∃ s',
     Resize a new_size s = Ret tt s' ∧
     holds s' a p c (take (Z.to_nat new_size) l) ∧
     trace s' =
       trace s ++
       events1 EvDestroy (length l - Z.to_nat new_size) (ptr_add p new_size) ∧
     leaked s' = leaked s) ∧
  (Z.of_nat (length l) < new_size →
   budget_allows (copies_until_throw s)
     (if decide (c < new_size) then relocation_copies (length l) else 0) →
   ∃ s1 s' p',
     Reserve a new_size s = Ret tt s1 ∧
     holds s1 a p' (Z.max c new_size) l ∧
     Resize a new_size s = Ret tt s' ∧
     holds s' a p' (Z.max c new_size)
       (l ++ replicate (Z.to_nat new_size - length l) value_init) ∧
     trace s' =
       trace s1 ++
       events1 EvValueConstruct (Z.to_nat new_size - length l)
         (ptr_add p' (Z.of_nat (length l))) ∧
     leaked s' = leaked s) ∧
  (Z.of_nat (length l) < new_size → c < new_size →
   ∀ m, copies_until_throw s = Some m → (m < relocation_copies (length l))%nat →
   ∃ s', Resize a new_size s = Throw s' ∧ holds s' a p c l).
Proof.
  intros Hh Hn. pose proof Hh as (Hv & Hc & Hb).
  split; [|split].
  - intros Hle.
    pose proof (take_drop (Z.to_nat new_size) l) as Hl.
    assert (new_size = Z.of_nat (length (take (Z.to_nat new_size) l))) as Hn'
      by (rewrite length_take; lia).
    rewrite <- Hl in Hh.
    eexists. split; [by eapply Resize_shrink_eq|]. simpl.
    split; [| by rewrite length_drop].
    rewrite Hn' at 2. eapply holds_store_any; [exact Hb | lia |].
    rewrite length_take. lia.
  - intros Hlt Hk.
    set (k := (Z.to_nat new_size - length l)%nat).
    assert (new_size = Z.of_nat (length l + k)) as Hn' by lia.
    destruct (decide (c < new_size)) as [Hcn|Hcn].
    + rewrite Z.max_r by lia.
      eexists _, _, (Ptr (fresh (dom (heap s))) 0).
      split; [eapply Reserve_grow_eq; [done | lia | done]|].
      split; [apply holds_store; lia|].
      split; [eapply Resize_grow_realloc_eq; [done | done | lia | done]|]. simpl.
      split; [|split; [|done]].
      * rewrite Hn' at 2.
        replace (length l + k)%nat with (length (l ++ replicate k value_init))
          by (rewrite length_app, length_replicate; done).
        apply holds_store. rewrite length_app, length_replicate. lia.
      * rewrite <- !app_assoc. simpl. by rewrite <- ?app_assoc.
    + rewrite Z.max_l by lia.
      destruct (holds_ptr _ _ _ _ _ Hh) as [b ->]; [lia|].
      exists s. eexists _, (Ptr b 0).
      split; [apply (Reserve_no_op_eq _ _ _ _ Hv); simpl; lia|].
      split; [done|].
      split; [eapply Resize_grow_within_eq; try done; lia|]. simpl.
      split; [|done].
      rewrite Hn' at 1.
      replace (length l + k)%nat with (length (l ++ replicate k value_init))
        by (rewrite length_app, length_replicate; done).
      apply holds_store. rewrite length_app, length_replicate. lia.
  - intros Hlt Hcn m Hm Hml.
    apply relocation_copies_pos in Hml as [Hstr Hml].
    destruct (Reserve_throw_eq s a p c l new_size m) as [evs Hevs]; try done; [lia|].
    eexists. split.
    + unfold Resize. erewrite bind_Ret; [| by apply get_vec_eq]. simpl.
      rewrite decide_False by lia.
      rewrite bind_assoc. by rewrite (bind_Throw _ _ _ _ Hevs).
    + by apply holds_same_state.
Qed.

(** C5: [Emplace] at the position that splits the Sequence into [l1] and
    [l2] yields the Sequence [l1], the new element, [l2], and returns an
    iterator that refers to the new element; [Insert] is [Emplace] with a
    copy or a move of the value. *)
Theorem Emplace_inserts_in_order s a p c l1 l2 (args : ctor_args T) :
  holds s a p c (l1 ++ l2) →
  (c = Z.of_nat (length (l1 ++ l2)) → 2 * c * sizeof_T < SIZE_MOD) →
  budget_allows (copies_until_throw s)
    (args_copies args +
     (if decide (Z.of_nat (length (l1 ++ l2)) < c) then 0
      else relocation_copies (length (l1 ++ l2)))) →
  ∃ s' p',
    Emplace a (ptr_add p (Z.of_nat (length l1))) args s =
      Ret (ptr_add p' (Z.of_nat (length l1))) s' ∧
    holds s' a p' (capacity_after_emplace (Z.of_nat (length (l1 ++ l2))) c)
      (l1 ++ args_value args :: l2) ∧
    read (ptr_add p' (Z.of_nat (length l1))) s' = Ret (args_value args) s' ∧
    (∀ v pos, Insert a pos v = Emplace a pos (CopyOf v)) ∧
    (∀ v pos, Insert_rvalue a pos v = Emplace a pos (MoveOf v)).
Proof.
  intros Hh Hno Hk.
  destruct (Emplace_holds s a p c l1 l2 args Hh Hno Hk)
    as (s' & p' & HE & Hh' & _).
  exists s', p'. split; [done|]. split; [done|]. split; [|done].
  pose proof Hh' as (Hv & Hc & Hb).
  destruct (holds_nonempty_ptr _ _ _ _ _ Hh') as [b ->]; [by destruct l1|].
  destruct Hb as [_ Hb]. rewrite slots_of_app in Hb. simpl in Hb.
  eapply read_eq; [exact Hb|]. rewrite length_map. simpl. lia.
Qed.

(** C6: appending to a Sequence whose size equals its capacity allocates
    storage of capacity [max(1, 2 * size)], appending below the capacity
    keeps capacity and storage, and [PushBack] repeated from an empty
    Sequence leaves after [n] calls the least power of two that is at least
    [n] as capacity: 1, 2, 4, 8, ... *)
Theorem capacity_doubles_on_overflow s a p c l (args : ctor_args T)
    (xs : list (ctor_args T)) :
  holds s a p c l →
  (c = Z.of_nat (length l) → 2 * c * sizeof_T < SIZE_MOD) →
  budget_allows (copies_until_throw s)
    (args_copies args +
     (if decide (Z.of_nat (length l) < c) then 0 else relocation_copies (length l))) →
  (∃ s' p',
     PushBack a args s = Ret tt s' ∧
     holds s' a p'
       (if decide (Z.of_nat (length l) < c) then c
        else Z.max 1 (2 * Z.of_nat (length l)))
       (l ++ [args_value args]) ∧
     (Z.of_nat (length l) < c → p' = p)) ∧
  (l = [] → c = 0 → copies_until_throw s = None →
   2 * Z.of_nat (length xs) * sizeof_T < SIZE_MOD →
   ∃ s' p',
     push_all a xs s = Ret tt s' ∧
     holds s' a p' (pow2_ceil (Z.of_nat (length xs))) (map args_value xs)).
Proof.
  intros Hh Hno Hk. split.
  - destruct (PushBack_holds s a p c l args Hh Hno Hk) as (s' & p' & HP & Hh' & _ & Hp).
    by exists s', p'.
  - intros -> -> Hnone Hxs.
    destruct (push_all_holds xs s a p [] Hh Hnone Hxs) as (s' & p' & HA & Hh' & _).
    by exists s', p'.
Qed.

Lemma store_lookup_other p q (ls : list (slot T)) (h : gmap block (list (slot T))) b o :
  disjoint_blocks p q → q = Ptr b o → store p ls h !! b = h !! b.
Proof.
  intros Hd ->. destruct p as [|b' o']; simpl in *; [done|].
  by rewrite lookup_insert_ne.
Qed.

Lemma release_lookup_other p q (h : gmap block (list (slot T))) b o :
  disjoint_blocks p q → q = Ptr b o → release p h !! b = h !! b.
Proof.
  intros Hd ->. destruct p as [|b' o']; simpl in *; [done|].
  by rewrite lookup_delete_ne.
Qed.

(** C4: copy assignment [a = rhs] between distinct Sequences. When the
    elements of [rhs] fit the capacity of [a], it assigns over the common
    prefix, then destroys the trailing elements of [a] or copy-constructs
    the trailing elements of [rhs], in the storage of [a]; when a copy
    construction throws, the size of [a] is the one before the call.
    Otherwise it builds a copy of [rhs] and swaps it in, and a throwing
    copy construction leaves [a] and the heap as they were. In every
    completed run [a] holds the elements of [rhs], which is unchanged. *)
Theorem copy_assignment_spec s a r pa ca pr cr la lr :
  a ≠ r → holds s a pa ca la → holds s r pr cr lr → disjoint_blocks pa pr →
  (Z.of_nat (length lr) ≤ ca →
   (budget_allows (copies_until_throw s) (length lr - length la) →
    ∃ s',
      operator_assign a r s = Ret tt s' ∧
      holds s' a pa ca lr ∧ holds s' r pr cr lr ∧
      trace s' =
        trace s ++
        events2 EvCopyAssign (length la `min` length lr) pa pr ++
        (if decide (length lr < length la)%nat
         then events1 EvDestroy (length la - length lr)
                (ptr_add pa (Z.of_nat (length lr)))
         else events2 EvCopyConstruct (length lr - length la)
                (ptr_add pa (Z.of_nat (length la)))
                (ptr_add pr (Z.of_nat (length la)))) ∧
      leaked s' = leaked s) ∧
   (∀ m, copies_until_throw s = Some m → (m < length lr - length la)%nat →
    ∃ s',
      operator_assign a r s = Throw s' ∧
      holds s' a pa ca (take (length la) lr) ∧ holds s' r pr cr lr ∧
      leaked s' = leaked s)) ∧
  (ca < Z.of_nat (length lr) →
   (budget_allows (copies_until_throw s) (length lr) →
    ∃ s' p',
      operator_assign a r s = Ret tt s' ∧
      holds s' a p' (Z.of_nat (length lr)) lr ∧ holds s' r pr cr lr ∧
      leaked s' = leaked s) ∧
   (∀ m, copies_until_throw s = Some m → (m < length lr)%nat →
    ∃ s',
      operator_assign a r s = Throw s' ∧
      holds s' a pa ca la ∧ holds s' r pr cr lr ∧
      heap s' = heap s ∧ leaked s' = leaked s)).
Proof.
  intros Hne Ha Hr Hdis.
  pose proof Ha as (Hva & Hca & Hba). pose proof Hr as (Hvr & Hcr & Hbr).
  split; [intros Hfit; split | intros Hbig; split].
  - intros Hk. destruct (decide (length lr < length la)%nat) as [Hlt|Hge].
    + destruct (holds_nonempty_ptr _ _ _ _ _ Ha) as [ba ->];
        [destruct la; [simpl in Hlt; lia | done]|].
      assert (length (take (length lr) la) = length lr) as Hl1
        by (rewrite length_take; lia).
      assert (length (drop (length lr) la) = (length la - length lr)%nat) as Hl2
        by apply length_drop.
      pose proof Ha as Ha'. rewrite <- (take_drop (length lr) la) in Ha'.
      eexists. split.
      { eapply operator_assign_shrink_eq; try done.
        intros E. rewrite E in Hl2. simpl in Hl2. lia. }
      simpl. split; [apply holds_store; lia|].
      split.
      { eapply holds_frame; [exact Hr | |]; simpl.
        - by rewrite lookup_insert_ne.
        - intros b o ->. simpl in Hdis. by rewrite lookup_insert_ne. }
      split; [|done].
      by rewrite Nat.min_r, Hl2 by lia.
    + assert (length (take (length la) lr) = length la) as Hl1
        by (rewrite length_take; lia).
      assert (length (drop (length la) lr) = (length lr - length la)%nat) as Hl2
        by apply length_drop.
      pose proof Hr as Hr'. rewrite <- (take_drop (length la) lr) in Hr'.
      eexists. split.
      { eapply operator_assign_grow_eq; try done.
        - rewrite take_drop. lia.
        - by rewrite Hl2. }
      simpl. rewrite take_drop.
      split; [eapply holds_store_any; [exact Hba | lia | lia]|].
      split.
      { eapply holds_frame; [exact Hr | |]; simpl.
        - by rewrite lookup_insert_ne.
        - intros b o Hp. by eapply store_lookup_other. }
      split; [|done].
      by rewrite Nat.min_l, Hl2 by lia.
  - intros m Hm Hml.
    assert (length (take (length la) lr) = length la) as Hl1
      by (rewrite length_take; lia).
    assert (length (drop (length la) lr) = (length lr - length la)%nat) as Hl2
      by apply length_drop.
    pose proof Hr as Hr'. rewrite <- (take_drop (length la) lr) in Hr'.
    destruct (operator_assign_grow_throw s a r pa ca pr cr la
                (take (length la) lr) (drop (length la) lr) m)
      as [evs Hevs]; try done.
    { rewrite take_drop. lia. }
    { by rewrite Hl2. }
    eexists. split; [exact Hevs|]. simpl.
    split; [|split; [|done]].
    + assert (0 < ca) as Hpos by lia.
      destruct (holds_ptr _ _ _ _ _ Ha Hpos) as [ba ->].
      repeat split; simpl; try lia.
      * by rewrite Hl1.
      * by rewrite lookup_insert_eq.
    + eapply holds_frame; [exact Hr | done |]; simpl.
      intros b o Hp. by eapply store_lookup_other.
  - intros Hk.
    eexists _, (Ptr (fresh (dom (heap s))) 0). split.
    { by eapply operator_assign_realloc_eq. }
    simpl. split.
    { apply holds_store. pose proof Hr as (_ & Hcr' & _).
      split; [lia | eapply fits_le; [| apply Hcr']; lia]. }
    split; [|done].
    eapply holds_frame; [exact Hr | |]; simpl.
    + by rewrite lookup_insert_ne.
    + intros b o ->. destruct Hbr as [_ Hbr].
      rewrite lookup_insert_ne.
      * by eapply release_lookup_other.
      * intros <-. by rewrite fresh_block_None in Hbr.
  - intros m Hm Hml.
    destruct (operator_assign_realloc_throw s a r pa ca pr cr la lr m)
      as [evs Hevs]; try done.
    eexists. split; [exact Hevs|]. simpl.
    split; [by apply holds_same_state|].
    split; [by apply holds_same_state|]. done.
Qed.

(** X21: the reallocation of [Reserve], for a new capacity whose size in
    bytes is a [size_t], has the strong guarantee: when a copy construction
    throws, the Sequence, the heap and the live objects are those before
    the call. *)
Lemma Reserve_strong_guarantee s a p c l new_capacity m :
  holds s a p c l → c < new_capacity ∧ new_capacity * sizeof_T < SIZE_MOD →
  copies_until_throw s = Some m → (m < relocation_copies (length l))%nat →
  ∃ s',
    Reserve a new_capacity s = Throw s' ∧
    holds s' a p c l ∧
    heap s' = heap s ∧ vecs s' = vecs s ∧ leaked s' = leaked s.
Proof.
  intros Hh Hn Hm Hml.
  apply relocation_copies_pos in Hml as [Hstr Hml].
  destruct (Reserve_throw_eq s a p c l new_capacity m) as [evs Hevs]; try done.
  eexists. split; [exact Hevs|]. simpl.
  split; [by apply holds_same_state | done].
Qed.

Lemma live_values_app (x y : list (slot T)) :
  live_values (x ++ y) = live_values x ++ live_values y.
Proof. apply omap_app. Qed.

Lemma live_values_objs l : live_values (map Obj l) = l.
Proof. rewrite <- (app_nil_r (map Obj l)). apply (live_values_slots l 0). Qed.

(** X24: the reallocation of [Emplace] keeps the Sequence and the heap as
    they were when a relocating copy construction throws, but the elements
    that were constructed in the new storage and are outside the range of
    the copy that threw are released alive: the new element, and the
    relocated prefix when the copy of the suffix throws. *)
Lemma Emplace_realloc_throw_leaks s a p c l1 l2 (args : ctor_args T) m :
  holds s a p c (l1 ++ l2) →
  c = Z.of_nat (length (l1 ++ l2)) → 2 * c * sizeof_T < SIZE_MOD →
  is_nothrow_move_constructible || negb is_copy_constructible = false →
  copies_until_throw s = Some m →
  (args_copies args ≤ m < args_copies args + length (l1 ++ l2))%nat →
  ∃ s',
    Emplace a (ptr_add p (Z.of_nat (length l1))) args s = Throw s' ∧
    holds s' a p c (l1 ++ l2) ∧
    heap s' = heap s ∧ vecs s' = vecs s ∧
    leaked s' =
      leaked s ++
      (if decide (m - args_copies args < length l1)%nat then [] else l1) ++
      [args_value args].
Proof.
  intros Hh Hfull Hfit Hstr Hm Hml. pose proof Hh as (Hv & Hc & Hb).
  assert (2 * c < SIZE_MOD) as Hno by (apply fits_lt; [lia | done]).
  apply fits_growth in Hfit; [|lia].
  destruct (holds_nonempty_ptr _ _ _ _ _ Hh) as [b ->].
  { intros E. rewrite E in Hml. simpl in Hml. lia. }
  destruct Hb as [_ Hb]. rewrite slots_of_app in Hb.
  replace (Z.to_nat c - length (l1 ++ l2))%nat with O in Hb by lia.
  simpl in Hb. rewrite app_nil_r in Hb.
  rewrite length_app in Hml.
  assert (Z.of_nat (length l1) + Z.of_nat (length l2) = c) as Hlen
    by (rewrite Hfull, length_app; lia).
  pose proof (fresh_block_None (heap s)) as Hfresh.
  set (b' := fresh (dom (heap s))) in *.
  assert (b ≠ b') as Hne by (intros ->; congruence).
  set (c' := Z.max 1 (2 * c)) in *.
  remember (Z.to_nat c' - length (l1 ++ l2) - 1)%nat as r eqn:Hr.
  assert (Z.to_nat c' = (length l1 + S (length l2 + r))%nat)
    as Hc' by (rewrite Hr, length_app; lia).
  assert (0 < c') as Hc0 by lia.
  (* the state after the new element is constructed in the new storage *)
  set (s2 := mkState
    (<[b' := replicate (length l1) Raw ++
             Obj (args_value args) :: replicate (length l2 + r) Raw]>
       (<[b' := replicate (Z.to_nat c') Raw]> (heap s)))
    (vecs s) (raws s) (Some (m - args_copies args)%nat) (leaked s)
    ((trace s ++ [EvAllocate b' c']) ++
     [EvConstruct (Ptr b' (0 + Z.of_nat (length l1)))])).
  assert (∃ evs leak h',
    (uninitialized_copy_n (Ptr b 0) (Z.of_nat (length l1)) (Ptr b' 0);;
     uninitialized_copy_n (Ptr b (0 + Z.of_nat (length l1))) (Z.of_nat (length l2))
       (Ptr b' (0 + Z.of_nat (length l1) + 1))) s2 =
    Throw (mkState h' (vecs s) (raws s) None (leaked s) (trace s ++ evs)) ∧
    h' !! b' = Some leak ∧ (∀ i, i ≠ b' → h' !! i = heap s !! i) ∧
    live_values leak =
      (if decide (m - args_copies args < length l1)%nat then [] else l1) ++
      [args_value args]) as (evs & leak & h' & Hrun & Hh' & Hframe & Hleak).
  { destruct (decide (m - args_copies args < length l1)%nat) as [Hpre|Hsuf].
    - destruct (uninitialized_copy_loop_throw l1 s2 b b' [] (map Obj l2) [] []
                  (Obj (args_value args) :: replicate (length l2 + r) Raw) 0
                  (m - args_copies args)) as [evs Hevs]; simpl; try done.
      { rewrite !lookup_insert_ne by done. exact Hb. }
      { by rewrite lookup_insert_eq. }
      simpl in Hevs. eexists _, _, _. split; [|split; [|split]].
      + erewrite bind_Throw; [| unfold uninitialized_copy_n; rewrite Nat2Z.id; exact Hevs].
        rewrite <- !app_assoc. reflexivity.
      + by rewrite lookup_insert_eq.
      + intros i Hi. by rewrite !lookup_insert_ne.
      + rewrite live_values_app, live_values_replicate. simpl.
        fold (live_values (replicate (length l2 + r) (Raw (T:=T)))).
        by rewrite live_values_replicate.
    - destruct (uninitialized_copy_loop_throw l2
                  (mkState
                     (<[b' := map Obj l1 ++
                              Obj (args_value args) :: replicate (length l2 + r) Raw]>
                        (heap s2))
                     (vecs s) (raws s)
                     (Some (m - args_copies args - length l1)%nat) (leaked s)
                     (trace s2 ++
                      events2 EvCopyConstruct (length l1) (Ptr b' 0) (Ptr b 0)))
                  b b' (map Obj l1) [] (map Obj l1 ++ [Obj (args_value args)]) []
                  (replicate r Raw) (0 + Z.of_nat (length l1))
                  (m - args_copies args - length l1)) as [evs Hevs]; simpl; try done.
      { rewrite !lookup_insert_ne by done. by rewrite app_nil_r. }
      { rewrite lookup_insert_eq, <- app_assoc, replicate_add. reflexivity. }
      { rewrite length_map. lia. }
      { lia. }
      simpl in Hevs. rewrite Nat.add_0_r, length_app, length_map in Hevs.
      simpl in Hevs.
      eexists _, _, _. split; [|split; [|split]].
      + erewrite bind_Ret.
        2:{ unfold uninitialized_copy_n. rewrite Nat2Z.id.
            eapply uninitialized_copy_loop_eq with (pre_s := []) (pre_d := [])
              (post_s := map Obj l2); simpl; try done; try lia.
            - rewrite !lookup_insert_ne by done. exact Hb.
            - by rewrite lookup_insert_eq. }
        simpl. unfold uninitialized_copy_n. rewrite Nat2Z.id.
        replace (0 + Z.of_nat (length l1) + 1) with (Z.of_nat (length l1 + 1)) by lia.
        rewrite Hevs. rewrite <- !app_assoc. reflexivity.
      + by rewrite lookup_insert_eq.
      + intros i Hi. by rewrite !lookup_insert_ne.
      + rewrite !live_values_app, live_values_objs. simpl.
        by rewrite !live_values_replicate. }
  eexists. split.
  - unfold Emplace.
    erewrite bind_Ret; [| by apply get_vec_eq].
    erewrite bind_Ret; [| by apply Capacity_eq]. simpl.
    rewrite decide_False by lia.
    unfold RealocationEmplace.
    erewrite bind_Ret; [| by apply begin__eq]. simpl.
    rewrite decide_True by done.
    replace (size_t (0 + Z.of_nat (length l1) - 0)) with (Z.of_nat (length l1))
      by (rewrite size_t_small; lia).
    erewrite bind_Ret; [| by apply get_vec_eq]. simpl.
    rewrite growth_capacity by lia. rewrite <- Hfull. fold c'.
    rewrite (bind_Ret _ _ _ _ _ (RawMemory_new_eq _ _ Hc0 Hfit)). fold b'.
    rewrite size_t_small by lia.
    replace (c - Z.of_nat (length l1)) with (Z.of_nat (length l2)) by lia.
    rewrite Hstr.
    erewrite bind_Throw; [reflexivity|].
    eapply catch_Throw.
    + erewrite bind_Ret; [| apply RawMemory_plus_eq; simpl; lia]. simpl.
      erewrite bind_Ret.
      2:{ eapply construct_at_eq with (pre := replicate (length l1) Raw)
            (post := replicate (length l2 + r) Raw); simpl.
          - rewrite lookup_insert_eq, Hc', replicate_add. reflexivity.
          - rewrite length_replicate. lia.
          - rewrite Hm. simpl. lia. }
      simpl. rewrite Hm. simpl. exact Hrun.
    + unfold RawMemory_delete. simpl.
      erewrite Deallocate_eq; [| simpl; exact Hh'].
      reflexivity.
  - simpl. rewrite Hleak.
    assert (delete b' h' = heap s) as ->.
    { apply map_eq; intros i. destruct (decide (i = b')) as [->|Hi].
      - by rewrite lookup_delete_eq.
      - rewrite lookup_delete_ne by done. by apply Hframe. }
    split; [|done]. by eapply holds_frame.
Qed.

(** What the moves of [RawMemory] do to their source: the move
    constructor resets its handle and keeps its capacity; the move
    assignment between distinct objects releases the block of the target
    and leaves the source as it was. *)
Lemma get_raw_eq s a (r : RawMemory) : raws s !! a = Some r → get_raw a s = Ret r s.
Proof. intros E. unfold get_raw. by rewrite E. Qed.

Lemma put_raw_eq s a (r : RawMemory) :
  put_raw a r s =
  Ret tt (mkState (heap s) (vecs s) (<[a := r]> (raws s)) (copies_until_throw s)
            (leaked s) (trace s)).
Proof. reflexivity. Qed.

(** X2: the move constructor of [RawMemory] gives the new owner the handle
    and the capacity of its source and resets the handle of the source to
    null, while the source keeps its capacity; the heap is not touched. *)
Lemma RawMemory_move_ctor_eq s this other (r : RawMemory) :
  raws s !! other = Some r → this ≠ other →
  RawMemory_move_ctor this other s =
  Ret tt (mkState (heap s) (vecs s)
            (<[other := mkRawMemory nullptr (capacity_ r)]> (<[this := r]> (raws s)))
            (copies_until_throw s) (leaked s) (trace s)).
Proof.
  intros Hr Hne. unfold RawMemory_move_ctor.
  rewrite (bind_Ret _ _ _ _ _ (get_raw_eq _ _ _ Hr)).
  rewrite (bind_Ret _ _ _ _ _ (put_raw_eq _ _ _)).
  erewrite bind_Ret; [| apply get_raw_eq; simpl; by rewrite lookup_insert_ne].
  rewrite put_raw_eq. simpl. by destruct r.
Qed.

(** X3: the move assignment of [RawMemory] between distinct owners
    releases the block of the target, objects still alive in it included,
    and gives the target the handle and the capacity of the source; the
    source is left as it was. *)
Lemma RawMemory_move_assign_eq s this rhs b c (r : RawMemory) ls :
  raws s !! this = Some (mkRawMemory (Ptr b 0) c) → raws s !! rhs = Some r →
  this ≠ rhs → heap s !! b = Some ls →
  RawMemory_move_assign this rhs s =
  Ret tt (mkState (delete b (heap s)) (vecs s) (<[this := r]> (raws s))
            (copies_until_throw s) (leaked s ++ live_values ls)
            (trace s ++ [EvDeallocate b])).
Proof.
  intros Ht Hr Hne Hb. unfold RawMemory_move_assign.
  rewrite decide_True by done.
  rewrite (bind_Ret _ _ _ _ _ (get_raw_eq _ _ _ Ht)). simpl.
  rewrite (bind_Ret _ _ _ _ _ (Deallocate_eq _ _ _ Hb)).
  erewrite bind_Ret; [| by apply get_raw_eq].
  rewrite put_raw_eq. simpl. by destruct r.
Qed.

End Properties.

(** * Runs that witness the theorems *)

Lemma Reserve_within_capacity_is_no_op_witness :
  holds (sequence_state 1 1 4 [10; 20] None) 1 (Ptr 1 0) 4 [10; 20] ∧
  @Reserve Z copy_relocated 1 2 (sequence_state 1 1 4 [10; 20] None) =
    Ret tt (sequence_state 1 1 4 [10; 20] None).
Proof.
  assert (holds (sequence_state 1 1 4 [10; 20] None) 1 (Ptr 1 0) 4 [10; 20]) as H
    by solve_holds.
  split; [exact H|].
  apply (Reserve_within_capacity_is_no_op (Element0 := copy_relocated) _ _ _ _ _ 2 H).
  lia.
Defined.

(** [Erase] at index 1 of [1, 2, 3, 4]. *)
Lemma Erase_shifts_left_witness :
  ∃ s',
    @Erase Z copy_relocated 1 (Ptr 1 1) (sequence_state 1 1 4 [1; 2; 3; 4] None) =
      Ret (Ptr 1 1) s' ∧
    holds s' 1 (Ptr 1 0) 4 [1; 3; 4] ∧
    @read Z (Ptr 1 1) s' = Ret 3 s' ∧
    trace s' =
      [EvMoveAssign (Ptr 1 1) (Ptr 1 2); EvMoveAssign (Ptr 1 2) (Ptr 1 3);
       EvDestroy (Ptr 1 3)].
Proof.
  destruct (Erase_shifts_left (Element0 := copy_relocated)
              (sequence_state 1 1 4 [1; 2; 3; 4] None) 1 (Ptr 1 0) 4 [1] [3; 4] 2)
    as (s' & HE & Hh & Ht & Hr & _).
  { solve_holds. }
  exists s'. split; [exact HE|]. split; [exact Hh|].
  split; [exact (Hr 3 [4] eq_refl) | exact Ht].
Defined.

(** [Resize(2)] on a Sequence of 4 elements and [Resize(6)] on one of 2. *)
Lemma Resize_spec_witness :
  (∃ s',
     @Resize Z copy_relocated 1 2 (sequence_state 1 1 4 [1; 2; 3; 4] None) = Ret tt s' ∧
     holds s' 1 (Ptr 1 0) 4 [1; 2] ∧
     trace s' = [EvDestroy (Ptr 1 2); EvDestroy (Ptr 1 3)]) ∧
  (∃ s' p',
     @Resize Z copy_relocated 1 6 (sequence_state 1 1 2 [1; 2] None) = Ret tt s' ∧
     holds s' 1 p' 6 [1; 2; 0; 0; 0; 0]).
Proof.
  split.
  - destruct (Resize_spec (Element0 := copy_relocated)
                (sequence_state 1 1 4 [1; 2; 3; 4] None) 1 (Ptr 1 0) 4 [1; 2; 3; 4] 2)
      as (H & _ & _).
    { solve_holds. }
    { solve_bound. }
    destruct H as (s' & HR & Hh & Ht & _); [simpl; lia|].
    exists s'. split; [exact HR|]. split; [exact Hh | exact Ht].
  - destruct (Resize_spec (Element0 := copy_relocated)
                (sequence_state 1 1 2 [1; 2] None) 1 (Ptr 1 0) 2 [1; 2] 6)
      as (_ & H & _).
    { solve_holds. }
    { solve_bound. }
    destruct H as (s1 & s' & p' & _ & _ & HR & Hh & _); [simpl; lia | exact I |].
    exists s', p'. split; [exact HR | exact Hh].
Defined.

(** [Insert] of 3 at index 2 of [1, 2, 4], within the capacity and at
    full capacity. *)
Lemma Emplace_inserts_in_order_witness :
  (∃ s' p',
     @Insert Z copy_relocated 1 (Ptr 1 2) 3 (sequence_state 1 1 4 [1; 2; 4] None) =
       Ret (ptr_add p' 2) s' ∧
     holds s' 1 p' 4 [1; 2; 3; 4] ∧
     @read Z (ptr_add p' 2) s' = Ret 3 s') ∧
  (∃ s' p',
     @Insert Z copy_relocated 1 (Ptr 1 2) 3 (sequence_state 1 1 3 [1; 2; 4] None) =
       Ret (ptr_add p' 2) s' ∧
     holds s' 1 p' 6 [1; 2; 3; 4] ∧
     @read Z (ptr_add p' 2) s' = Ret 3 s').
Proof.
  split.
  - destruct (Emplace_inserts_in_order (Element0 := copy_relocated)
                (sequence_state 1 1 4 [1; 2; 4] None) 1 (Ptr 1 0) 4 [1; 2] [4] (CopyOf 3))
      as (s' & p' & HE & Hh & Hr & _).
    { solve_holds. }
    { intros _. solve_bound. }
    { exact I. }
    exists s', p'. split; [exact HE|]. split; [exact Hh | exact Hr].
  - destruct (Emplace_inserts_in_order (Element0 := copy_relocated)
                (sequence_state 1 1 3 [1; 2; 4] None) 1 (Ptr 1 0) 3 [1; 2] [4] (CopyOf 3))
      as (s' & p' & HE & Hh & Hr & _).
    { solve_holds. }
    { intros _. solve_bound. }
    { exact I. }
    exists s', p'. split; [exact HE|]. split; [exact Hh | exact Hr].
Defined.

(** [PushBack] on a full Sequence of 2 elements, and 5 calls of [PushBack]
    from an empty Sequence. *)
Lemma capacity_doubles_on_overflow_witness :
  (∃ s' p',
     @PushBack Z copy_relocated 1 (CopyOf 3) (sequence_state 1 1 2 [1; 2] None) =
       Ret tt s' ∧
     holds s' 1 p' 4 [1; 2; 3]) ∧
  (∃ s' p',
     @push_all Z copy_relocated 1 [Args 1; Args 2; Args 3; Args 4; Args 5]
       (empty_sequence_state 1 None) = Ret tt s' ∧
     holds s' 1 p' 8 [1; 2; 3; 4; 5]) ∧
  map pow2_ceil [1; 2; 3; 4; 5; 8; 9] = [1; 2; 4; 4; 8; 8; 16].
Proof.
  split; [|split; [|reflexivity]].
  - destruct (capacity_doubles_on_overflow (Element0 := copy_relocated)
                (sequence_state 1 1 2 [1; 2] None) 1 (Ptr 1 0) 2 [1; 2] (CopyOf 3) [])
      as ((s' & p' & HP & Hh & _) & _).
    { solve_holds. }
    { intros _. solve_bound. }
    { exact I. }
    exists s', p'. split; [exact HP | exact Hh].
  - destruct (capacity_doubles_on_overflow (Element0 := copy_relocated)
                (empty_sequence_state 1 None) 1 nullptr 0 [] (Args 1)
                [Args 1; Args 2; Args 3; Args 4; Args 5])
      as (_ & H).
    { solve_holds. }
    { intros _. solve_bound. }
    { exact I. }
    destruct H as (s' & p' & HA & Hh); [reflexivity | reflexivity | reflexivity | |].
    { solve_bound. }
    exists s', p'. split; [exact HA | exact Hh].
Defined.

(** Copy assignment of [7, 8] to a Sequence of 3 elements and capacity 4,
    of [7, 8, 9] to a Sequence of 1 element and capacity 4, and of [7, 8] to
    a Sequence of capacity 1. *)
Lemma copy_assignment_spec_witness :
  (∃ s',
     @operator_assign Z copy_relocated 1 2 (two_sequences_state 4 [1; 2; 3] 2 [7; 8] None) = Ret tt s' ∧
     holds s' 1 (Ptr 1 0) 4 [7; 8] ∧ holds s' 2 (Ptr 2 0) 2 [7; 8] ∧
     trace s' =
       [EvCopyAssign (Ptr 1 0) (Ptr 2 0); EvCopyAssign (Ptr 1 1) (Ptr 2 1);
        EvDestroy (Ptr 1 2)]) ∧
  (∃ s',
     @operator_assign Z copy_relocated 1 2 (two_sequences_state 4 [1] 3 [7; 8; 9] None) = Ret tt s' ∧
     holds s' 1 (Ptr 1 0) 4 [7; 8; 9] ∧ holds s' 2 (Ptr 2 0) 3 [7; 8; 9] ∧
     trace s' =
       [EvCopyAssign (Ptr 1 0) (Ptr 2 0); EvCopyConstruct (Ptr 1 1) (Ptr 2 1);
        EvCopyConstruct (Ptr 1 2) (Ptr 2 2)]) ∧
  (∃ s',
     @operator_assign Z copy_relocated 1 2 (two_sequences_state 4 [1] 3 [7; 8; 9] (Some 1%nat)) =
       Throw s' ∧
     holds s' 1 (Ptr 1 0) 4 [7] ∧ holds s' 2 (Ptr 2 0) 3 [7; 8; 9]) ∧
  (∃ s' p',
     @operator_assign Z copy_relocated 1 2 (two_sequences_state 1 [1] 2 [7; 8] None) = Ret tt s' ∧
     holds s' 1 p' 2 [7; 8] ∧ holds s' 2 (Ptr 2 0) 2 [7; 8]) ∧
  (∃ s',
     @operator_assign Z copy_relocated 1 2 (two_sequences_state 1 [1] 2 [7; 8] (Some 1%nat)) = Throw s' ∧
     holds s' 1 (Ptr 1 0) 1 [1] ∧ holds s' 2 (Ptr 2 0) 2 [7; 8] ∧ leaked s' = []).
Proof.
  split; [|split; [|split; [|split]]].
  - destruct (copy_assignment_spec (two_sequences_state 4 [1; 2; 3] 2 [7; 8] None)
                1 2 (Ptr 1 0) 4 (Ptr 2 0) 2 [1; 2; 3] [7; 8])
      as ((H & _) & _); [done | solve_holds | solve_holds | done | simpl; lia |].
    destruct H as (s' & HA & H1 & H2 & Ht & _); [exact I|].
    exists s'. split; [exact HA|]. split; [exact H1|]. split; [exact H2 | exact Ht].
  - destruct (copy_assignment_spec (two_sequences_state 4 [1] 3 [7; 8; 9] None)
                1 2 (Ptr 1 0) 4 (Ptr 2 0) 3 [1] [7; 8; 9])
      as ((H & _) & _); [done | solve_holds | solve_holds | done | simpl; lia |].
    destruct H as (s' & HA & H1 & H2 & Ht & _); [exact I|].
    exists s'. split; [exact HA|]. split; [exact H1|]. split; [exact H2 | exact Ht].
  - destruct (copy_assignment_spec (two_sequences_state 4 [1] 3 [7; 8; 9] (Some 1%nat))
                1 2 (Ptr 1 0) 4 (Ptr 2 0) 3 [1] [7; 8; 9])
      as ((_ & H) & _); [done | solve_holds | solve_holds | done | simpl; lia |].
    destruct (H 1%nat eq_refl) as (s' & HA & H1 & H2 & _); [simpl; lia|].
    exists s'. split; [exact HA|]. split; [exact H1 | exact H2].
  - destruct (copy_assignment_spec (two_sequences_state 1 [1] 2 [7; 8] None)
                1 2 (Ptr 1 0) 1 (Ptr 2 0) 2 [1] [7; 8])
      as (_ & H); [done | solve_holds | solve_holds | done |].
    destruct H as ((s' & p' & HA & H1 & H2 & _) & _); [simpl; lia | exact I |].
    exists s', p'. split; [exact HA|]. split; [exact H1 | exact H2].
  - destruct (copy_assignment_spec (two_sequences_state 1 [1] 2 [7; 8] (Some 1%nat))
                1 2 (Ptr 1 0) 1 (Ptr 2 0) 2 [1] [7; 8])
      as (_ & H); [done | solve_holds | solve_holds | done |].
    destruct H as (_ & H); [simpl; lia|].
    destruct (H 1%nat eq_refl) as (s' & HA & H1 & H2 & _ & Hl); [simpl; lia|].
    exists s'. split; [exact HA|]. split; [exact H1|]. split; [exact H2 | exact Hl].
Defined.

(** * Where the code departs from the specification *)

(** C1: a throwing copy constructor during the reallocation of [PushBack]
    or [Insert] leaves the Sequence as it was, yet elements already
    constructed in the new storage are never destroyed. With an element
    type relocated by copy whose copy constructor throws on its second
    invocation, [PushBack] of a copy of 20 on the full Sequence [10] throws
    and releases the new storage with the new element alive; when the copy
    constructor throws on its third invocation, [Insert] of 20 at index 1 of
    the full Sequence [10, 11] also leaks the relocated copy of 10. *)
Theorem reallocating_Emplace_leaks_on_throwing_copy :
  (∃ s',
     @PushBack Z copy_relocated 1 (CopyOf 20) (sequence_state 1 1 1 [10] (Some 1%nat)) =
       Throw s' ∧
     holds s' 1 (Ptr 1 0) 1 [10] ∧
     leaked s' = [20]) ∧
  (∃ s',
     @Insert Z copy_relocated 1 (Ptr 1 1) 20 (sequence_state 1 1 2 [10; 11] (Some 2%nat)) =
       Throw s' ∧
     holds s' 1 (Ptr 1 0) 2 [10; 11] ∧
     leaked s' = [10; 20]).
Proof.
  split.
  - eexists. split; [vm_compute; reflexivity|].
    split; [solve_holds | reflexivity].
  - eexists. split; [vm_compute; reflexivity|].
    split; [solve_holds | reflexivity].
Qed.

(** C3: [Reserve] and the reallocating [Emplace] select the relocation by
    the same rule, but they do not relocate alike. On the full Sequence
    [1, 2], both copy-construct the elements into the new storage when the
    move constructor of the element type may throw and move-construct them
    when it does not, and both leave the elements in their order in the
    new storage. When the copy constructor throws on its second invocation,
    [Reserve(5)] destroys the copy it made before it releases the new
    storage, whereas [Emplace] of 9 at index 1 releases the new storage with
    the new element and the copy of 1 still alive. *)
Theorem relocation_sites_differ_on_throwing_copy :
  (∃ s1 s2 it,
     @Reserve Z copy_relocated 1 5 (sequence_state 1 1 2 [1; 2] None) = Ret tt s1 ∧
     @holds Z copy_relocated s1 1 (Ptr 2 0) 5 [1; 2] ∧
     trace s1 =
       [EvAllocate 2 5; EvCopyConstruct (Ptr 2 0) (Ptr 1 0);
        EvCopyConstruct (Ptr 2 1) (Ptr 1 1);
        EvDestroy (Ptr 1 0); EvDestroy (Ptr 1 1); EvDeallocate 1] ∧
     @Emplace Z copy_relocated 1 (Ptr 1 1) (Args 9) (sequence_state 1 1 2 [1; 2] None) =
       Ret it s2 ∧
     @holds Z copy_relocated s2 1 (Ptr 2 0) 4 [1; 9; 2] ∧
     trace s2 =
       [EvAllocate 2 4; EvConstruct (Ptr 2 1); EvCopyConstruct (Ptr 2 0) (Ptr 1 0);
        EvCopyConstruct (Ptr 2 2) (Ptr 1 1);
        EvDestroy (Ptr 1 0); EvDestroy (Ptr 1 1); EvDeallocate 1]) ∧
  (∃ s1 s2 it,
     @Reserve Z nothrow_movable 1 5 (sequence_state 1 1 2 [1; 2] None) = Ret tt s1 ∧
     @holds Z nothrow_movable s1 1 (Ptr 2 0) 5 [1; 2] ∧
     trace s1 =
       [EvAllocate 2 5; EvMoveConstruct (Ptr 2 0) (Ptr 1 0);
        EvMoveConstruct (Ptr 2 1) (Ptr 1 1);
        EvDestroy (Ptr 1 0); EvDestroy (Ptr 1 1); EvDeallocate 1] ∧
     @Emplace Z nothrow_movable 1 (Ptr 1 1) (Args 9) (sequence_state 1 1 2 [1; 2] None) =
       Ret it s2 ∧
     @holds Z nothrow_movable s2 1 (Ptr 2 0) 4 [1; 9; 2] ∧
     trace s2 =
       [EvAllocate 2 4; EvConstruct (Ptr 2 1); EvMoveConstruct (Ptr 2 0) (Ptr 1 0);
        EvMoveConstruct (Ptr 2 2) (Ptr 1 1);
        EvDestroy (Ptr 1 0); EvDestroy (Ptr 1 1); EvDeallocate 1]) ∧
  (∃ s1 s2,
     @Reserve Z copy_relocated 1 5 (sequence_state 1 1 2 [1; 2] (Some 1%nat)) =
       Throw s1 ∧
     heap s1 = heap (sequence_state 1 1 2 [1; 2] (Some 1%nat)) ∧
     leaked s1 = [] ∧
     @Emplace Z copy_relocated 1 (Ptr 1 1) (Args 9)
       (sequence_state 1 1 2 [1; 2] (Some 1%nat)) = Throw s2 ∧
     heap s2 = heap (sequence_state 1 1 2 [1; 2] (Some 1%nat)) ∧
     leaked s2 = [1; 9]).
Proof.
  split; [|split].
  - eexists _, _, _. split; [vm_compute; reflexivity|].
    split; [solve_holds|]. split; [reflexivity|].
    split; [vm_compute; reflexivity|].
    split; [solve_holds | reflexivity].
  - eexists _, _, _. split; [vm_compute; reflexivity|].
    split; [solve_holds|]. split; [reflexivity|].
    split; [vm_compute; reflexivity|].
    split; [solve_holds | reflexivity].
  - eexists _, _. split; [vm_compute; reflexivity|].
    split; [reflexivity|]. split; [reflexivity|].
    split; [vm_compute; reflexivity|].
    split; reflexivity.
Qed.

(** C2: the moves of [RawMemory] do not leave their source empty. After
    move construction from the owner of a block of 3 slots, the source has
    a null handle but still capacity 3. After move assignment between two
    distinct owners, the source keeps both its handle and its capacity, so
    that two owners refer to the same block, and destroying both releases
    that block twice. *)
Theorem RawMemory_moves_leave_source_owning :
  (∃ s',
     @RawMemory_move_ctor Z 3 1 two_owners_state = Ret tt s' ∧
     raws s' !! 3%positive = Some (mkRawMemory (Ptr 1 0) 3) ∧
     raws s' !! 1%positive = Some (mkRawMemory nullptr 3)) ∧
  (∃ s',
     @RawMemory_move_assign Z 2 1 two_owners_state = Ret tt s' ∧
     raws s' !! 2%positive = Some (mkRawMemory (Ptr 1 0) 3) ∧
     raws s' !! 1%positive = Some (mkRawMemory (Ptr 1 0) 3) ∧
     (@RawMemory_dtor Z 2;; @RawMemory_dtor Z 1) s' = Fault).
Proof.
  split.
  - eexists. split; [vm_compute; reflexivity|]. split; reflexivity.
  - eexists. split; [vm_compute; reflexivity|]. repeat split; reflexivity.
Qed.

(** * A size in bytes beyond [size_t] *)

(** Where the product wraps around: for an element type of 8 bytes,
    [Reserve(2^61)] asks [operator new] for 0 bytes; it returns normally and
    reports the capacity 2^61 over a block that has room for no element,
    and the next [PushBack] constructs its element outside the block. *)
Lemma Reserve_beyond_size_t_wraps_around :
  ∃ s',
    @Reserve Z copy_relocated 1 (2 ^ 61) (empty_sequence_state 1 None) = Ret tt s' ∧
    @Capacity Z 1 s' = Ret (2 ^ 61) s' ∧
    heap s' = {[ 1%positive := [] ]} ∧
    @PushBack Z copy_relocated 1 (Args 7) s' = Fault.
Proof.
  eexists. split; [vm_compute; reflexivity|].
  split; [reflexivity|]. split; [reflexivity|]. vm_compute. reflexivity.
Qed.

(** * Further properties of the code *)

Section Further.
Context {T : Type} `{!Element T}.
Implicit Types (s : state T) (l : list T).

(** ** Steps of the runs, and the Sequence with the rest of the heap *)

Lemma holds_read s a p c l i x :
  holds s a p c l → l !! i = Some x →
  read (ptr_add p (Z.of_nat i)) s = Ret x s.
Proof.
  intros Hh Hi.
  destruct (holds_nonempty_ptr _ _ _ _ _ Hh) as [b ->]; [by intros ->|].
  destruct Hh as (_ & _ & _ & Hb).
  pose proof (lookup_lt_Some _ _ _ Hi) as Hlt.
  apply take_drop_middle in Hi. rewrite <- Hi, slots_of_app in Hb. simpl in Hb.
  eapply read_eq; [exact Hb|]. rewrite length_map, length_take. simpl. lia.
Qed.

Lemma Vector_at_eq s a p c l i :
  holds s a p c l → i < Z.of_nat (length l) →
  Vector_at a i s = Ret (ptr_add p i) s.
Proof.
  intros (Hv & Hc & _) Hi. unfold Vector_at.
  erewrite bind_Ret; [| by apply get_vec_eq]. simpl.
  unfold assert. rewrite bool_decide_eq_true_2 by done.
  rewrite run_bind, run_ret. apply RawMemory_at_eq. simpl. lia.
Qed.

Lemma put_vec_eq s a (v : Vector) :
  put_vec a v s =
  Ret tt (mkState (heap s) (<[a := v]> (vecs s)) (raws s) (copies_until_throw s)
            (leaked s) (trace s)).
Proof. reflexivity. Qed.

Lemma release_store_absent p (x : list (slot T)) (h0 : gmap block (list (slot T))) :
  absent p h0 → release p (store p x h0) = h0.
Proof.
  destruct p as [|b o]; simpl; [done|]. intros Hb.
  by rewrite delete_insert_eq, delete_id.
Qed.

Lemma owns_in_place s a p c l h0 l' n r k lk t :
  owns s a p c l h0 → n = Z.of_nat (length l') → n ≤ c →
  owns (mkState (store p (slots_of l' c) (heap s))
          (<[a := mkVector n (mkRawMemory p c)]> (vecs s)) r k lk t) a p c l' h0.
Proof.
  intros (Hh & Hheap & Habs) -> Hl. pose proof Hh as (_ & Hc & Hb).
  split; [|split; [|done]].
  - eapply holds_store_any; [exact Hb | lia | lia].
  - simpl. rewrite Hheap. destruct p as [|b o]; simpl; [done|].
    by rewrite insert_insert_eq.
Qed.

Lemma owns_fresh s a p c l h0 l' n c' r k lk t :
  owns s a p c l h0 → n = Z.of_nat (length l') →
  n ≤ c' ∧ c' * sizeof_T < SIZE_MOD →
  owns (mkState (<[fresh (dom (heap s)) := slots_of l' c']> (release p (heap s)))
          (<[a := mkVector n (mkRawMemory (Ptr (fresh (dom (heap s))) 0) c')]> (vecs s))
          r k lk t) a (Ptr (fresh (dom (heap s))) 0) c' l' h0.
Proof.
  intros (Hh & Hheap & Habs) -> Hl.
  split; [by apply holds_store|]. simpl.
  pose proof (fresh_block_None (heap s)) as Hf.
  rewrite Hheap at 2. rewrite release_store_absent by done.
  split; [done|].
  generalize dependent (fresh (dom (heap s))). intros f Hf.
  rewrite Hheap in Hf. destruct p as [|b o]; simpl in *; [done|].
  destruct (decide (f = b)) as [E|E].
  - rewrite E, lookup_insert_eq in Hf. done.
  - by rewrite lookup_insert_ne in Hf.
Qed.

Lemma PopBack_eq s a b c l x :
  holds s a (Ptr b 0) c (l ++ [x]) →
  PopBack a s =
  Ret tt (mkState (<[b := slots_of l c]> (heap s))
            (<[a := mkVector (Z.of_nat (length l)) (mkRawMemory (Ptr b 0) c)]> (vecs s))
            (raws s) (copies_until_throw s) (leaked s)
            (trace s ++ [EvDestroy (Ptr b (Z.of_nat (length l)))])).
Proof.
  intros (Hv & Hc & _ & Hb). rewrite length_app in *. simpl in *.
  unfold PopBack.
  erewrite bind_Ret; [| by apply get_vec_eq]. simpl.
  erewrite bind_Ret; [| by eapply set_size__eq]. simpl.
  erewrite bind_Ret; [| apply get_vec_eq; simpl; apply lookup_insert_eq]. simpl.
  rewrite size_t_small by lia.
  replace (0 + (Z.of_nat (length l + 1) - 1)) with (Z.of_nat (length l)) by lia.
  rewrite slots_of_app in Hb. simpl in Hb.
  erewrite destroy_at_eq; [| exact Hb | by rewrite length_map]. simpl.
  replace (Z.of_nat (length l + 1) - 1) with (Z.of_nat (length l)) by lia.
  rewrite (slots_of_cons_raw l c) by lia.
  rewrite length_app. simpl.
  by replace (Z.to_nat c - (length l + 1))%nat with (Z.to_nat c - length l - 1)%nat by lia.
Qed.

Lemma Vector_copy_ctor_owns s this other p c l :
  holds s other p c l →
  budget_allows (copies_until_throw s) (length l) →
  ∃ s' p',
    Vector_copy_ctor this other s = Ret tt s' ∧
    owns s' this p' (Z.of_nat (length l)) l (heap s) ∧
    vecs s' =
      <[this := mkVector (Z.of_nat (length l)) (mkRawMemory p' (Z.of_nat (length l)))]>
        (vecs s) ∧
    (l = [] → p' = nullptr) ∧
    leaked s' = leaked s ∧
    copies_until_throw s' = budget_after (copies_until_throw s) (length l).
Proof.
  intros Hh Hk. pose proof Hh as (Hv & Hc & Hb).
  destruct l as [|x l].
  - exists (mkState (heap s)
              (<[this := mkVector 0 (mkRawMemory nullptr 0)]> (vecs s)) (raws s)
              (copies_until_throw s) (leaked s) (trace s)), nullptr.
    split.
    { unfold Vector_copy_ctor.
      erewrite bind_Ret; [| by apply get_vec_eq]. simpl.
      rewrite (bind_Ret _ _ _ _ _ (RawMemory_new_0 _)).
      erewrite bind_Ret; [| by apply catch_Ret]. reflexivity. }
    split.
    { split; [|done]. repeat split; simpl; try lia. apply lookup_insert_eq. }
    split; [done|]. split; [done|]. split; [done|].
    simpl. by rewrite budget_after_0.
  - destruct (holds_nonempty_ptr _ _ _ _ _ Hh) as [b ->]; [done|].
    eexists _, (Ptr (fresh (dom (heap s))) 0).
    split; [by eapply Vector_copy_ctor_eq|].
    split; [| done].
    split; [| split; [done | apply fresh_block_None]].
    apply holds_store. split; [lia | eapply fits_le; [| apply Hc]; lia].
Qed.

Lemma store_absent_lookup p (x : list (slot T)) (h : gmap block (list (slot T))) b :
  absent p h → is_Some (h !! b) → store p x h !! b = h !! b.
Proof.
  destruct p as [|b' o]; simpl; [done|]. intros Hn Hs.
  rewrite lookup_insert_ne; [done|]. intros ->. rewrite Hn in Hs. by destruct Hs.
Qed.

Lemma untouched_state s a h v k t :
  untouched s (mkState h (<[a := v]> (vecs s)) (raws s) k (leaked s) t) a ↔ k = None.
Proof.
  unfold untouched. simpl. split; [tauto|]. intros ->.
  repeat split. intros a' Ha. by rewrite lookup_insert_ne.
Qed.

Lemma untouched_trans s1 s2 s3 a :
  untouched s1 s2 a → untouched s2 s3 a → untouched s1 s3 a.
Proof.
  intros (H1 & H2 & H3 & H4) (G1 & G2 & G3 & G4). repeat split; try congruence.
  intros a' Ha. rewrite G4, H4; done.
Qed.

Lemma Emplace_owns s a p c l1 l2 args h0 :
  owns s a p c (l1 ++ l2) h0 →
  (c = Z.of_nat (length (l1 ++ l2)) → 2 * c * sizeof_T < SIZE_MOD) →
  budget_allows (copies_until_throw s)
    (args_copies args +
     (if decide (Z.of_nat (length (l1 ++ l2)) < c) then 0
      else relocation_copies (length (l1 ++ l2)))) →
  ∃ s' p',
    Emplace a (ptr_add p (Z.of_nat (length l1))) args s =
      Ret (ptr_add p' (Z.of_nat (length l1))) s' ∧
    owns s' a p' (capacity_after_emplace (Z.of_nat (length (l1 ++ l2))) c)
      (l1 ++ args_value args :: l2) h0 ∧
    leaked s' = leaked s ∧ raws s' = raws s ∧
    copies_until_throw s' =
      budget_after (copies_until_throw s)
        (args_copies args +
         (if decide (Z.of_nat (length (l1 ++ l2)) < c) then 0
          else relocation_copies (length (l1 ++ l2)))) ∧
    (∀ a', a' ≠ a → vecs s' !! a' = vecs s !! a').
Proof.
  intros Ho Hno Hk. pose proof Ho as (Hh & _). pose proof Hh as (Hv & Hc & Hb).
  pose proof SIZE_MOD_gt_1 as HM.
  unfold Emplace, capacity_after_emplace.
  erewrite bind_Ret; [| by apply get_vec_eq].
  erewrite bind_Ret; [| by apply Capacity_eq]. simpl.
  destruct (decide (Z.of_nat (length (l1 ++ l2)) < c)) as [Hlt|Hge].
  - destruct (holds_ptr _ _ _ _ _ Hh) as [b ->]; [lia|].
    rewrite Nat.add_0_r in *.
    destruct (EasyEmplace_eq s a b c l1 l2 args (0 + Z.of_nat (length l1)))
      as [evs Hevs]; try done; try lia.
    eexists _, (Ptr b 0). split; [exact Hevs|].
    split; [| by repeat split; simpl; try done; intros; rewrite lookup_insert_ne].
    eapply owns_in_place; [exact Ho | done |].
    rewrite !length_app in *. simpl. lia.
  - assert (c = Z.of_nat (length (l1 ++ l2))) as Hfull by lia.
    specialize (Hno Hfull).
    eexists _, (Ptr (fresh (dom (heap s))) 0).
    split; [by apply RealocationEmplace_eq|].
    split; [| by repeat split; simpl; try done; intros; rewrite lookup_insert_ne].
    assert (Z.max 1 (2 * c) * sizeof_T < SIZE_MOD) as Hfit
      by (apply fits_growth; [lia | done]).
    rewrite <- Hfull. eapply owns_fresh; [exact Ho | done |].
    rewrite !length_app in *. simpl. lia.
Qed.

Lemma Emplace_untouched s a p c l1 l2 args h0 :
  owns s a p c (l1 ++ l2) h0 → copies_until_throw s = None →
  can_grow (Z.of_nat (length (l1 ++ l2))) c →
  ∃ s' p',
    Emplace a (ptr_add p (Z.of_nat (length l1))) args s =
      Ret (ptr_add p' (Z.of_nat (length l1))) s' ∧
    owns s' a p' (capacity_after_emplace (Z.of_nat (length (l1 ++ l2))) c)
      (l1 ++ args_value args :: l2) h0 ∧
    untouched s s' a.
Proof.
  intros Ho Hk Hg.
  destruct (Emplace_owns s a p c l1 l2 args h0 Ho)
    as (s' & p' & HE & Ho' & Hl & Hr & Hb & Hv).
  { intros E. destruct Hg as [Hg|Hg]; [lia | done]. }
  { by rewrite Hk. }
  exists s', p'. split; [done|]. split; [done|].
  rewrite Hk in Hb. by repeat split.
Qed.

Lemma capacity_after_emplace_ge n c : 0 ≤ n ≤ c → c ≤ capacity_after_emplace n c.
Proof. intros Hn. unfold capacity_after_emplace. case_decide; lia. Qed.

Lemma perform_owns (o : operation T) s a p c l h0 l' c' :
  owns s a p c l h0 → copies_until_throw s = None →
  effect o l c = Some (l', c') →
  ∃ s' p',
    perform a o s = Ret tt s' ∧ owns s' a p' c' l' h0 ∧ untouched s s' a ∧ c ≤ c'.
Proof.
  intros Ho Hk He. pose proof Ho as (Hh & _). pose proof Hh as (Hv & Hc & Hb).
  destruct o as [x| |i x|i|n|n]; simpl in He.
  - (* PushBack *)
    case_decide as Hg; [|done]. injection He as <- <-.
    rewrite <- (app_nil_r l) in Ho, Hg.
    destruct (Emplace_untouched s a p c l [] x h0 Ho Hk Hg)
      as (s' & p' & HE & Ho' & Hu).
    rewrite app_nil_r in *.
    exists s', p'. split; [| split; [done | split; [done|]]].
    2:{ apply capacity_after_emplace_ge. lia. }
    simpl. unfold PushBack, EmplaceBack. rewrite bind_assoc.
    erewrite bind_Ret; [| by apply end__eq]. simpl.
    rewrite bind_assoc, (bind_Ret _ _ _ _ _ HE).
    erewrite bind_Ret; [| eapply Back_eq; [exact (proj1 Ho') | by destruct l]].
    reflexivity.
  - (* PopBack *)
    case_decide as Hl; [|done]. injection He as <- <-.
    destruct (exists_last (l := l)) as (l0 & x & ->); [by destruct l; simpl in Hl; [lia|]|].
    rewrite length_app. simpl. rewrite Nat.add_sub, take_app_length.
    destruct (holds_nonempty_ptr _ _ _ _ _ Hh) as [b ->]; [by destruct l0|].
    eexists _, (Ptr b 0). split; [simpl; by eapply PopBack_eq|].
    split; [| split; [by apply untouched_state | lia]].
    eapply owns_in_place; [exact Ho | done |].
    rewrite length_app in Hc. simpl in Hc. lia.
  - (* Insert *)
    case_decide as Hg; [|done]. destruct Hg as [Hi Hg]. injection He as <- <-.
    rewrite <- (take_drop i l) in Ho, Hg.
    destruct (Emplace_untouched s a p c (take i l) (drop i l) x h0 Ho Hk Hg)
      as (s' & p' & HE & Ho' & Hu).
    rewrite take_drop in *. rewrite length_take, Nat.min_l in HE by done.
    exists s', p'. split; [| split; [done | split; [done|]]].
    2:{ apply capacity_after_emplace_ge. lia. }
    simpl. erewrite bind_Ret; [| by apply begin__eq]. simpl.
    by rewrite (bind_Ret _ _ _ _ _ HE).
  - (* Erase *)
    case_decide as Hi; [|done]. injection He as <- <-.
    destruct (lookup_lt_is_Some_2 l i Hi) as [x Hx].
    pose proof (take_drop_middle _ _ _ Hx) as Hl.
    destruct (holds_nonempty_ptr _ _ _ _ _ Hh) as [b ->]; [by intros ->|].
    rewrite <- Hl in Hh, Ho.
    eexists _, (Ptr b 0). split.
    { simpl. erewrite bind_Ret; [| by apply begin__eq]. simpl.
      erewrite bind_Ret; [reflexivity|].
      eapply Erase_eq; [exact Hh|]. rewrite length_take. lia. }
    split; [| split; [by apply untouched_state | lia]].
    eapply owns_in_place; [exact Ho | done |].
    rewrite <- Hl, !length_app in Hc. simpl in Hc. rewrite length_app. lia.
  - (* Reserve *)
    case_decide as Hn; [|done]. injection He as <- <-. simpl.
    destruct (decide (n ≤ c)) as [Hle|Hgt].
    + exists s, p. rewrite Z.max_l by done.
      split; [by apply (Reserve_no_op_eq _ _ _ _ Hv); simpl; lia|].
      split; [done|]. split; [by repeat split | lia].
    + rewrite Z.max_r by lia.
      eexists _, (Ptr (fresh (dom (heap s))) 0).
      split; [eapply Reserve_grow_eq; [exact Hh | lia | by rewrite Hk]|].
      split; [| split; [apply untouched_state; by rewrite Hk | lia]].
      eapply owns_fresh; [exact Ho | done | lia].
  - (* Resize *)
    case_decide as Hn; [|done]. injection He as <- <-. simpl.
    destruct (decide (n ≤ Z.of_nat (length l))) as [Hle|Hgt].
    + rewrite Z.max_l by lia.
      replace (Z.to_nat n - length l)%nat with 0%nat by lia.
      simpl. rewrite app_nil_r.
      rewrite <- (take_drop (Z.to_nat n) l) in Hh.
      eexists _, p. split.
      { eapply Resize_shrink_eq; [exact Hh|]. rewrite length_take. lia. }
      split; [| split; [by apply untouched_state | lia]].
      eapply owns_in_place; [exact Ho | rewrite length_take; lia | lia].
    + rewrite take_ge by lia.
      destruct (decide (n ≤ c)) as [Hnc|Hnc].
      * rewrite Z.max_l by done.
        destruct (holds_ptr _ _ _ _ _ Hh) as [b ->]; [lia|].
        eexists _, (Ptr b 0). split.
        { eapply (Resize_grow_within_eq _ _ _ _ _ _ (Z.to_nat n - length l));
            [exact Hh | | | done]; lia. }
        split; [| split; [by apply untouched_state | lia]].
        eapply owns_in_place;
          [exact Ho | rewrite length_app, length_replicate; lia | lia].
      * rewrite Z.max_r by lia.
        eexists _, (Ptr (fresh (dom (heap s))) 0). split.
        { eapply (Resize_grow_realloc_eq _ _ _ _ _ _ (Z.to_nat n - length l));
            [exact Hh | | lia | by rewrite Hk]. lia. }
        split; [| split; [apply untouched_state; by rewrite Hk | lia]].
        eapply owns_fresh;
          [exact Ho | rewrite length_app, length_replicate; lia | lia].
Qed.

Lemma untouched_refl s a : copies_until_throw s = None → untouched s s a.
Proof. by repeat split. Qed.

Lemma perform_all_owns (os : list (operation T)) : ∀ s a p c l h0 l' c',
  owns s a p c l h0 → copies_until_throw s = None →
  effects os l c = Some (l', c') →
  ∃ s' p',
    perform_all a os s = Ret tt s' ∧ owns s' a p' c' l' h0 ∧ untouched s s' a ∧
    c ≤ c'.
Proof.
  induction os as [|o os IH]; intros s a p c l h0 l' c' Ho Hk He; simpl in He.
  - injection He as <- <-. exists s, p.
    split; [done|]. split; [done|]. split; [by apply untouched_refl | lia].
  - destruct (effect o l c) as [[l1 c1]|] eqn:E1; [|done].
    destruct (perform_owns o s a p c l h0 l1 c1 Ho Hk E1)
      as (s1 & p1 & H1 & Ho1 & Hu1 & Hc1).
    destruct (IH s1 a p1 c1 l1 h0 l' c' Ho1 (proj1 (proj2 (proj2 Hu1))) He)
      as (s' & p' & H2 & Ho2 & Hu2 & Hc2).
    exists s', p'. split; [simpl; by rewrite (bind_Ret _ _ _ _ _ H1)|].
    split; [done|]. split; [by eapply untouched_trans | lia].
Qed.

Lemma holds_store_size h vs r k lk t a b c n l :
  n = Z.of_nat (length l) → n ≤ c ∧ c * sizeof_T < SIZE_MOD →
  holds (mkState (<[b := slots_of l c]> h)
           (<[a := mkVector n (mkRawMemory (Ptr b 0) c)]> vs) r k lk t)
    a (Ptr b 0) c l.
Proof. intros ->. apply holds_store. Qed.

(** ** Storage: [RawMemory] *)

(** X1: constructing a [RawMemory] for [n] elements at a free address and then
    destroying it leaves the heap and the other owners as they were and
    releases no live object; it allocates and deallocates one block, or
    nothing at all when [n] is 0. *)
Theorem RawMemory_ctor_dtor_round_trip s a n :
  raws s !! a = None →
  ∃ s',
    (RawMemory_ctor a n;; RawMemory_dtor a) s = Ret tt s' ∧
    heap s' = heap s ∧ raws s' = raws s ∧ leaked s' = leaked s ∧
    trace s' =
      trace s ++
      (if decide (n = 0) then []
       else [EvAllocate (fresh (dom (heap s))) n; EvDeallocate (fresh (dom (heap s)))]).
Proof.
  intros Ha. unfold RawMemory_ctor, RawMemory_dtor.
  destruct (decide (n = 0)) as [->|Hn].
  - eexists. split.
    { rewrite bind_assoc, (bind_Ret _ _ _ _ _ (RawMemory_new_0 _)).
      rewrite (bind_Ret _ _ _ _ _ (put_raw_eq _ _ _)).
      erewrite bind_Ret; [| apply get_raw_eq; simpl; apply lookup_insert_eq].
      reflexivity. }
    simpl. rewrite app_nil_r. repeat split. by rewrite delete_insert_id.
  - eexists. split.
    { rewrite bind_assoc, (bind_Ret _ _ _ _ _ (RawMemory_new_any _ _ Hn)).
      rewrite (bind_Ret _ _ _ _ _ (put_raw_eq _ _ _)).
      erewrite bind_Ret; [| apply get_raw_eq; simpl; apply lookup_insert_eq].
      unfold RawMemory_delete. simpl.
      erewrite bind_Ret; [| apply Deallocate_eq; simpl; apply lookup_insert_eq].
      reflexivity. }
    simpl. rewrite live_values_replicate, app_nil_r, <- app_assoc.
    split; [| split; [by rewrite delete_insert_id | done]].
    rewrite delete_insert_id; [done|]. apply fresh_block_None.
Qed.

(** ** Construction, copy, move and destruction *)

(** X4: [Vector(n)], for an [n] whose [n * sizeof(T)] bytes are a [size_t],
    builds a Sequence of [n] value-initialized elements whose capacity is
    [n]; for [n = 0] it allocates nothing. *)
Theorem Vector_size_ctor_value_initializes s a n :
  0 ≤ n ∧ n * sizeof_T < SIZE_MOD →
  ∃ s' p,
    Vector_size_ctor a n s = Ret tt s' ∧
    holds s' a p n (replicate (Z.to_nat n) value_init) ∧
    (n = 0 → p = nullptr ∧ heap s' = heap s) ∧
    leaked s' = leaked s ∧
    copies_until_throw s' = copies_until_throw s.
Proof.
  intros Hn. pose proof SIZE_MOD_gt_1 as HM.
  unfold Vector_size_ctor. destruct (decide (n = 0)) as [->|Hn0].
  - eexists _, nullptr. split.
    { rewrite (bind_Ret _ _ _ _ _ (RawMemory_new_0 _)).
      erewrite bind_Ret; [| by apply catch_Ret]. apply put_vec_eq. }
    simpl. split; [| done].
    repeat split; simpl; try lia. apply lookup_insert_eq.
  - assert (0 < n) as Hpos by lia.
    eexists _, (Ptr (fresh (dom (heap s))) 0). split.
    { rewrite (bind_Ret _ _ _ _ _ (RawMemory_new_eq _ _ Hpos (proj2 Hn))).
      erewrite bind_Ret.
      2:{ apply catch_Ret.
          eapply (uninitialized_value_construct_n_eq _ _ [] [] 0 n (Z.to_nat n));
            simpl; [| done | lia].
          rewrite lookup_insert_eq, app_nil_r. reflexivity. }
      apply put_vec_eq. }
    simpl. split; [| by split].
    rewrite insert_insert_eq, app_nil_r.
    assert (replicate (Z.to_nat n) (Obj value_init) =
            slots_of (replicate (Z.to_nat n) value_init) n) as ->.
    { unfold slots_of. rewrite length_replicate, Nat.sub_diag, app_nil_r.
      by rewrite map_Obj_replicate. }
    apply holds_store_size; [rewrite length_replicate|]; lia.
Qed.

(** X5: the copy constructor builds a Sequence with the elements of the
    source in a block of its own, with a capacity equal to the size of the
    source and not to its capacity; the source is unchanged, one copy
    construction is made for each element, and an empty source gives a
    Sequence without storage. *)
Theorem Vector_copy_ctor_copies s this other p c l :
  holds s other p c l → this ≠ other →
  budget_allows (copies_until_throw s) (length l) →
  ∃ s' p',
    Vector_copy_ctor this other s = Ret tt s' ∧
    holds s' this p' (Z.of_nat (length l)) l ∧
    holds s' other p c l ∧
    disjoint_blocks p p' ∧
    (l = [] → p' = nullptr ∧ heap s' = heap s) ∧
    leaked s' = leaked s ∧
    copies_until_throw s' = budget_after (copies_until_throw s) (length l).
Proof.
  intros Hh Hne Hk.
  destruct (Vector_copy_ctor_owns s this other p c l Hh Hk)
    as (s' & p' & HC & (Hh' & Hheap & Habs) & Hvs & Hnil & Hl & Hb).
  exists s', p'. split; [done|]. split; [done|].
  split.
  { eapply holds_frame; [exact Hh | by rewrite Hvs, lookup_insert_ne |].
    intros b o ->. rewrite Hheap. apply store_absent_lookup; [done|].
    destruct Hh as (_ & _ & _ & Hb'). by rewrite Hb'. }
  split.
  { destruct p as [|b o], p' as [|b' o']; simpl in *; try done.
    intros ->. destruct Hh as (_ & _ & _ & Hb'). congruence. }
  split; [| done].
  intros Hl0. specialize (Hnil Hl0). subst p'. by rewrite Hheap.
Qed.

(** X6: when a copy construction throws in the copy constructor, the
    exception propagates with the heap and the [Vector] objects as they
    were: the copies already made are destroyed and the new block is
    released, so that nothing is left alive. *)
Theorem Vector_copy_ctor_throw_is_clean s this other p c l m :
  holds s other p c l →
  copies_until_throw s = Some m → (m < length l)%nat →
  ∃ s',
    Vector_copy_ctor this other s = Throw s' ∧
    heap s' = heap s ∧ vecs s' = vecs s ∧ leaked s' = leaked s.
Proof.
  intros Hh Hm Hml.
  destruct (holds_nonempty_ptr _ _ _ _ _ Hh) as [b ->];
    [destruct l; [simpl in Hml; lia | done]|].
  destruct (Vector_copy_ctor_throw s this other b c l m) as [evs Hevs]; try done.
  eexists. split; [exact Hevs | done].
Qed.

(** X7: a copy that is constructed and then destroyed gives back exactly
    what it took: heap and [Vector] objects are those before, no object is
    released alive, and the source still holds its elements. *)
Theorem copy_then_destroy_restores s this other p c l :
  holds s other p c l → vecs s !! this = None →
  budget_allows (copies_until_throw s) (length l) →
  ∃ s',
    (Vector_copy_ctor this other;; Vector_dtor this) s = Ret tt s' ∧
    heap s' = heap s ∧ vecs s' = vecs s ∧ leaked s' = leaked s ∧
    holds s' other p c l.
Proof.
  intros Hh Hnone Hk.
  destruct (Vector_copy_ctor_owns s this other p c l Hh Hk)
    as (s1 & p' & HC & (Hh' & Hheap & Habs) & Hvs & _ & Hl & _).
  eexists. split.
  { rewrite (bind_Ret _ _ _ _ _ HC). by eapply Vector_dtor_eq. }
  simpl.
  assert (release p' (heap s1) = heap s) as Hrel
    by (by rewrite Hheap, release_store_absent).
  assert (delete this (vecs s1) = vecs s) as Hdel
    by (by rewrite Hvs, delete_insert_id).
  split; [done|]. split; [done|]. split; [done|].
  eapply holds_frame; [exact Hh | simpl; by rewrite Hdel |].
  intros b o _. simpl. by rewrite Hrel.
Qed.

(** X8: the move constructor takes over the block, the size and the
    capacity of its source without any operation on the elements or on the
    heap, and leaves the source empty, with a null handle and capacity 0. *)
Theorem Vector_move_ctor_takes_over s this other p c l :
  holds s other p c l → this ≠ other →
  ∃ s',
    Vector_move_ctor this other s = Ret tt s' ∧
    holds s' this p c l ∧
    holds s' other nullptr 0 [] ∧
    heap s' = heap s ∧ trace s' = trace s ∧ leaked s' = leaked s ∧
    copies_until_throw s' = copies_until_throw s.
Proof.
  intros Hh Hne. pose proof Hh as (Hv & _).
  eexists. split.
  { unfold Vector_move_ctor, Vector_default_ctor.
    rewrite (bind_Ret _ _ _ _ _ (put_vec_eq _ _ _)).
    eapply Swap_eq; simpl; [done | apply lookup_insert_eq |].
    rewrite lookup_insert_ne by done. exact Hv. }
  simpl. split.
  { eapply holds_frame; [exact Hh | simpl | done].
    rewrite lookup_insert_ne, lookup_insert_eq by done. by symmetry. }
  split; [| done].
  repeat split; simpl; try lia. apply lookup_insert_eq.
Qed.

(** X9: move assignment between distinct Sequences is a swap: the target
    receives the storage and elements of the source, and the source receives
    those the target had, which are neither destroyed nor released. *)
Theorem move_assignment_exchanges s a r pa ca la pr cr lr :
  holds s a pa ca la → holds s r pr cr lr → a ≠ r →
  ∃ s',
    operator_move_assign a r s = Ret tt s' ∧
    holds s' a pr cr lr ∧
    holds s' r pa ca la ∧
    heap s' = heap s ∧ trace s' = trace s ∧ leaked s' = leaked s ∧
    copies_until_throw s' = copies_until_throw s.
Proof.
  intros Ha Hr Hne. pose proof Ha as (Hva & _). pose proof Hr as (Hvr & _).
  eexists. split; [by eapply Swap_eq|]. simpl.
  split.
  { eapply holds_frame; [exact Hr | simpl | done].
    rewrite lookup_insert_ne, lookup_insert_eq by done. by symmetry. }
  split; [| done].
  eapply holds_frame; [exact Ha | simpl | done].
  rewrite lookup_insert_eq. by symmetry.
Qed.

(** X10: move assignment of a Sequence to itself returns in the state it
    started from. *)
Theorem self_move_assignment_is_no_op s a (v : Vector) :
  vecs s !! a = Some v → operator_move_assign a a s = Ret tt s.
Proof.
  intros Hv. unfold operator_move_assign, Swap.
  erewrite bind_Ret; [| by apply get_vec_eq].
  erewrite bind_Ret; [| by apply get_vec_eq]. simpl.
  erewrite bind_Ret; [| by apply set_data__eq]. simpl.
  erewrite bind_Ret; [| apply set_data__eq; simpl; apply lookup_insert_eq]. simpl.
  erewrite bind_Ret; [| apply set_size__eq; simpl; apply lookup_insert_eq]. simpl.
  erewrite set_size__eq; [| simpl; apply lookup_insert_eq]. simpl.
  rewrite !insert_insert_eq. destruct v as [n [b c]]. simpl.
  rewrite insert_id by done. by rewrite state_eta.
Qed.

(** X11: [Swap] between two distinct Sequences, done twice, returns in
    the state it started from. *)
Theorem Swap_twice_restores s a b (va vb : Vector) :
  a ≠ b → vecs s !! a = Some va → vecs s !! b = Some vb →
  (Swap a b;; Swap a b) s = Ret tt s.
Proof.
  intros Hne Ha Hb.
  erewrite bind_Ret; [| by eapply Swap_eq].
  erewrite Swap_eq; [| done | simpl | simpl].
  2:{ rewrite lookup_insert_ne, lookup_insert_eq by done. reflexivity. }
  2:{ apply lookup_insert_eq. }
  destruct s as [h vs rs k lk t]. simpl in *. do 2 f_equal.
  apply map_eq; intros i.
  destruct (decide (i = a)), (decide (i = b)); by simplify_map_eq.
Qed.

(** X12: the destructor destroys each element once, from the first to the
    last, then releases the block; the object is gone and no object is
    released alive. *)
Theorem Vector_dtor_releases s a p c l :
  holds s a p c l →
  ∃ s',
    Vector_dtor a s = Ret tt s' ∧
    vecs s' !! a = None ∧
    heap s' = release p (heap s) ∧
    trace s' = trace s ++ events1 EvDestroy (length l) p ++ release_events p ∧
    leaked s' = leaked s.
Proof.
  intros Hh. eexists. split; [by eapply Vector_dtor_eq|]. simpl.
  split; [apply lookup_delete_eq | done].
Qed.

(** ** Access to the elements *)

(** X13: [operator[]] at an index below the size refers to the element of
    that index. *)
Theorem Vector_at_reads s a p c l i x :
  holds s a p c l → l !! i = Some x →
  (Vector_at a (Z.of_nat i) ≫= read) s = Ret x s.
Proof.
  intros Hh Hi. pose proof (lookup_lt_Some _ _ _ Hi) as Hlt.
  erewrite bind_Ret; [| eapply Vector_at_eq; [exact Hh | lia]].
  by eapply holds_read.
Qed.

(** X14: [operator[]] at an index that is not below the size fails its
    assertion, even when the index is below the capacity. *)
Theorem Vector_at_out_of_bounds_faults s a p c l i :
  holds s a p c l → Z.of_nat (length l) ≤ i →
  Vector_at a i s = Fault.
Proof.
  intros (Hv & _) Hi. unfold Vector_at.
  erewrite bind_Ret; [| by apply get_vec_eq]. simpl.
  unfold assert. rewrite bool_decide_eq_false_2 by lia. reflexivity.
Qed.

(** X15: [Back] on a Sequence that is not empty refers to its last
    element. *)
Theorem Back_reads_last s a p c l x :
  holds s a p c (l ++ [x]) →
  (Back a ≫= read) s = Ret x s.
Proof.
  intros Hh.
  erewrite bind_Ret; [| eapply Back_eq; [exact Hh | by destruct l]].
  pose proof Hh as (_ & Hc & _).
  rewrite length_app in *. simpl in *.
  rewrite size_t_small by lia.
  replace (Z.of_nat (length l + 1) - 1) with (Z.of_nat (length l)) by lia.
  eapply holds_read; [exact Hh|].
  by rewrite lookup_app_r, Nat.sub_diag.
Qed.

(** X16: [Back] on an empty Sequence is undefined: [size_ - 1] wraps
    around to the largest [size_t], which is no index below the capacity,
    so that the assertion of [RawMemory::operator[]] fails. *)
Theorem Back_on_empty_faults s a p c :
  holds s a p c [] → Back a s = Fault.
Proof.
  intros (Hv & Hc & _). unfold Back.
  erewrite bind_Ret; [| by apply get_vec_eq]. simpl.
  unfold RawMemory_at, assert. simpl.
  rewrite bool_decide_eq_false_2; [done|].
  change (size_t (Z.of_nat 0 - 1)) with (SIZE_MOD - 1). simpl in Hc. lia.
Qed.

(** ** Removal at the end and at a position *)

(** X17: [PopBack] on a Sequence that is not empty destroys the last
    element and nothing else; block and capacity are unchanged. *)
Theorem PopBack_removes_last s a p c l x :
  holds s a p c (l ++ [x]) →
  ∃ s',
    PopBack a s = Ret tt s' ∧
    holds s' a p c l ∧
    trace s' = trace s ++ [EvDestroy (ptr_add p (Z.of_nat (length l)))] ∧
    leaked s' = leaked s.
Proof.
  intros Hh. destruct (holds_nonempty_ptr _ _ _ _ _ Hh) as [b ->]; [by destruct l|].
  eexists. split; [by eapply PopBack_eq|]. simpl.
  split; [| done].
  destruct Hh as (_ & Hc & _). rewrite length_app in Hc. simpl in Hc.
  apply holds_store. lia.
Qed.

(** X18: [PopBack] on an empty Sequence is undefined: [--size_] wraps
    around and [destroy_at] is called on an address that holds no object. *)
Theorem PopBack_on_empty_faults s a p c :
  holds s a p c [] → PopBack a s = Fault.
Proof.
  intros (Hv & Hc & Hb). simpl in *. unfold PopBack.
  erewrite bind_Ret; [| by apply get_vec_eq]. simpl.
  erewrite bind_Ret; [| by eapply set_size__eq]. simpl.
  erewrite bind_Ret; [| apply get_vec_eq; simpl; apply lookup_insert_eq]. simpl.
  change (size_t (Z.of_nat 0 - 1)) with (SIZE_MOD - 1).
  unfold destroy_at, read. rewrite !run_bind.
  destruct p as [|b o]; [done|]. destruct Hb as [-> Hb]. simpl.
  rewrite Hb. unfold slot_lookup. rewrite decide_True by (unfold SIZE_MOD; lia).
  rewrite lookup_ge_None_2; [done|].
  unfold slots_of. simpl. rewrite length_replicate. lia.
Qed.

(** X19: [Erase] at [end()] is undefined, for any Sequence: the range
    from [pos + 1] to [end()] handed to [std::move] is not a range, and in
    an empty Sequence without storage there is no last element to destroy. *)
Theorem Erase_at_end_faults s a p c l :
  holds s a p c l → Erase a (ptr_add p (Z.of_nat (length l))) s = Fault.
Proof.
  intros (Hv & Hc & Hb). unfold Erase.
  erewrite bind_Ret; [| by apply end__eq]. simpl.
  destruct p as [|b o]; simpl in *.
  - unfold std_move. simpl. rewrite run_bind. simpl.
    erewrite bind_Ret; [| by apply end__eq]. simpl.
    unfold destroy_at, read. by rewrite !run_bind.
  - unfold std_move. cbn [ptr_add]. rewrite ptr_diff_same.
    rewrite decide_False by lia. reflexivity.
Qed.

(** ** [Reserve] *)

(** X20: [Reserve(n)] with [n] above the capacity and [n * sizeof(T)] a
    [size_t] moves the Sequence to a fresh block of capacity exactly [n],
    with the same elements in the same order; the old block is released
    after its elements were destroyed, so that no object is released
    alive. *)
Theorem Reserve_grows_to_requested s a p c l n :
  holds s a p c l → c < n ∧ n * sizeof_T < SIZE_MOD →
  budget_allows (copies_until_throw s) (relocation_copies (length l)) →
  ∃ s' b',
    Reserve a n s = Ret tt s' ∧
    holds s' a (Ptr b' 0) n l ∧
    heap s !! b' = None ∧
    (∀ b o, p = Ptr b o → heap s' !! b = None) ∧
    leaked s' = leaked s ∧
    copies_until_throw s' =
      budget_after (copies_until_throw s) (relocation_copies (length l)).
Proof.
  intros Hh Hn Hk. pose proof Hh as (_ & Hc & _).
  exists (mkState
            (<[fresh (dom (heap s)) := slots_of l n]> (release p (heap s)))
            (<[a := mkVector (Z.of_nat (length l))
                      (mkRawMemory (Ptr (fresh (dom (heap s))) 0) n)]> (vecs s))
            (raws s)
            (budget_after (copies_until_throw s) (relocation_copies (length l)))
            (leaked s)
            (trace s ++
             EvAllocate (fresh (dom (heap s))) n
             :: events2 relocation_event (length l) (Ptr (fresh (dom (heap s))) 0) p
             ++ events1 EvDestroy (length l) p ++ release_events p)),
    (fresh (dom (heap s))).
  split; [by eapply Reserve_grow_eq|]. simpl.
  split; [apply holds_store; lia|].
  split; [apply fresh_block_None|].
  split; [| done].
  intros b o ->. pose proof (holds_disjoint_fresh _ _ _ _ _ Hh) as Hd. simpl in *.
  rewrite lookup_insert_ne by done. apply lookup_delete_eq.
Qed.

(** X22: for an element type that is relocated by move, [Reserve(n)] with
    [n * sizeof(T)] a [size_t] makes no copy construction: it returns
    whatever the state of the copy constructor, even one that would throw
    at its next invocation. *)
Theorem Reserve_moves_without_copying s a p c l n :
  is_nothrow_move_constructible || negb is_copy_constructible = true →
  holds s a p c l → c < n ∧ n * sizeof_T < SIZE_MOD →
  ∃ s' p',
    Reserve a n s = Ret tt s' ∧
    holds s' a p' n l ∧
    copies_until_throw s' = copies_until_throw s ∧
    leaked s' = leaked s.
Proof.
  intros Hstr Hh Hn. pose proof Hh as (_ & Hc & _).
  assert (relocation_copies (length l) = 0%nat) as Hz
    by (unfold relocation_copies; by rewrite Hstr).
  eexists _, (Ptr (fresh (dom (heap s))) 0).
  split.
  { eapply Reserve_grow_eq; [exact Hh | done |]. rewrite Hz.
    unfold budget_allows. destruct (copies_until_throw s); [lia | done]. }
  simpl. split; [apply holds_store; lia|].
  split; [| done]. by rewrite Hz, budget_after_0.
Qed.

(** ** [Emplace] and [EmplaceBack] *)

(** X23: when the capacity suffices and the copy construction of the new
    element throws, [Emplace] propagates the exception before the Sequence
    is touched: heap and [Vector] objects are those before the call. *)
Theorem Emplace_in_place_throw_changes_nothing s a p c l1 l2 (v : T) :
  holds s a p c (l1 ++ l2) → Z.of_nat (length (l1 ++ l2)) < c →
  copies_until_throw s = Some 0%nat →
  Emplace a (ptr_add p (Z.of_nat (length l1))) (CopyOf v) s =
  Throw (mkState (heap s) (vecs s) (raws s) None (leaked s) (trace s)).
Proof.
  intros Hh Hlt Hk. pose proof Hh as (Hv & Hc & Hb).
  unfold Emplace.
  erewrite bind_Ret; [| by apply get_vec_eq].
  erewrite bind_Ret; [| by apply Capacity_eq]. simpl.
  rewrite decide_True by done.
  unfold EasyEmplace.
  erewrite bind_Ret; [| by apply end__eq]. simpl.
  assert (construct_value (CopyOf v) s =
          Throw (mkState (heap s) (vecs s) (raws s) None (leaked s) (trace s)))
    as Hthrow.
  { unfold construct_value. by rewrite (bind_Throw _ _ _ _ (copy_ctor_call_throw _ Hk)). }
  case_decide.
  - rewrite bind_assoc. by rewrite (bind_Throw _ _ _ _ Hthrow).
  - rewrite bind_assoc.
    erewrite bind_Ret; [| by apply end__eq]. simpl.
    unfold construct_at. rewrite bind_assoc.
    by rewrite (bind_Throw _ _ _ _ Hthrow).
Qed.

(** X25: [EmplaceBack] appends the element and returns a reference to
    it, the last element of the Sequence, also when the storage was
    reallocated. *)
Theorem EmplaceBack_returns_new_element s a p c l (args : ctor_args T) :
  holds s a p c l →
  (c = Z.of_nat (length l) → 2 * c * sizeof_T < SIZE_MOD) →
  budget_allows (copies_until_throw s)
    (args_copies args +
     (if decide (Z.of_nat (length l) < c) then 0 else relocation_copies (length l))) →
  ∃ s' p' q,
    EmplaceBack a args s = Ret q s' ∧
    holds s' a p' (capacity_after_emplace (Z.of_nat (length l)) c)
      (l ++ [args_value args]) ∧
    q = ptr_add p' (Z.of_nat (length l)) ∧
    read q s' = Ret (args_value args) s' ∧
    leaked s' = leaked s.
Proof.
  intros Hh Hno Hk. pose proof Hh as (Hv & _).
  rewrite <- (app_nil_r l) in Hh, Hno, Hk.
  destruct (Emplace_holds s a p c l [] args Hh Hno Hk)
    as (s' & p' & HE & Hh' & _ & _ & Hl & _).
  rewrite app_nil_r in *.
  pose proof Hh' as (_ & Hc' & _). rewrite length_app in Hc'. simpl in Hc'.
  exists s', p', (ptr_add p' (Z.of_nat (length l))).
  split.
  { unfold EmplaceBack.
    erewrite bind_Ret; [| by apply end__eq]. simpl.
    rewrite (bind_Ret _ _ _ _ _ HE).
    erewrite Back_eq; [| exact Hh' | by destruct l].
    rewrite length_app. simpl. rewrite size_t_small by lia.
    do 2 f_equal. lia. }
  split; [done|]. split; [done|]. split; [|done].
  eapply holds_read; [exact Hh'|].
  by rewrite lookup_app_r, Nat.sub_diag.
Qed.

(** X26: [Erase] at the iterator that [Emplace] returned gives back the
    Sequence as it was before the insertion, with the capacity that the
    insertion left, and returns the same position. *)
Theorem Erase_undoes_Emplace s a p c l1 l2 (args : ctor_args T) :
  holds s a p c (l1 ++ l2) →
  (c = Z.of_nat (length (l1 ++ l2)) → 2 * c * sizeof_T < SIZE_MOD) →
  budget_allows (copies_until_throw s)
    (args_copies args +
     (if decide (Z.of_nat (length (l1 ++ l2)) < c) then 0
      else relocation_copies (length (l1 ++ l2)))) →
  ∃ s' p',
    (q ← Emplace a (ptr_add p (Z.of_nat (length l1))) args; Erase a q) s =
      Ret (ptr_add p' (Z.of_nat (length l1))) s' ∧
    holds s' a p' (capacity_after_emplace (Z.of_nat (length (l1 ++ l2))) c)
      (l1 ++ l2) ∧
    leaked s' = leaked s.
Proof.
  intros Hh Hno Hk.
  destruct (Emplace_holds s a p c l1 l2 args Hh Hno Hk)
    as (s1 & p' & HE & Hh1 & _ & _ & Hl & _).
  destruct (holds_nonempty_ptr _ _ _ _ _ Hh1) as [b ->]; [by destruct l1|].
  pose proof Hh1 as (_ & Hc1 & _).
  eexists _, (Ptr b 0). split.
  { rewrite (bind_Ret _ _ _ _ _ HE). eapply Erase_eq; [exact Hh1|]. simpl. lia. }
  simpl. split; [| done].
  apply holds_store. rewrite !length_app in *. simpl in *. lia.
Qed.

(** X27: [PushBack] followed by [PopBack] gives back the Sequence as it
    was, with the capacity that [PushBack] left: the heap consists of the
    one block of the Sequence, which holds its former elements, and of what
    the heap held besides the Sequence before, so that the block the
    Sequence had before a reallocation is released; no object is released
    alive. *)
Theorem PopBack_undoes_PushBack s a p c l h0 (args : ctor_args T) :
  owns s a p c l h0 →
  (c = Z.of_nat (length l) → 2 * c * sizeof_T < SIZE_MOD) →
  budget_allows (copies_until_throw s)
    (args_copies args +
     (if decide (Z.of_nat (length l) < c) then 0 else relocation_copies (length l))) →
  ∃ s' p',
    (PushBack a args;; PopBack a) s = Ret tt s' ∧
    owns s' a p' (capacity_after_emplace (Z.of_nat (length l)) c) l h0 ∧
    leaked s' = leaked s.
Proof.
  intros Ho Hno Hk.
  rewrite <- (app_nil_r l) in Ho, Hno, Hk.
  destruct (Emplace_owns s a p c l [] args h0 Ho Hno Hk)
    as (s1 & p' & HE & Ho1 & Hl & _).
  rewrite app_nil_r in *.
  pose proof Ho as ((Hv & _) & _). pose proof Ho1 as (Hh1 & _).
  destruct (holds_nonempty_ptr _ _ _ _ _ Hh1) as [b' ->]; [by destruct l|].
  pose proof Hh1 as (_ & Hc1 & _). rewrite length_app in Hc1. simpl in Hc1.
  eexists _, (Ptr b' 0). split.
  { unfold PushBack, EmplaceBack. rewrite !bind_assoc.
    erewrite bind_Ret; [| by apply end__eq]. simpl.
    rewrite !bind_assoc, (bind_Ret _ _ _ _ _ HE).
    rewrite ?bind_assoc.
    erewrite bind_Ret; [| eapply Back_eq; [exact Hh1 | by destruct l]].
    rewrite run_bind, run_ret. by eapply PopBack_eq. }
  split; [| done].
  eapply (owns_in_place s1); [exact Ho1 | done | lia].
Qed.

(** ** The Sequence as a list with a capacity *)

(** X28: a [Vector] behaves as a list with a capacity. Any series of
    [PushBack], [PopBack], [Insert] and [Erase] by index, [Reserve] and
    [Resize], each within its domain (a size or capacity asked for has a
    size in bytes that is a [size_t]) and with a copy constructor that does
    not throw, runs to completion and leaves the Sequence that the same
    calls leave on the list; the Sequence owns one block, the rest of the
    heap and the other objects are unchanged, and no object is released
    alive. *)
Theorem operations_refine_list (os : list (operation T)) s a p c l h0 l' c' :
  owns s a p c l h0 → copies_until_throw s = None →
  effects os l c = Some (l', c') →
  ∃ s' p',
    perform_all a os s = Ret tt s' ∧
    owns s' a p' c' l' h0 ∧
    Size a s' = Ret (Z.of_nat (length l')) s' ∧
    leaked s' = leaked s ∧ raws s' = raws s ∧
    (∀ a', a' ≠ a → vecs s' !! a' = vecs s !! a').
Proof.
  intros Ho Hk He.
  destruct (perform_all_owns os s a p c l h0 l' c' Ho Hk He)
    as (s' & p' & Hr & Ho' & (Hl & Hrw & _ & Hv) & _).
  exists s', p'. split; [done|]. split; [done|]. split; [|done].
  destruct Ho' as ((Hv' & _) & _). unfold Size.
  by rewrite (bind_Ret _ _ _ _ _ (get_vec_eq _ _ _ Hv')).
Qed.

(** X29: in a series of [PushBack], [PopBack], [Insert], [Erase],
    [Reserve] and [Resize], each within its domain and with a copy
    constructor that does not throw, no call lowers the capacity: the
    series runs to completion and [Capacity] afterwards is at least what it
    was before. *)
Theorem capacity_never_shrinks (os : list (operation T)) s a p c l h0 l' c' :
  owns s a p c l h0 → copies_until_throw s = None →
  effects os l c = Some (l', c') →
  ∃ s',
    perform_all a os s = Ret tt s' ∧
    Capacity a s = Ret c s ∧ Capacity a s' = Ret c' s' ∧ c ≤ c'.
Proof.
  intros Ho Hk He.
  destruct (perform_all_owns os s a p c l h0 l' c' Ho Hk He)
    as (s' & p' & Hr & Ho' & _ & Hc).
  exists s'. split; [done|].
  destruct Ho as ((Hv & _) & _), Ho' as ((Hv' & _) & _).
  split; [by rewrite (Capacity_eq _ _ _ Hv)|].
  split; [by rewrite (Capacity_eq _ _ _ Hv') | done].
Qed.

(** X30: the lifetime of a [Vector] leaves the heap as it found it:
    after default construction, any series of calls within their domain,
    with a copy constructor that does not throw, and destruction, the heap
    is the one before, the object is gone, and no object was released
    alive. *)
Theorem lifetime_leaves_heap_as_found (os : list (operation T)) s a l' c' :
  copies_until_throw s = None →
  effects os [] 0 = Some (l', c') →
  ∃ s',
    (Vector_default_ctor a;; perform_all a os;; Vector_dtor a) s = Ret tt s' ∧
    heap s' = heap s ∧ leaked s' = leaked s ∧
    vecs s' !! a = None ∧ (∀ a', a' ≠ a → vecs s' !! a' = vecs s !! a').
Proof.
  intros Hk He.
  set (s0 := mkState (heap s) (<[a := mkVector 0 RawMemory_default]> (vecs s))
               (raws s) (copies_until_throw s) (leaked s) (trace s)).
  assert (owns s0 a nullptr 0 [] (heap s)) as Ho.
  { split; [|done]. repeat split; simpl; try lia. apply lookup_insert_eq. }
  destruct (perform_all_owns os s0 a nullptr 0 [] (heap s) l' c' Ho Hk He)
    as (s1 & p1 & Hr & Ho1 & (Hl & _ & _ & Hv) & _).
  destruct Ho1 as (Hh1 & Hheap1 & Habs1).
  eexists. split.
  { unfold Vector_default_ctor.
    rewrite (bind_Ret _ _ _ _ _ (put_vec_eq _ _ _)). fold s0.
    rewrite (bind_Ret _ _ _ _ _ Hr).
    by eapply Vector_dtor_eq. }
  simpl. split; [by rewrite Hheap1, release_store_absent|].
  split; [done|]. split; [apply lookup_delete_eq|].
  intros a' Ha. rewrite lookup_delete_ne, Hv by done. simpl.
  by rewrite lookup_insert_ne.
Qed.

End Further.

(** * Runs that witness the further properties *)

Lemma RawMemory_ctor_dtor_round_trip_witness :
  ∃ s',
    (@RawMemory_ctor Z copy_relocated 3 5;; @RawMemory_dtor Z 3) two_owners_state = Ret tt s' ∧
    heap s' = heap two_owners_state ∧ raws s' = raws two_owners_state ∧
    leaked s' = [] ∧
    trace s' = [EvAllocate 3 5; EvDeallocate 3].
Proof.
  apply (RawMemory_ctor_dtor_round_trip two_owners_state 3 5). reflexivity.
Defined.

Lemma RawMemory_move_ctor_eq_witness :
  ∃ s',
    @RawMemory_move_ctor Z 3 1 two_owners_state = Ret tt s' ∧
    raws s' !! 3%positive = Some (mkRawMemory (Ptr 1 0) 3) ∧
    raws s' !! 1%positive = Some (mkRawMemory nullptr 3).
Proof.
  eexists. split.
  - apply (RawMemory_move_ctor_eq two_owners_state 3 1 (mkRawMemory (Ptr 1 0) 3));
      [reflexivity | done].
  - split; reflexivity.
Defined.

Lemma RawMemory_move_assign_eq_witness :
  ∃ s',
    @RawMemory_move_assign Z 2 1 two_owners_state = Ret tt s' ∧
    raws s' !! 2%positive = Some (mkRawMemory (Ptr 1 0) 3) ∧
    raws s' !! 1%positive = Some (mkRawMemory (Ptr 1 0) 3) ∧
    heap s' !! 2%positive = None ∧
    trace s' = [EvDeallocate 2].
Proof.
  eexists. split.
  - apply (RawMemory_move_assign_eq two_owners_state 2 1 2 2
             (mkRawMemory (Ptr 1 0) 3) (replicate 2 Raw));
      [reflexivity | reflexivity | done | reflexivity].
  - repeat split; reflexivity.
Defined.

Lemma Vector_size_ctor_value_initializes_witness :
  ∃ s' p,
    @Vector_size_ctor Z nothrow_movable 2 3 (empty_sequence_state 1 None) = Ret tt s' ∧
    holds s' 2 p 3 [0; 0; 0].
Proof.
  destruct (Vector_size_ctor_value_initializes (Element0 := nothrow_movable)
              (empty_sequence_state 1 None) 2 3) as (s' & p & HC & Hh & _).
  { solve_bound. }
  exists s', p. split; [exact HC | exact Hh].
Defined.

Lemma Vector_copy_ctor_copies_witness :
  ∃ s' p',
    @Vector_copy_ctor Z copy_relocated 2 1 (sequence_state 1 1 4 [10; 20; 30] (Some 3%nat)) =
      Ret tt s' ∧
    holds s' 2 p' 3 [10; 20; 30] ∧
    holds s' 1 (Ptr 1 0) 4 [10; 20; 30] ∧
    disjoint_blocks (Ptr 1 0) p' ∧
    copies_until_throw s' = Some 0%nat.
Proof.
  destruct (Vector_copy_ctor_copies (sequence_state 1 1 4 [10; 20; 30] (Some 3%nat))
              2 1 (Ptr 1 0) 4 [10; 20; 30])
    as (s' & p' & HC & H2 & H1 & Hd & _ & _ & Hk).
  { solve_holds. }
  { done. }
  { simpl. lia. }
  exists s', p'. split; [exact HC|]. split; [exact H2|]. split; [exact H1|].
  split; [exact Hd | exact Hk].
Defined.

Lemma Vector_copy_ctor_throw_is_clean_witness :
  ∃ s',
    @Vector_copy_ctor Z copy_relocated 2 1 (sequence_state 1 1 4 [10; 20; 30] (Some 1%nat)) =
      Throw s' ∧
    heap s' = heap (sequence_state 1 1 4 [10; 20; 30] (Some 1%nat)) ∧
    vecs s' = vecs (sequence_state 1 1 4 [10; 20; 30] (Some 1%nat)) ∧
    leaked s' = [].
Proof.
  apply (Vector_copy_ctor_throw_is_clean
           (sequence_state 1 1 4 [10; 20; 30] (Some 1%nat)) 2 1 (Ptr 1 0) 4
           [10; 20; 30] 1).
  - solve_holds.
  - reflexivity.
  - simpl. lia.
Defined.

Lemma copy_then_destroy_restores_witness :
  ∃ s',
    (@Vector_copy_ctor Z copy_relocated 2 1;; @Vector_dtor Z 2)
      (sequence_state 1 1 4 [10; 20; 30] None) = Ret tt s' ∧
    heap s' = heap (sequence_state 1 1 4 [10; 20; 30] None) ∧
    vecs s' = vecs (sequence_state 1 1 4 [10; 20; 30] None) ∧
    leaked s' = [] ∧
    holds s' 1 (Ptr 1 0) 4 [10; 20; 30].
Proof.
  apply (copy_then_destroy_restores (sequence_state 1 1 4 [10; 20; 30] None) 2 1
           (Ptr 1 0) 4 [10; 20; 30]).
  - solve_holds.
  - reflexivity.
  - exact I.
Defined.

Lemma Vector_move_ctor_takes_over_witness :
  ∃ s',
    @Vector_move_ctor Z 2 1 (sequence_state 1 1 4 [10; 20; 30] None) = Ret tt s' ∧
    holds s' 2 (Ptr 1 0) 4 [10; 20; 30] ∧
    holds s' 1 nullptr 0 [] ∧
    trace s' = [].
Proof.
  destruct (Vector_move_ctor_takes_over (sequence_state 1 1 4 [10; 20; 30] None) 2 1
              (Ptr 1 0) 4 [10; 20; 30]) as (s' & HM & H2 & H1 & _ & Ht & _).
  { solve_holds. }
  { done. }
  exists s'. split; [exact HM|]. split; [exact H2|]. split; [exact H1 | exact Ht].
Defined.

Lemma move_assignment_exchanges_witness :
  ∃ s',
    @operator_move_assign Z 1 2 (two_sequences_state 4 [10; 20] 2 [7] None) =
      Ret tt s' ∧
    holds s' 1 (Ptr 2 0) 2 [7] ∧
    holds s' 2 (Ptr 1 0) 4 [10; 20] ∧
    trace s' = [].
Proof.
  destruct (move_assignment_exchanges (two_sequences_state 4 [10; 20] 2 [7] None)
              1 2 (Ptr 1 0) 4 [10; 20] (Ptr 2 0) 2 [7])
    as (s' & HM & H1 & H2 & _ & Ht & _).
  { solve_holds. }
  { solve_holds. }
  { done. }
  exists s'. split; [exact HM|]. split; [exact H1|]. split; [exact H2 | exact Ht].
Defined.

Lemma self_move_assignment_is_no_op_witness :
  @operator_move_assign Z 1 1 (sequence_state 1 1 4 [10; 20] None) =
  Ret tt (sequence_state 1 1 4 [10; 20] None).
Proof.
  apply (self_move_assignment_is_no_op (sequence_state 1 1 4 [10; 20] None) 1
           (mkVector 2 (mkRawMemory (Ptr 1 0) 4))).
  reflexivity.
Defined.

Lemma Swap_twice_restores_witness :
  (@Swap Z 1 2;; @Swap Z 1 2) (two_sequences_state 4 [10; 20] 2 [7] None) =
  Ret tt (two_sequences_state 4 [10; 20] 2 [7] None).
Proof.
  apply (Swap_twice_restores (two_sequences_state 4 [10; 20] 2 [7] None) 1 2
           (mkVector 2 (mkRawMemory (Ptr 1 0) 4)) (mkVector 1 (mkRawMemory (Ptr 2 0) 2))).
  - done.
  - reflexivity.
  - reflexivity.
Defined.

Lemma Vector_dtor_releases_witness :
  ∃ s',
    @Vector_dtor Z 1 (sequence_state 1 1 4 [10; 20] None) = Ret tt s' ∧
    vecs s' !! 1%positive = None ∧
    heap s' = delete 1%positive (heap (sequence_state 1 1 4 [10; 20] None)) ∧
    trace s' = [EvDestroy (Ptr 1 0); EvDestroy (Ptr 1 1); EvDeallocate 1] ∧
    leaked s' = [].
Proof.
  apply (Vector_dtor_releases (sequence_state 1 1 4 [10; 20] None) 1 (Ptr 1 0) 4
           [10; 20]).
  solve_holds.
Defined.

Lemma Vector_at_reads_witness :
  (@Vector_at Z 1 1 ≫= read) (sequence_state 1 1 4 [10; 20; 30] None) =
  Ret 20 (sequence_state 1 1 4 [10; 20; 30] None).
Proof.
  apply (Vector_at_reads (sequence_state 1 1 4 [10; 20; 30] None) 1 (Ptr 1 0) 4
           [10; 20; 30] 1 20).
  - solve_holds.
  - reflexivity.
Defined.

Lemma Vector_at_out_of_bounds_faults_witness :
  @Vector_at Z 1 3 (sequence_state 1 1 4 [10; 20; 30] None) = Fault.
Proof.
  apply (Vector_at_out_of_bounds_faults (sequence_state 1 1 4 [10; 20; 30] None) 1
           (Ptr 1 0) 4 [10; 20; 30] 3).
  - solve_holds.
  - simpl. lia.
Defined.

Lemma Back_reads_last_witness :
  (@Back Z 1 ≫= read) (sequence_state 1 1 4 [10; 20; 30] None) =
  Ret 30 (sequence_state 1 1 4 [10; 20; 30] None).
Proof.
  apply (Back_reads_last (sequence_state 1 1 4 [10; 20; 30] None) 1 (Ptr 1 0) 4
           [10; 20] 30).
  solve_holds.
Defined.

Lemma Back_on_empty_faults_witness :
  @Back Z 1 (empty_sequence_state 1 None) = Fault ∧
  @Back Z 1 (sequence_state 1 1 4 [] None) = Fault.
Proof.
  split.
  - apply (Back_on_empty_faults (empty_sequence_state 1 None) 1 nullptr 0).
    solve_holds.
  - apply (Back_on_empty_faults (sequence_state 1 1 4 [] None) 1 (Ptr 1 0) 4).
    solve_holds.
Defined.

Lemma PopBack_removes_last_witness :
  ∃ s',
    @PopBack Z 1 (sequence_state 1 1 4 [10; 20; 30] None) = Ret tt s' ∧
    holds s' 1 (Ptr 1 0) 4 [10; 20] ∧
    trace s' = [EvDestroy (Ptr 1 2)].
Proof.
  destruct (PopBack_removes_last (sequence_state 1 1 4 [10; 20; 30] None) 1 (Ptr 1 0) 4
              [10; 20] 30) as (s' & HP & Hh & Ht & _).
  { solve_holds. }
  exists s'. split; [exact HP|]. split; [exact Hh | exact Ht].
Defined.

Lemma PopBack_on_empty_faults_witness :
  @PopBack Z 1 (empty_sequence_state 1 None) = Fault ∧
  @PopBack Z 1 (sequence_state 1 1 4 [] None) = Fault.
Proof.
  split.
  - apply (PopBack_on_empty_faults (empty_sequence_state 1 None) 1 nullptr 0).
    solve_holds.
  - apply (PopBack_on_empty_faults (sequence_state 1 1 4 [] None) 1 (Ptr 1 0) 4).
    solve_holds.
Defined.

Lemma Erase_at_end_faults_witness :
  @Erase Z copy_relocated 1 (Ptr 1 3) (sequence_state 1 1 4 [10; 20; 30] None) = Fault.
Proof.
  apply (Erase_at_end_faults (Element0 := copy_relocated)
           (sequence_state 1 1 4 [10; 20; 30] None) 1 (Ptr 1 0) 4 [10; 20; 30]).
  solve_holds.
Defined.

Lemma Reserve_grows_to_requested_witness :
  ∃ s' b',
    @Reserve Z copy_relocated 1 8 (sequence_state 1 1 2 [10; 20] (Some 2%nat)) =
      Ret tt s' ∧
    holds s' 1 (Ptr b' 0) 8 [10; 20] ∧
    heap s' !! 1%positive = None ∧
    copies_until_throw s' = Some 0%nat.
Proof.
  destruct (Reserve_grows_to_requested (Element0 := copy_relocated)
              (sequence_state 1 1 2 [10; 20] (Some 2%nat)) 1 (Ptr 1 0) 2 [10; 20] 8)
    as (s' & b' & HR & Hh & _ & Hold & _ & Hk).
  { solve_holds. }
  { solve_bound. }
  { unfold budget_allows, relocation_copies. simpl. lia. }
  exists s', b'. split; [exact HR|]. split; [exact Hh|].
  split; [exact (Hold 1%positive 0 eq_refl) | exact Hk].
Defined.

Lemma Reserve_strong_guarantee_witness :
  ∃ s',
    @Reserve Z copy_relocated 1 8 (sequence_state 1 1 2 [10; 20] (Some 1%nat)) =
      Throw s' ∧
    holds s' 1 (Ptr 1 0) 2 [10; 20] ∧
    heap s' = heap (sequence_state 1 1 2 [10; 20] (Some 1%nat)) ∧
    leaked s' = [].
Proof.
  destruct (Reserve_strong_guarantee (Element0 := copy_relocated)
              (sequence_state 1 1 2 [10; 20] (Some 1%nat)) 1 (Ptr 1 0) 2 [10; 20] 8 1)
    as (s' & HR & Hh & Hheap & _ & Hl).
  { solve_holds. }
  { solve_bound. }
  { reflexivity. }
  { unfold relocation_copies. simpl. lia. }
  exists s'. split; [exact HR|]. split; [exact Hh|]. split; [exact Hheap | exact Hl].
Defined.

Lemma Reserve_moves_without_copying_witness :
  ∃ s' p',
    @Reserve Z nothrow_movable 1 8 (sequence_state 1 1 2 [10; 20] (Some 0%nat)) =
      Ret tt s' ∧
    holds s' 1 p' 8 [10; 20] ∧
    copies_until_throw s' = Some 0%nat.
Proof.
  destruct (Reserve_moves_without_copying (Element0 := nothrow_movable)
              (sequence_state 1 1 2 [10; 20] (Some 0%nat)) 1 (Ptr 1 0) 2 [10; 20] 8)
    as (s' & p' & HR & Hh & Hk & _).
  { reflexivity. }
  { solve_holds. }
  { solve_bound. }
  exists s', p'. split; [exact HR|]. split; [exact Hh | exact Hk].
Defined.

Lemma Emplace_in_place_throw_changes_nothing_witness :
  @Emplace Z copy_relocated 1 (Ptr 1 1) (CopyOf 9)
    (sequence_state 1 1 4 [10; 20] (Some 0%nat)) =
  Throw (sequence_state 1 1 4 [10; 20] None).
Proof.
  apply (Emplace_in_place_throw_changes_nothing (Element0 := copy_relocated)
           (sequence_state 1 1 4 [10; 20] (Some 0%nat)) 1 (Ptr 1 0) 4 [10] [20] 9).
  - solve_holds.
  - simpl. lia.
  - reflexivity.
Defined.

Lemma Emplace_realloc_throw_leaks_witness :
  ∃ s',
    @Emplace Z copy_relocated 1 (Ptr 1 1) (CopyOf 9)
      (sequence_state 1 1 2 [10; 20] (Some 2%nat)) = Throw s' ∧
    holds s' 1 (Ptr 1 0) 2 [10; 20] ∧
    leaked s' = [10; 9].
Proof.
  destruct (Emplace_realloc_throw_leaks (Element0 := copy_relocated)
              (sequence_state 1 1 2 [10; 20] (Some 2%nat)) 1 (Ptr 1 0) 2 [10] [20]
              (CopyOf 9) 2) as (s' & HE & Hh & _ & _ & Hl).
  { solve_holds. }
  { reflexivity. }
  { solve_bound. }
  { reflexivity. }
  { reflexivity. }
  { simpl. lia. }
  exists s'. split; [exact HE|]. split; [exact Hh | exact Hl].
Defined.

Lemma EmplaceBack_returns_new_element_witness :
  ∃ s' q,
    @EmplaceBack Z copy_relocated 1 (Args 30)
      (sequence_state 1 1 2 [10; 20] None) = Ret q s' ∧
    @read Z q s' = Ret 30 s'.
Proof.
  destruct (EmplaceBack_returns_new_element (Element0 := copy_relocated)
              (sequence_state 1 1 2 [10; 20] None) 1 (Ptr 1 0) 2 [10; 20] (Args 30))
    as (s' & p' & q & HE & _ & _ & Hr & _).
  { solve_holds. }
  { intros _. solve_bound. }
  { exact I. }
  exists s', q. split; [exact HE | exact Hr].
Defined.

Lemma Erase_undoes_Emplace_witness :
  ∃ s' p',
    (q ← @Emplace Z copy_relocated 1 (Ptr 1 1) (Args 9); @Erase Z copy_relocated 1 q)
      (sequence_state 1 1 2 [10; 20] None) = Ret (ptr_add p' 1) s' ∧
    holds s' 1 p' 4 [10; 20].
Proof.
  destruct (Erase_undoes_Emplace (Element0 := copy_relocated)
              (sequence_state 1 1 2 [10; 20] None) 1 (Ptr 1 0) 2 [10] [20] (Args 9))
    as (s' & p' & HE & Hh & _).
  { solve_holds. }
  { intros _. solve_bound. }
  { exact I. }
  exists s', p'. split; [exact HE | exact Hh].
Defined.

Lemma PopBack_undoes_PushBack_witness :
  ∃ s' p',
    (@PushBack Z copy_relocated 1 (Args 30);; @PopBack Z 1)
      (sequence_state 1 1 2 [10; 20] None) = Ret tt s' ∧
    owns s' 1 p' 4 [10; 20] ∅ ∧
    leaked s' = [].
Proof.
  apply (PopBack_undoes_PushBack (Element0 := copy_relocated)
           (sequence_state 1 1 2 [10; 20] None) 1 (Ptr 1 0) 2 [10; 20] ∅ (Args 30)).
  - split; [solve_holds | split; [reflexivity | reflexivity]].
  - intros _. solve_bound.
  - exact I.
Defined.

Lemma operations_refine_list_witness :
  ∃ s' p',
    @perform_all Z copy_relocated 1
      [DoPushBack (Args 1); DoPushBack (CopyOf 2); DoInsert 1 (Args 5); DoErase 0;
       DoReserve 10; DoResize 4; DoPopBack]
      (empty_sequence_state 1 None) = Ret tt s' ∧
    owns s' 1 p' 10 [5; 2; 0] ∅ ∧
    @Size Z 1 s' = Ret 3 s' ∧
    leaked s' = [].
Proof.
  destruct (operations_refine_list (Element0 := copy_relocated)
              [DoPushBack (Args 1); DoPushBack (CopyOf 2); DoInsert 1 (Args 5);
               DoErase 0; DoReserve 10; DoResize 4; DoPopBack]
              (empty_sequence_state 1 None) 1 nullptr 0 [] ∅ [5; 2; 0] 10)
    as (s' & p' & HP & Ho & Hs & Hl & _).
  { split; [solve_holds | split; [reflexivity | exact I]]. }
  { reflexivity. }
  { reflexivity. }
  exists s', p'. split; [exact HP|]. split; [exact Ho|]. split; [exact Hs | exact Hl].
Defined.

Lemma capacity_never_shrinks_witness :
  ∃ s',
    @perform_all Z copy_relocated 1
      [DoPushBack (Args 3); DoErase 0; DoResize 0; DoReserve 1]
      (sequence_state 1 1 2 [10; 20] None) = Ret tt s' ∧
    @Capacity Z 1 s' = Ret 4 s'.
Proof.
  destruct (capacity_never_shrinks (Element0 := copy_relocated)
              [DoPushBack (Args 3); DoErase 0; DoResize 0; DoReserve 1]
              (sequence_state 1 1 2 [10; 20] None) 1 (Ptr 1 0) 2 [10; 20] ∅ [] 4)
    as (s' & HP & _ & Hc & _).
  { split; [solve_holds | split; [reflexivity | reflexivity]]. }
  { reflexivity. }
  { reflexivity. }
  exists s'. split; [exact HP | exact Hc].
Defined.

Lemma lifetime_leaves_heap_as_found_witness :
  ∃ s',
    (@Vector_default_ctor Z 2;;
     @perform_all Z copy_relocated 2
       [DoPushBack (Args 1); DoPushBack (Args 2); DoPushBack (Args 3); DoErase 1];;
     @Vector_dtor Z 2) (sequence_state 1 1 2 [10; 20] None) = Ret tt s' ∧
    heap s' = heap (sequence_state 1 1 2 [10; 20] None) ∧
    leaked s' = [] ∧
    vecs s' !! 2%positive = None.
Proof.
  destruct (lifetime_leaves_heap_as_found (Element0 := copy_relocated)
              [DoPushBack (Args 1); DoPushBack (Args 2); DoPushBack (Args 3); DoErase 1]
              (sequence_state 1 1 2 [10; 20] None) 2 [1; 3] 4)
    as (s' & HP & Hh & Hl & Hv & _).
  { reflexivity. }
  { reflexivity. }
  exists s'. split; [exact HP|]. split; [exact Hh|]. split; [exact Hl | exact Hv].
Defined.
